(** * skeema [pull]: reconciling a directory tree with a live database

    A shallow embedding of [pull.go] and the properties of its control
    flow.  [pull] walks a tree of directories; at a leaf it compares the
    tables staged from the files on disk with the live schema and turns
    each difference into a file operation, at an inner node it discovers
    schemas that have no directory yet and then descends.

    The program talks to a database, a file system and a terminal.  The
    state these share is the record [World]; the behaviour of the database,
    of the configuration reader and of the faults that can strike an
    operation is the record [Env].  A Go [panic] is an outcome of its own,
    next to the returned exit code. *)

From stdpp Require Import gmap strings list fin_maps.
From Stdlib Require Import ZArith.

Open Scope Z_scope.
Open Scope string_scope.
Open Scope list_scope.

(** ** Data *)

(** A Go [error] value, with the text [%s] prints. *)
Inductive error := Error (msg : string).

(** [SkeemaDir]: the walker only ever reads [Path]. *)
Record SkeemaDir := { Path : string }.

(** [Config]: of the configuration, [pull] uses the directory. *)
Record Config := { Dir : SkeemaDir }.

(** [cfg.ChangeDir(&subdir)]: the same configuration, seen from [subdir]. *)
Definition ChangeDir (cfg : Config) (subdir : SkeemaDir) : Config :=
  let _ := cfg in {| Dir := subdir |}.

(** [tengo.Table], [tengo.Schema], [tengo.Instance]. *)
Record Table := { Table_Name : string }.
Record Schema := { Schema_Name : string; Schema_Tables : list Table }.
Record Instance := { DSN : string }.

(** [Target]: an instance and the schema names a directory declares. *)
Record Target := { Target_Instance : Instance; SchemaNames : list string }.

(** The values the type switch of [pull] ranges over; [OtherDiff] stands
    for any other type behind the [TableDiff] interface, with its [%T]. *)
Inductive TableDiff :=
| CreateTable (table : Table)
| DropTable (table : Table)
| AlterTable (table : Table)
| RenameTable (table : Table)
| OtherDiff (type_name : string).

Record SQLFile := { SQLFile_Dir : SkeemaDir; FileName : string; Contents : string }.

(** [sf.Path()] *)
Definition SQLFile_Path (sf : SQLFile) : string :=
  Path (SQLFile_Dir sf) +:+ "/" +:+ FileName sf.

(** The key of a file in the store: its directory and its name. *)
Definition SQLFile_key (sf : SQLFile) : string * string :=
  (Path (SQLFile_Dir sf), FileName sf).

(** The value a [panic] carries. *)
Inductive panic_value :=
| PanicError (e : error)
| IndexOutOfRange.

(** How a call of [pull] ends: it returns an exit code, or it panics. *)
Inductive outcome :=
| Ret (code : Z)
| Panic (p : panic_value).

(** The status of the process: the returned code, or 2, the status the Go
    runtime exits with after a panic nobody recovers. *)
Definition exit_status (o : outcome) : Z :=
  match o with
  | Ret code => code
  | Panic _ => 2
  end.

(** [ret != 0], where a panic never compares as zero. *)
Definition is_zero (o : outcome) : bool :=
  match o with
  | Ret code => bool_decide (code = 0)
  | Panic _ => false
  end.

(** ** The trace *)

(** Every line [pull] prints and every call it makes to a collaborator that
    reads or changes the database or the file system, in order. *)
Inductive Event :=
| PrintUpdating (path : string)
| PrintUnableDeleteDir (dir : SkeemaDir) (err : error)
| PrintDeletedDir (dir : SkeemaDir)
| PrintUnablePopulate (err : error)
| PrintUnableWrite (path : string) (err : error)
| PrintWroteNew (path : string) (length : Z)
| PrintUnableDelete (path : string) (err : error)
| PrintDeletedFile (path : string)
| PrintWroteAltered (path : string) (length : Z)
| PrintUnableCleanup (err : error)
| PrintUnableList (dir : SkeemaDir) (err : error)
| CallDirDelete (dir : SkeemaDir)
| CallPopulateTemporarySchema (dir : SkeemaDir)
| CallNewSchemaDiff (to : Schema)
| CallShowCreateTable (to : Schema) (table : Table)
| CallWrite (sf : SQLFile)
| CallDelete (sf : SQLFile)
| CallDropTemporarySchema (dir : SkeemaDir)
| CallSubdirs (dir : SkeemaDir)
| CallPopulateSchemaDir (schema : Schema) (parent : SkeemaDir).

(** ** The world *)

Record World := {
  (** the table files: (directory path, file name) to contents *)
  files : gmap (string * string) string;
  (** the directories that exist, each with the values of its
      configuration file when it has one *)
  dirs : gmap string (option (gmap string string));
  (** the temporary schema on the instance: the directory whose table
      files are staged in it, [None] when there is none *)
  temp_schema : option string;
}.

Definition set_files (f : gmap (string * string) string) (w : World) : World :=
  {| files := f; dirs := dirs w; temp_schema := temp_schema w |}.
Definition set_dirs (d : gmap string (option (gmap string string))) (w : World) : World :=
  {| files := files w; dirs := d; temp_schema := temp_schema w |}.
Definition set_temp_schema (b : option string) (w : World) : World :=
  {| files := files w; dirs := dirs w; temp_schema := b |}.

(** The trace grows at its end. *)
Definition emit (e : Event) (tr : list Event) : list Event := tr ++ [e].

(** ** The collaborators *)

(** What the code asks of the database and of the configuration reader,
    and which operation fails with which error.  None of it is in
    [pull.go]; the walker is verified against every [Env]. *)
Record Env := {
  IsLeaf : World → SkeemaDir → bool;
  IsInstanceWithLeafSubdirs : World → SkeemaDir → bool;
  Targets : World → Config → list Target;
  (** [t.Schema(name)]: [None] is the nil schema *)
  Target_Schema : World → Target → string → option Schema;
  Target_Schemas : World → Target → list Schema;
  (** [t.TemporarySchema()] *)
  TemporarySchema : World → Target → option Schema;
  (** [tengo.NewSchemaDiff(from, to).TableDiffs] *)
  NewSchemaDiff : option Schema → Schema → list TableDiff;
  ShowCreateTable : World → Instance → Schema → Table → string + error;
  (** [dir.Subdirs()]: each entry under its [Path] *)
  Subdirs : World → SkeemaDir → list SkeemaDir + error;
  dir_delete_error : World → SkeemaDir → option error;
  populate_error : World → Config → option error;
  drop_error : World → Config → option error;
  write_error : World → SQLFile → option error;
  delete_error : World → SQLFile → option error;
  mkdir_error : World → SkeemaDir → option error;
}.

(** Whether [q] is [p] or lies below it. *)
Definition under (p q : string) : bool :=
  bool_decide (p = q) || String.prefix (p +:+ "/") q.

Section Collaborators.
Context (E : Env).

(** Modelled from the spec: [SQLFile.Write] is missing from the source.
    Spec 4.5: write(directory, tableName, content) gives (bytesWritten,
    error) and is an overwrite-or-create operation, not append. *)
Definition SQLFile_Write (sf : SQLFile) (w : World) : World * (Z + error) :=
  match write_error E w sf with
  | Some err => (w, inr err)
  | None =>
      (set_files (<[SQLFile_key sf := Contents sf]> (files w)) w,
       inl (Z.of_nat (String.length (Contents sf))))
  end.

(** Modelled from the spec: [SQLFile.Delete] is missing from the source.
    Spec 4.5: delete(directory, tableName) gives an error; a missing file
    is still an error surfaced to the caller. *)
Definition SQLFile_Delete (sf : SQLFile) (w : World) : World * option error :=
  match files w !! SQLFile_key sf with
  | None => (w, Some (Error "no such file"))
  | Some _ =>
      match delete_error E w sf with
      | Some err => (w, Some err)
      | None => (set_files (delete (SQLFile_key sf) (files w)) w, None)
      end
  end.

(** Modelled from the spec: [SkeemaDir.Delete] is missing from the
    source.  Spec 4.1: delete the directory recursively. *)
Definition Dir_Delete (dir : SkeemaDir) (w : World) : World * option error :=
  match dir_delete_error E w dir with
  | Some err => (w, Some err)
  | None =>
      (set_files (filter (λ kv, under (Path dir) kv.1.1 = false) (files w))
         (set_dirs (filter (λ kv, under (Path dir) kv.1 = false) (dirs w)) w),
       None)
  end.

(** Modelled from the spec: [Config.PopulateTemporarySchema] is missing
    from the source.  Spec 4.4: acquisition of the staging schema on the
    target instance from the table files of the leaf directory;
    acquisition failure aborts before any diff. *)
Definition PopulateTemporarySchema (cfg : Config) (w : World) : World * option error :=
  match populate_error E w cfg with
  | Some err => (w, Some err)
  | None => (set_temp_schema (Some (Path (Dir cfg))) w, None)
  end.

(** Modelled from the spec: [Config.DropTemporarySchema] is missing from
    the source.  Spec 4.4: release drops the staging schema entirely. *)
Definition DropTemporarySchema (cfg : Config) (w : World) : World * option error :=
  match drop_error E w cfg with
  | Some err => (w, Some err)
  | None => (set_temp_schema None w, None)
  end.

(** Modelled from the spec: [SkeemaDir.SkeemaFile] is missing from the
    source.  It reads the configuration file of a directory; [None] is a
    non-nil [err]. *)
Definition SkeemaFile (w : World) (subdir : SkeemaDir) : option (gmap string string) :=
  mjoin (dirs w !! Path subdir).

(** [skf.HasField(k)] and [skf.Values[k]] *)
Definition HasField (skf : gmap string string) (k : string) : bool :=
  bool_decide (is_Some (skf !! k)).
Definition Values (skf : gmap string string) (k : string) : string :=
  default "" (skf !! k).

(** One table file of a new schema directory. *)
Definition populate_table (instance : Instance) (schema : Schema) (dir : SkeemaDir)
    (table : Table) (w : World) : World * Z :=
  match ShowCreateTable E w instance schema table with
  | inr _ => (w, 1)
  | inl createStmt =>
      let sf := {| SQLFile_Dir := dir;
                   FileName := Table_Name table +:+ ".sql";
                   Contents := createStmt |} in
      match SQLFile_Write sf w with
      | (w, inr _) => (w, 1)
      | (w, inl _) => (w, 0)
      end
  end.

Fixpoint populate_tables (instance : Instance) (schema : Schema) (dir : SkeemaDir)
    (tables : list Table) (w : World) : World * Z :=
  match tables with
  | [] => (w, 0)
  | table :: rest =>
      match populate_table instance schema dir table w with
      | (w, 0) => populate_tables instance schema dir rest w
      | (w, ret) => (w, ret)
      end
  end.

(** Modelled from the spec: [PopulateSchemaDir] is missing from the
    source.  Spec 4.2: directory creation, baseline configuration file,
    one file per existing table; any failure (directory creation, file
    write) aborts with a non-zero result, and what was created stays. *)
Definition PopulateSchemaDir (schema : Schema) (instance : Instance)
    (parentDir : SkeemaDir) (makeSubdir : bool) (w : World) : World * Z :=
  let dir := if makeSubdir
             then {| Path := Path parentDir +:+ "/" +:+ Schema_Name schema |}
             else parentDir in
  match (if makeSubdir then mkdir_error E w dir else None) with
  | Some _ => (w, 1)
  | None =>
      let w := set_dirs (<[Path dir := Some {[ "schema" := Schema_Name schema ]}]> (dirs w)) w in
      populate_tables instance schema dir (Schema_Tables schema) w
  end.

End Collaborators.

(** ** The walker *)

(** A Go [map[string]bool]: a missing key reads as [false]. *)
Definition map_get (m : gmap string bool) (k : string) : bool :=
  default false (m !! k).

Section Pull.
Context (E : Env).

(** The body of the [for ... range diff.TableDiffs] loop for one entry:
    [None] when the loop goes on, the outcome when the entry ends [pull]. *)
Definition applyTableDiff (cfg : Config) (t : Target) (to : Schema)
    (td : TableDiff) (w : World) (tr : list Event)
    : World * list Event * option outcome :=
  match td with
  | CreateTable table =>
      let tr := emit (CallShowCreateTable to table) tr in
      match ShowCreateTable E w (Target_Instance t) to table with
      | inr err => (w, tr, Some (Panic (PanicError err)))
      | inl createStmt =>
          let sf := {| SQLFile_Dir := Dir cfg;
                       FileName := Table_Name table +:+ ".sql";
                       Contents := createStmt |} in
          let tr := emit (CallWrite sf) tr in
          match SQLFile_Write E sf w with
          | (w, inr err) =>
              (w, emit (PrintUnableWrite (SQLFile_Path sf) err) tr, Some (Ret 1))
          | (w, inl length) =>
              (w, emit (PrintWroteNew (SQLFile_Path sf) length) tr, None)
          end
      end
  | DropTable table =>
      let sf := {| SQLFile_Dir := Dir cfg;
                   FileName := Table_Name table +:+ ".sql";
                   Contents := "" |} in
      let tr := emit (CallDelete sf) tr in
      match SQLFile_Delete E sf w with
      | (w, Some err) =>
          (w, emit (PrintUnableDelete (SQLFile_Path sf) err) tr, Some (Ret 1))
      | (w, None) =>
          (w, emit (PrintDeletedFile (SQLFile_Path sf)) tr, None)
      end
  | AlterTable table =>
      let tr := emit (CallShowCreateTable to table) tr in
      match ShowCreateTable E w (Target_Instance t) to table with
      | inr err => (w, tr, Some (Panic (PanicError err)))
      | inl createStmt =>
          let sf := {| SQLFile_Dir := Dir cfg;
                       FileName := Table_Name table +:+ ".sql";
                       Contents := createStmt |} in
          let tr := emit (CallWrite sf) tr in
          match SQLFile_Write E sf w with
          | (w, inr err) =>
              (w, emit (PrintUnableWrite (SQLFile_Path sf) err) tr, Some (Ret 1))
          | (w, inl length) =>
              (w, emit (PrintWroteAltered (SQLFile_Path sf) length) tr, None)
          end
      end
  | RenameTable _ =>
      (w, tr, Some (Panic (PanicError (Error "Table renames not yet supported!"))))
  | OtherDiff type_name =>
      (w, tr, Some (Panic (PanicError (Error ("Unsupported diff type " +:+ type_name +:+ "
")))))
  end.

(** [for _, td := range diff.TableDiffs { ... }] *)
Fixpoint applyTableDiffs (cfg : Config) (t : Target) (to : Schema)
    (diffs : list TableDiff) (w : World) (tr : list Event)
    : World * list Event * option outcome :=
  match diffs with
  | [] => (w, tr, None)
  | td :: rest =>
      match applyTableDiff cfg t to td w tr with
      | (w, tr, None) => applyTableDiffs cfg t to rest w tr
      | (w, tr, Some o) => (w, tr, Some o)
      end
  end.

(** The branch [cfg.Dir.IsLeaf()]. *)
Definition pull_leaf (cfg : Config) (w : World) (tr : list Event)
    : outcome * World * list Event :=
  let tr := emit (PrintUpdating (Path (Dir cfg))) tr in
  match Targets E w cfg with
  | [] => (Panic IndexOutOfRange, w, tr)
  | t :: _ =>
  match SchemaNames t with
  | [] => (Panic IndexOutOfRange, w, tr)
  | name :: _ =>
  match Target_Schema E w t name with
  | None =>
      let tr := emit (CallDirDelete (Dir cfg)) tr in
      match Dir_Delete E (Dir cfg) w with
      | (w, Some err) => (Ret 1, w, emit (PrintUnableDeleteDir (Dir cfg) err) tr)
      | (w, None) => (Ret 0, w, emit (PrintDeletedDir (Dir cfg)) tr)
      end
  | Some to =>
      let tr := emit (CallPopulateTemporarySchema (Dir cfg)) tr in
      match PopulateTemporarySchema E cfg w with
      | (w, Some err) => (Ret 1, w, emit (PrintUnablePopulate err) tr)
      | (w, None) =>
          let from := TemporarySchema E w t in
          let diff := NewSchemaDiff E from to in
          let tr := emit (CallNewSchemaDiff to) tr in
          match applyTableDiffs cfg t to diff w tr with
          | (w, tr, Some o) => (o, w, tr)
          | (w, tr, None) =>
              let tr := emit (CallDropTemporarySchema (Dir cfg)) tr in
              match DropTemporarySchema E cfg w with
              | (w, Some err) => (Ret 1, w, emit (PrintUnableCleanup err) tr)
              | (w, None) => (Ret 0, w, tr)
              end
          end
      end
  end end end.

(** The first loop of the instance branch: the schema names the
    subdirectories declare. *)
Definition seenSchema_of (w : World) (subdirs : list SkeemaDir) : gmap string bool :=
  foldl (λ seenSchema subdir,
           match SkeemaFile w subdir with
           | Some skf =>
               if HasField skf "schema"
               then <[Values skf "schema" := true]> seenSchema
               else seenSchema
           | None => seenSchema
           end) ∅ subdirs.

(** The second loop: a directory for every schema not seen.  [None] when
    the loop runs to its end. *)
Fixpoint discover (cfg : Config) (t : Target) (seenSchema : gmap string bool)
    (schemas : list Schema) (w : World) (tr : list Event)
    : World * list Event * option outcome :=
  match schemas with
  | [] => (w, tr, None)
  | schema :: rest =>
      if negb (map_get seenSchema (Schema_Name schema)) then
        let tr := emit (CallPopulateSchemaDir schema (Dir cfg)) tr in
        match PopulateSchemaDir E schema (Target_Instance t) (Dir cfg) true w with
        | (w, ret) =>
            if bool_decide (ret ≠ 0) then (w, tr, Some (Ret ret))
            else discover cfg t seenSchema rest w tr
        end
      else discover cfg t seenSchema rest w tr
  end.

(** [if cfg.Dir.IsInstanceWithLeafSubdirs() { ... }] *)
Definition discovery (cfg : Config) (subdirs : list SkeemaDir) (w : World)
    (tr : list Event) : World * list Event * option outcome :=
  if IsInstanceWithLeafSubdirs E w (Dir cfg) then
    let seenSchema := seenSchema_of w subdirs in
    match Targets E w cfg with
    | [] => (w, tr, Some (Panic IndexOutOfRange))
    | t :: _ => discover cfg t seenSchema (Target_Schemas E w t) w tr
    end
  else (w, tr, None).

(** What a call leaves: the outcome, the seen-set (the Go map is shared by
    all the calls, so it is threaded), the world and the trace. *)
Record result := Result {
  res_outcome : outcome;
  res_seen : gmap string bool;
  res_world : World;
  res_trace : list Event;
}.

(** The last loop, over the subdirectories, with the recursive call as a
    parameter. *)
Fixpoint recurse (rec : Config → gmap string bool → World → list Event → option result)
    (cfg : Config) (subdirs : list SkeemaDir) (seen : gmap string bool)
    (w : World) (tr : list Event) : option result :=
  match subdirs with
  | [] => Some (Result (Ret 0) seen w tr)
  | subdir :: rest =>
      if negb (map_get seen (Path subdir)) then
        match rec (ChangeDir cfg subdir) seen w tr with
        | None => None
        | Some (Result ret seen w tr) =>
            if is_zero ret then recurse rec cfg rest seen w tr
            else Some (Result ret seen w tr)
        end
      else recurse rec cfg rest seen w tr
  end.

(** The [else] branch of [pull]. *)
Definition pull_node (rec : Config → gmap string bool → World → list Event → option result)
    (cfg : Config) (seen : gmap string bool) (w : World) (tr : list Event)
    : option result :=
  let tr := emit (CallSubdirs (Dir cfg)) tr in
  match Subdirs E w (Dir cfg) with
  | inr err => Some (Result (Ret 1) seen w (emit (PrintUnableList (Dir cfg) err) tr))
  | inl subdirs =>
      match discovery cfg subdirs w tr with
      | (w, tr, Some o) => Some (Result o seen w tr)
      | (w, tr, None) => recurse rec cfg subdirs (<[Path (Dir cfg) := true]> seen) w tr
      end
  end.

(** [pull]; the recursion follows the directories, which the code does
    not bound, so the embedding counts the depth: [None] when [fuel] calls
    deep was not enough. *)
Fixpoint pull (fuel : nat) (cfg : Config) (seen : gmap string bool) (w : World)
    (tr : list Event) : option result :=
  match fuel with
  | O => None
  | S fuel =>
      if IsLeaf E w (Dir cfg) then
        let '(o, w, tr) := pull_leaf cfg w tr in Some (Result o seen w tr)
      else pull_node (pull fuel) cfg seen w tr
  end.

(** [PullCommand]: a fresh seen-set, an empty trace. *)
Definition PullCommand (fuel : nat) (cfg : Config) (w : World) : option result :=
  pull fuel cfg ∅ w [].

End Pull.

(** * What the properties speak of *)

(** ** Equality of the data *)

Global Instance error_eq_dec : EqDecision error.
Proof. solve_decision. Defined.
Global Instance SkeemaDir_eq_dec : EqDecision SkeemaDir.
Proof. solve_decision. Defined.
Global Instance Table_eq_dec : EqDecision Table.
Proof. solve_decision. Defined.
Global Instance Schema_eq_dec : EqDecision Schema.
Proof. solve_decision. Defined.
Global Instance SQLFile_eq_dec : EqDecision SQLFile.
Proof. solve_decision. Defined.
Global Instance Event_eq_dec : EqDecision Event.
Proof. solve_decision. Defined.

(** ** Files, entries and traces *)

(** The table an entry is about. *)
Definition diff_table (td : TableDiff) : option Table :=
  match td with
  | CreateTable table | DropTable table | AlterTable table | RenameTable table => Some table
  | OtherDiff _ => None
  end.

(** The file of a table in the directory of [cfg]. *)
Definition table_key (cfg : Config) (table : Table) : string * string :=
  (Path (Dir cfg), Table_Name table +:+ ".sql").

(** Whether an event is a call that changes the file with key [k]. *)
Definition touches (k : string * string) (e : Event) : Prop :=
  match e with
  | CallWrite sf | CallDelete sf => SQLFile_key sf = k
  | _ => False
  end.

(** The file of a table. *)
Definition table_file (table : Table) : string := Table_Name table +:+ ".sql".

(** The trace at the start of the loop over the diff entries. *)
Definition diff_phase_trace (cfg : Config) (to : Schema) (tr : list Event) : list Event :=
  tr ++ [PrintUpdating (Path (Dir cfg)); CallPopulateTemporarySchema (Dir cfg);
         CallNewSchemaDiff to].

(** How often the trace enters the leaf [path]: the lines [Updating ...]. *)
Definition leaf_visits (path : string) (tr : list Event) : nat :=
  length (filter (λ e, e = PrintUpdating path) tr).

(** ** Targets and schema directories *)

(** The collaborators of [E], with another answer for [cfg.Targets()]. *)
Definition with_Targets (f : World → Config → list Target) (E : Env) : Env :=
  {| IsLeaf := IsLeaf E;
     IsInstanceWithLeafSubdirs := IsInstanceWithLeafSubdirs E;
     Targets := f;
     Target_Schema := Target_Schema E;
     Target_Schemas := Target_Schemas E;
     TemporarySchema := TemporarySchema E;
     NewSchemaDiff := NewSchemaDiff E;
     ShowCreateTable := ShowCreateTable E;
     Subdirs := Subdirs E;
     dir_delete_error := dir_delete_error E;
     populate_error := populate_error E;
     drop_error := drop_error E;
     write_error := write_error E;
     delete_error := delete_error E;
     mkdir_error := mkdir_error E |}.

(** A target cut down to its first schema name. *)
Definition first_name_only (t : Target) : Target :=
  {| Target_Instance := Target_Instance t; SchemaNames := take 1 (SchemaNames t) |}.

(** The directory [PopulateSchemaDir] makes for a schema. *)
Definition schema_dir (parent : SkeemaDir) (schema : Schema) : string :=
  Path parent +:+ "/" +:+ Schema_Name schema.

(** The directories [PopulateSchemaDir] has made for a set of schema names
    of the parent [parent], each with its configuration. *)
Definition populated (parent : SkeemaDir) (names : list string) (w : World) : Prop :=
  ∀ name, name ∈ names →
    dirs w !! (Path parent +:+ "/" +:+ name) = Some (Some {[ "schema" := name ]}).

(** The names of the schemas of a list that the subdirectories do not
    declare: the ones the second loop makes a directory for. *)
Definition unseen_names (seenSchema : gmap string bool) (schemas : list Schema) : list string :=
  Schema_Name <$> filter (λ s, map_get seenSchema (Schema_Name s) = false) schemas.

(** What one step of the first loop of the instance branch does. *)
Definition seenSchema_step (w : World) (seenSchema : gmap string bool) (subdir : SkeemaDir)
    : gmap string bool :=
  match SkeemaFile w subdir with
  | Some skf =>
      if HasField skf "schema" then <[Values skf "schema" := true]> seenSchema
      else seenSchema
  | None => seenSchema
  end.

(** ** The seen-set *)

(** The entries of the seen-set of [seen] are entries of [seen']. *)
Definition seen_le (seen seen' : gmap string bool) : Prop :=
  ∀ p, map_get seen p = true → map_get seen' p = true.

(** The paths of [U] not yet seen. *)
Definition unseen (U : gset string) (seen : gmap string bool) : gset string :=
  filter (λ p, map_get seen p = false) U.

(** ** Calls and the calls they make *)

(** The state a call of [pull] starts from. *)
Record call := Call {
  call_cfg : Config;
  call_seen : gmap string bool;
  call_world : World;
  call_trace : list Event;
}.

(** [invoked rec cfg subdirs seen w tr c]: the loop over [subdirs], started
    in the state [seen], [w], [tr], gets to make the call [c]: every entry
    before it was skipped as seen or returned 0. *)
Inductive invoked (rec : Config → gmap string bool → World → list Event → option result)
    (cfg : Config)
    : list SkeemaDir → gmap string bool → World → list Event → call → Prop :=
| invoked_now subdir rest seen w tr :
    map_get seen (Path subdir) = false →
    invoked rec cfg (subdir :: rest) seen w tr (Call (ChangeDir cfg subdir) seen w tr)
| invoked_after subdir rest seen w tr seen' w' tr' c :
    map_get seen (Path subdir) = false →
    rec (ChangeDir cfg subdir) seen w tr = Some (Result (Ret 0) seen' w' tr') →
    invoked rec cfg rest seen' w' tr' c →
    invoked rec cfg (subdir :: rest) seen w tr c
| invoked_skip subdir rest seen w tr c :
    map_get seen (Path subdir) = true →
    invoked rec cfg rest seen w tr c →
    invoked rec cfg (subdir :: rest) seen w tr c.

Section Notions.
Context (E : Env).

(** The diff-application phase: the target, the live schema and the diff
    entries a leaf gets to work on, when it gets that far. *)
Definition diff_phase (cfg : Config) (w : World) : option (Target * Schema * list TableDiff) :=
  match Targets E w cfg with
  | [] => None
  | t :: _ =>
      match SchemaNames t with
      | [] => None
      | name :: _ =>
          match Target_Schema E w t name, populate_error E w cfg with
          | Some to, None =>
              Some (t, to, NewSchemaDiff E (TemporarySchema E (set_temp_schema (Some (Path (Dir cfg))) w) t) to)
          | _, _ => None
          end
      end
  end.

Definition run_call (fuel : nat) (c : call) : option result :=
  pull E fuel (call_cfg c) (call_seen c) (call_world c) (call_trace c).

(** [subcall fuel parent child]: the call [parent], run [S fuel] deep, is
    at an inner node and calls [child] for one of its subdirectories. *)
Inductive subcall (fuel : nat) : call → call → Prop :=
| subcall_intro cfg seen w tr subdirs w1 tr1 child :
    IsLeaf E w (Dir cfg) = false →
    Subdirs E w (Dir cfg) = inl subdirs →
    discovery E cfg subdirs w (emit (CallSubdirs (Dir cfg)) tr) = (w1, tr1, None) →
    invoked (pull E fuel) cfg subdirs (<[Path (Dir cfg) := true]> seen) w1 tr1 child →
    subcall fuel (Call cfg seen w tr) child.

(** [encloses n outer m inner]: [inner], run [m] deep, is [outer], run [n]
    deep, or a call made below it. *)
Inductive encloses : nat → call → nat → call → Prop :=
| encloses_self n c : encloses n c n c
| encloses_below n outer child m inner :
    subcall n outer child →
    encloses n child m inner →
    encloses (S n) outer m inner.

(** ** Running [pull] twice *)

(** A world with nothing in it, to ask the collaborators whose answers do
    not depend on the world. *)
Definition nowhere : World := {| files := ∅; dirs := ∅; temp_schema := None |}.

(** [differs to table text]: the definition [text] found on disk differs
    in structure from the live table [table] of the schema [to]. *)
Context (differs : Schema → Table → string → Prop).

(** The live schema a leaf directory is reconciled with: the first schema
    name of the first target. *)
Definition leaf_schema (w : World) (cfg : Config) : option Schema :=
  match Targets E w cfg with
  | [] => None
  | t :: _ =>
      match SchemaNames t with
      | [] => None
      | name :: _ => Target_Schema E w t name
      end
  end.

(** Modelled from the spec: the diff engine [tengo.NewSchemaDiff] is
    missing from the source.  Spec 4.3, what an entry says about the files
    of the directory [p] and the live schema: Create, the table exists live
    but has no file; Drop, the table no longer exists live but its file
    remains; Alter, the table exists in both but differs. *)
Definition entry_sound (w : World) (p : string) (to : Schema) (td : TableDiff) : Prop :=
  match td with
  | CreateTable table =>
      table ∈ Schema_Tables to ∧ files w !! (p, table_file table) = None
  | DropTable table =>
      (table ∉ Schema_Tables to) ∧ is_Some (files w !! (p, table_file table))
  | AlterTable table =>
      table ∈ Schema_Tables to ∧
      ∃ text, files w !! (p, table_file table) = Some text ∧ differs to table text
  | RenameTable _ | OtherDiff _ => True
  end.

(** Modelled from the spec: the configuration reader, the diff engine,
    [Subdirs] and the file operations are missing from the source; these
    are the laws the spec gives them, for a tree that describes the schemas
    of an instance.  Classification, targets and the live schemas do not
    depend on what [pull] changes; the diff engine reports
    the differences between the staged files and the live schema, all of
    them and nothing else; a listing gives directories that exist, and
    gives a directory whenever it exists and is an entry; a directory
    cannot be made twice and a file cannot be written where there is no
    directory; the directory made for a live schema is a leaf for that
    schema, and a subdirectory that declares a live schema is reconciled
    with a schema that is there. *)
Record Lawful : Prop := {
  law_IsLeaf : ∀ w w' d, IsLeaf E w d = IsLeaf E w' d;
  law_IsInstance : ∀ w w' d,
    IsInstanceWithLeafSubdirs E w d = IsInstanceWithLeafSubdirs E w' d;
  law_Targets : ∀ w w' cfg, Targets E w cfg = Targets E w' cfg;
  law_Target_Schema : ∀ w w' t name, Target_Schema E w t name = Target_Schema E w' t name;
  law_Target_Schemas : ∀ w w' t, Target_Schemas E w t = Target_Schemas E w' t;
  law_definition : ∀ w i to table text,
    ShowCreateTable E w i to table = inl text → ¬ differs to table text;
  law_diff_sound : ∀ w t to p td,
    temp_schema w = Some p →
    td ∈ NewSchemaDiff E (TemporarySchema E w t) to →
    entry_sound w p to td;
  law_diff_complete : ∀ w t to p table,
    temp_schema w = Some p →
    (table ∈ Schema_Tables to → files w !! (p, table_file table) = None →
     CreateTable table ∈ NewSchemaDiff E (TemporarySchema E w t) to)
    ∧ (table ∉ Schema_Tables to → is_Some (files w !! (p, table_file table)) →
       DropTable table ∈ NewSchemaDiff E (TemporarySchema E w t) to)
    ∧ (∀ text, table ∈ Schema_Tables to → files w !! (p, table_file table) = Some text →
               differs to table text →
               AlterTable table ∈ NewSchemaDiff E (TemporarySchema E w t) to);
  law_listed : ∀ w d l sd,
    Subdirs E w d = inl l → sd ∈ l → is_Some (dirs w !! Path sd);
  law_listing : ∀ w w' d l' sd,
    Subdirs E w' d = inl l' → sd ∈ l' → is_Some (dirs w !! Path sd) →
    ∃ l, Subdirs E w d = inl l ∧ sd ∈ l;
  law_mkdir : ∀ w d, mkdir_error E w d = None → dirs w !! Path d = None;
  law_write : ∀ w sf, write_error E w sf = None → is_Some (dirs w !! Path (SQLFile_Dir sf));
  law_schema_dir : ∀ w d t ts schema,
    IsInstanceWithLeafSubdirs E w d = true →
    Targets E w {| Dir := d |} = t :: ts →
    schema ∈ Target_Schemas E w t →
    IsLeaf E w {| Path := schema_dir d schema |} = true
    ∧ leaf_schema w {| Dir := {| Path := schema_dir d schema |} |} = Some schema
    ∧ (∃ t' ts' names,
         Targets E w {| Dir := {| Path := schema_dir d schema |} |} = t' :: ts'
         ∧ SchemaNames t' = Schema_Name schema :: names)
    ∧ ∀ p, IsLeaf E w {| Path := p |} = true → under p (schema_dir d schema) = true →
           p = schema_dir d schema;
  law_same_instance : ∀ w d t ts l sd t' ts' names schema,
    IsInstanceWithLeafSubdirs E w d = true →
    Targets E w {| Dir := d |} = t :: ts →
    Subdirs E w d = inl l → sd ∈ l →
    Targets E w {| Dir := sd |} = t' :: ts' →
    SchemaNames t' = Schema_Name schema :: names →
    schema ∈ Target_Schemas E w t →
    is_Some (Target_Schema E w t' (Schema_Name schema));
}.

(** The classification and the live schema of a path, whatever the world. *)
Definition leaf (p : string) : bool := IsLeaf E nowhere {| Path := p |}.
Definition live_schema (p : string) : option Schema :=
  leaf_schema nowhere {| Dir := {| Path := p |} |}.

(** The files of the directory [p] agree with the live schema [to]: every
    live table has a file that does not differ, no other table has one. *)
Definition synced (w : World) (p : string) (to : Schema) : Prop :=
  ∀ table,
    (table ∈ Schema_Tables to →
     ∃ text, files w !! (p, table_file table) = Some text ∧ ¬ differs to table text)
    ∧ (table ∉ Schema_Tables to → files w !! (p, table_file table) = None).

(** A leaf with nothing left to reconcile. *)
Definition quiet (w : World) (p : string) : Prop :=
  leaf p = true ∧ ∃ to, live_schema p = Some to ∧ synced w p to.

(** A well-formed store: files lie in directories that exist, no
    directory lies below a leaf, and the schema name the configuration of
    a directory declares is the first schema name of its first target. *)
Definition well_formed (w : World) : Prop :=
  (∀ p f text, files w !! (p, f) = Some text → is_Some (dirs w !! p))
  ∧ (∀ p q, leaf p = true → is_Some (dirs w !! q) → under p q = true → q = p)
  ∧ (∀ q skf name,
       dirs w !! q = Some (Some skf) → skf !! "schema" = Some name →
       ∃ t ts names,
         Targets E nowhere {| Dir := {| Path := q |} |} = t :: ts
         ∧ SchemaNames t = name :: names).

(** The invariant of a run: the leaves of [Q], the ones visited or made so
    far, are quiet as long as they exist. *)
Definition inv (w : World) (Q : gset string) : Prop :=
  well_formed w ∧ ∀ p, p ∈ Q → is_Some (dirs w !! p) → quiet w p.

(** From [w] to [w'] in a run: a directory that appears is in [Q], one that
    disappears is a leaf whose schema is gone, one that stays keeps its
    configuration. *)
Definition step (w w' : World) (Q : gset string) : Prop :=
  (∀ q, is_Some (dirs w' !! q) → is_Some (dirs w !! q) ∨ q ∈ Q)
  ∧ (∀ q, is_Some (dirs w !! q) → dirs w' !! q = None →
          leaf q = true ∧ live_schema q = None)
  ∧ (∀ q, is_Some (dirs w !! q) → is_Some (dirs w' !! q) → dirs w' !! q = dirs w !! q).

(** An entry of a listing is accounted for: a leaf of [Q] or an inner
    directory of the seen-set. *)
Definition tracked (seen : gmap string bool) (Q : gset string) (q : string) : Prop :=
  (leaf q = true ∧ q ∈ Q) ∨ (leaf q = false ∧ map_get seen q = true).

(** [sd] is an entry of the directory [d]: some listing of [d] gives it. *)
Definition entry (d : string) (sd : SkeemaDir) : Prop :=
  ∃ w l, Subdirs E w {| Path := d |} = inl l ∧ sd ∈ l.

(** The schema name [name] is declared by a subdirectory of [d] that
    exists. *)
Definition declared (w : World) (d : string) (name : string) : Prop :=
  ∃ sd skf, entry d sd ∧ SkeemaFile w sd = Some skf ∧ skf !! "schema" = Some name.

(** Every live schema of the instance directory [d] is declared by a
    subdirectory or has its directory. *)
Definition represented (w : World) (d : string) : Prop :=
  IsInstanceWithLeafSubdirs E nowhere {| Path := d |} = true →
  ∀ t ts schema,
    Targets E nowhere {| Dir := {| Path := d |} |} = t :: ts →
    schema ∈ Target_Schemas E nowhere t →
    declared w d (Schema_Name schema)
    ∨ is_Some (dirs w !! schema_dir {| Path := d |} schema).

(** An inner directory the run is done with. *)
Definition closed (w : World) (seen : gmap string bool) (Q : gset string) (d : string) : Prop :=
  leaf d = false ∧ represented w d
  ∧ ∀ sd, entry d sd → is_Some (dirs w !! Path sd) → tracked seen Q (Path sd).

(** One table of the directory agrees with the live schema. *)
Definition table_ok (w : World) (p : string) (to : Schema) (table : Table) : Prop :=
  (table ∈ Schema_Tables to →
   ∃ text, files w !! (p, table_file table) = Some text ∧ ¬ differs to table text)
  ∧ (table ∉ Schema_Tables to → files w !! (p, table_file table) = None).

(** What a leaf is left as by a call: in agreement with its live schema,
    or gone with all below it when the schema is gone. *)
Definition settled (w : World) (p : string) : Prop :=
  match live_schema p with
  | Some to => synced w p to
  | None => ∀ q, under p q = true → dirs w !! q = None ∧ ∀ f, files w !! (q, f) = None
  end.

(** The seen-set holds inner directories only. *)
Definition inner_only (seen : gmap string bool) : Prop :=
  ∀ p, map_get seen p = true → leaf p = false.

(** What a call of the first run that returned 0 has achieved, from the
    seen-set [seen], the world [w] and the leaves [Q]. *)
Definition first_run_post (p : string) (seen : gmap string bool) (w : World)
    (Q : gset string) (r : result) : Prop :=
  ∃ Q' : gset string,
    Q ⊆ Q' ∧ inv (res_world r) Q' ∧ step w (res_world r) Q'
    ∧ seen_le seen (res_seen r) ∧ inner_only (res_seen r)
    ∧ (leaf p = true → p ∈ Q' ∧ settled (res_world r) p)
    ∧ (leaf p = false → map_get (res_seen r) p = true)
    ∧ ∀ d, map_get (res_seen r) d = true →
           map_get seen d = true ∨ closed (res_world r) (res_seen r) Q' d.

(** The same for the loop over the subdirectories. *)
Definition first_loop_post (subdirs : list SkeemaDir) (seen : gmap string bool) (w : World)
    (Q : gset string) (r : result) : Prop :=
  ∃ Q' : gset string,
    Q ⊆ Q' ∧ inv (res_world r) Q' ∧ step w (res_world r) Q'
    ∧ seen_le seen (res_seen r) ∧ inner_only (res_seen r)
    ∧ (∀ sd, sd ∈ subdirs → tracked (res_seen r) Q' (Path sd))
    ∧ ∀ d, map_get (res_seen r) d = true →
           map_get seen d = true ∨ closed (res_world r) (res_seen r) Q' d.

(** The same files and directories. *)
Definition same_store (w w' : World) : Prop := files w = files w' ∧ dirs w = dirs w'.

(** A directory the second run may get to: a quiet leaf, or an inner
    directory the first run was done with. *)
Definition good (w1 : World) (seen1 : gmap string bool) (p : string) : Prop :=
  (leaf p = true ∧ quiet w1 p) ∨ (leaf p = false ∧ map_get seen1 p = true).

End Notions.

(** ** The directories a run lists *)

(** The directories a trace lists, in order: the calls of [Subdirs]. *)
Definition listings (tr : list Event) : list string :=
  omap (λ e, match e with CallSubdirs d => Some (Path d) | _ => None end) tr.

(** The seen-set holds the directories the trace lists, and no other. *)
Definition marks (seen : gmap string bool) (tr : list Event) : Prop :=
  ∀ p, map_get seen p = true ↔ p ∈ listings tr.

(** What a call leaves of the listings and of the seen-set. *)
Definition listed_once (r : result) : Prop :=
  NoDup (listings (res_trace r))
  ∧ (∀ p, map_get (res_seen r) p = true → p ∈ listings (res_trace r))
  ∧ (is_zero (res_outcome r) = true →
     ∀ p, p ∈ listings (res_trace r) → map_get (res_seen r) p = true).

(** * Sample trees *)

(** An instance directory [/r] with the leaf [/r/shop]; the entry
    [/r/mirror] is a symbolic link to [/r/shop], and [/r/loop] is one back
    to [/r] itself.  The live schema [shop] has the tables [orders] and
    [users]; on disk there are [users.sql] and [legacy.sql]. *)
Module Sample.

Definition root : SkeemaDir := {| Path := "/r" |}.
Definition shop : SkeemaDir := {| Path := "/r/shop" |}.
Definition db : Instance := {| DSN := "db:3306" |}.
Definition orders : Table := {| Table_Name := "orders" |}.
Definition users : Table := {| Table_Name := "users" |}.
Definition legacy : Table := {| Table_Name := "legacy" |}.
Definition live : Schema := {| Schema_Name := "shop"; Schema_Tables := [orders; users] |}.
Definition staged : Schema := {| Schema_Name := "_skeema_tmp"; Schema_Tables := [users; legacy] |}.
Definition target : Target := {| Target_Instance := db; SchemaNames := ["shop"] |}.

Definition disk : World :=
  {| files := {[ ("/r/shop", "users.sql") := "CREATE TABLE users (id int)";
                 ("/r/shop", "legacy.sql") := "CREATE TABLE legacy (id int)" ]};
     dirs := {[ "/r" := None; "/r/shop" := Some {[ "schema" := "shop" ]} ]};
     temp_schema := None |}.

(** The sample collaborators: [entries] is what listing [/r] gives,
    [diffs] what the diff engine answers, [schemas] what lives on the
    instance; [ddl] renders a table and the last three are the faults. *)
Definition env (entries : list SkeemaDir) (diffs : list TableDiff)
    (schemas : list Schema) (ddl : Table → string + error)
    (write_err : SQLFile → option error) (drop_err : option error)
    (mkdir_err : SkeemaDir → option error) : Env :=
  {| IsLeaf := λ _ d, bool_decide (Path d ≠ "/r");
     IsInstanceWithLeafSubdirs := λ _ d, bool_decide (Path d = "/r");
     Targets := λ _ _, [target];
     Target_Schema := λ _ _ name, list_find (λ s, Schema_Name s = name) schemas ≫= λ p, Some p.2;
     Target_Schemas := λ _ _, schemas;
     TemporarySchema := λ _ _, Some staged;
     NewSchemaDiff := λ _ _, diffs;
     ShowCreateTable := λ _ _ _ table, ddl table;
     Subdirs := λ _ d, if bool_decide (Path d = "/r") then inl entries
                       else inr (Error "not a directory");
     dir_delete_error := λ _ _, None;
     populate_error := λ _ _, None;
     drop_error := λ _ _, drop_err;
     write_error := λ _ sf, write_err sf;
     delete_error := λ _ _, None;
     mkdir_error := λ _ d, mkdir_err d |}.

Definition ddl (table : Table) : string + error :=
  inl ("CREATE TABLE " +:+ Table_Name table +:+ " (id int)").

Definition calm (entries : list SkeemaDir) (diffs : list TableDiff) : Env :=
  env entries diffs [live] ddl (λ _, None) None (λ _, None).

End Sample.

(** Variations of the sample tree, one for each behaviour. *)
Module Cases.
Import Sample.

(** The file system refuses every write. *)
Definition readonly : Env :=
  env [shop] [CreateTable orders; DropTable legacy] [live] ddl
      (λ _, Some (Error "permission denied")) None (λ _, None).

(** The leaf is listed twice: as itself and through the link [/r/mirror]. *)
Definition mirrored : Env := calm [shop; shop] [].

(** The schema [shop] is gone from the instance. *)
Definition gone : Env := env [shop] [] [] ddl (λ _, None) None (λ _, None).

(** The live table [orders] has no file yet. *)
Definition fresh : Env := calm [shop] [CreateTable orders; DropTable legacy].

(** The call for the leaf [/r/shop], made from the call for [/r]. *)
Definition shop_call : call := Call {| Dir := shop |} {[ "/r" := true ]} disk [CallSubdirs root].

(** The diff engine reports a rename after a new table. *)
Definition renamed : Env := calm [shop] [CreateTable orders; RenameTable users; DropTable legacy].

(** The instance loses the connection when asked for [orders]. *)
Definition ddl_lost (table : Table) : string + error :=
  if bool_decide (Table_Name table = "orders") then inr (Error "connection lost")
  else ddl table.
Definition lost : Env :=
  env [shop] [DropTable legacy; CreateTable orders] [live] ddl_lost (λ _, None) None (λ _, None).

(** Two schemas live that have no directory; the directory of the
    second, [billing], cannot be made. *)
Definition stock : Table := {| Table_Name := "stock" |}.
Definition inventory : Schema := {| Schema_Name := "inventory"; Schema_Tables := [stock] |}.
Definition billing : Schema := {| Schema_Name := "billing"; Schema_Tables := [] |}.
Definition crowded : Env :=
  env [shop] [] [live; inventory; billing] ddl (λ _, None) None
      (λ d, if bool_decide (Path d = "/r/billing") then Some (Error "disk full") else None).

(** The diff engine reports the table [users] dropped, and then renamed. *)
Definition redone : Env := calm [shop] [DropTable users; RenameTable users].

(** The configuration resolves to two targets, the first with two names. *)
Definition two_names : Target := {| Target_Instance := db; SchemaNames := ["shop"; "archive"] |}.
Definition replica : Target := {| Target_Instance := {| DSN := "replica:3306" |};
                                  SchemaNames := ["shop"] |}.
Definition plural : Env := with_Targets (λ _ _, [two_names; replica]) fresh.

End Cases.

(** The instance directory [/r] and the leaves below it, each named after
    its schema.  The instance has the schemas [shop] and [inventory]; the
    diff engine compares the names of the staged files with the names of
    the live tables. *)
Module Twice.

Definition db : Instance := {| DSN := "db:3306" |}.
Definition orders : Table := {| Table_Name := "orders" |}.
Definition users : Table := {| Table_Name := "users" |}.
Definition stock : Table := {| Table_Name := "stock" |}.
Definition shop : Schema := {| Schema_Name := "shop"; Schema_Tables := [orders; users] |}.
Definition inventory : Schema := {| Schema_Name := "inventory"; Schema_Tables := [stock] |}.
Definition live : list Schema := [shop; inventory].

(** The paths below [/r], and the name of such a path after [/r/]. *)
Definition below_root (p : string) : bool := String.prefix "/r/" p.
Definition name_of (p : string) : string :=
  match p with
  | String _ (String _ (String _ name)) => name
  | _ => ""
  end.

(** The table a file holds: the file name without its ending [.sql]. *)
Fixpoint strip_sql (f : string) : option string :=
  if decide (f = ".sql") then Some ""
  else match f with
       | EmptyString => None
       | String c f' => String c <$> strip_sql f'
       end.

(** The tables staged from the directory [p]. *)
Definition staged_tables (w : World) (p : string) : list Table :=
  omap (λ kv : string * string * string,
          if decide (kv.1.1 = p) then Build_Table <$> strip_sql kv.1.2 else None)
       (map_to_list (files w)).

(** The difference of two lists of tables: to create, to drop. *)
Definition diff_tables (from to : list Table) : list TableDiff :=
  (CreateTable <$> filter (λ table, table ∉ from) to)
  ++ (DropTable <$> filter (λ table, table ∉ to) from).

Definition find_schema (name : string) : option Schema :=
  snd <$> list_find (λ s, Schema_Name s = name) live.

Definition env : Env :=
  {| IsLeaf := λ _ d, below_root (Path d);
     IsInstanceWithLeafSubdirs := λ _ d, bool_decide (Path d = "/r");
     Targets := λ _ cfg,
       [{| Target_Instance := db;
           SchemaNames := if below_root (Path (Dir cfg)) then [name_of (Path (Dir cfg))]
                          else [] |}];
     Target_Schema := λ _ _ name, find_schema name;
     Target_Schemas := λ _ _, live;
     TemporarySchema := λ w _,
       (λ p, {| Schema_Name := "_skeema_tmp"; Schema_Tables := staged_tables w p |})
         <$> temp_schema w;
     NewSchemaDiff := λ from to,
       diff_tables (default [] (Schema_Tables <$> from)) (Schema_Tables to);
     ShowCreateTable := λ _ _ _ table,
       inl ("CREATE TABLE " +:+ Table_Name table +:+ " (id int)");
     Subdirs := λ w d,
       if bool_decide (Path d = "/r")
       then inl (Build_SkeemaDir <$> filter (λ p, below_root p = true) (elements (dom (dirs w))))
       else inr (Error "not a directory");
     dir_delete_error := λ _ _, None;
     populate_error := λ _ _, None;
     drop_error := λ _ _, None;
     write_error := λ w sf,
       match dirs w !! Path (SQLFile_Dir sf) with
       | Some _ => None
       | None => Some (Error "no such directory")
       end;
     delete_error := λ _ _, None;
     mkdir_error := λ w d,
       match dirs w !! Path d with
       | Some _ => Some (Error "file exists")
       | None => None
       end |}.

(** No definition on disk differs from a live table of the same name. *)
Definition differs (to : Schema) (table : Table) (text : string) : Prop := False.

(** The tree before the first run: [shop] lacks [orders.sql] and has a
    file too many, the schema of [/r/old] is gone, [inventory] has no
    directory. *)
Definition before : World :=
  {| files := {[ ("/r/shop", "users.sql") := "CREATE TABLE users (id int)";
                 ("/r/shop", "legacy.sql") := "CREATE TABLE legacy (id int)";
                 ("/r/old", "notes.sql") := "CREATE TABLE notes (id int)" ]};
     dirs := {[ "/r" := None;
                "/r/shop" := Some {[ "schema" := "shop" ]};
                "/r/old" := Some {[ "schema" := "old" ]} ]};
     temp_schema := None |}.

(** The first run, and the run after it. *)
Definition root : Config := {| Dir := {| Path := "/r" |} |}.
Definition after : result :=
  default (Result (Ret 1) ∅ before []) (PullCommand env 3 root before).
Definition again : result :=
  default (Result (Ret 1) ∅ before []) (PullCommand env 3 root (res_world after)).

(** A name without a slash. *)
Fixpoint no_slash (s : string) : bool :=
  match s with
  | EmptyString => true
  | String c s => negb (Ascii.eqb c (Ascii.ascii_of_nat 47)) && no_slash s
  end.

End Twice.

(** A tree with inner directories below the root.  [inner] gives the
    inner directories, each with what listing it answers; every other
    directory is a leaf of the schema [shop].  [/r/sub] lists the root and
    itself again, through links, and the leaf [/r/shop]. *)
Module Edge.
Import Sample.

Definition sub : SkeemaDir := {| Path := "/r/sub" |}.
Definition ghost : Table := {| Table_Name := "ghost" |}.
Definition inventory : Schema :=
  {| Schema_Name := "inventory"; Schema_Tables := [{| Table_Name := "stock" |}] |}.

Definition tree (inner : list (string * (list SkeemaDir + error))) (instances : list string)
    (targets : list Target) (schemas : list Schema) (diffs : list TableDiff)
    (populate_err drop_err : option error) : Env :=
  {| IsLeaf := λ _ d, bool_decide (Path d ∉ inner.*1);
     IsInstanceWithLeafSubdirs := λ _ d, bool_decide (Path d ∈ instances);
     Targets := λ _ _, targets;
     Target_Schema := λ _ _ name, list_find (λ s, Schema_Name s = name) schemas ≫= λ p, Some p.2;
     Target_Schemas := λ _ _, schemas;
     TemporarySchema := λ _ _, Some staged;
     NewSchemaDiff := λ _ _, diffs;
     ShowCreateTable := λ _ _ _ table, ddl table;
     Subdirs := λ _ d, default (inr (Error "not a directory"))
                         ((λ p, p.2.2) <$> list_find (λ kv, kv.1 = Path d) inner);
     dir_delete_error := λ _ _, None;
     populate_error := λ _ _, populate_err;
     drop_error := λ _ _, drop_err;
     write_error := λ _ _, None;
     delete_error := λ _ _, None;
     mkdir_error := λ _ _, None |}.

(** The root lists [/r/sub] and the leaf; [/r/sub] links back. *)
Definition linked : Env :=
  tree [("/r", inl [sub; shop; root]); ("/r/sub", inl [root; sub; shop])] []
       [target] [live] [] None None.
Definition linked_paths : gset string := {[ "/r"; "/r/sub"; "/r/shop" ]}.

(** [/r/sub] cannot be listed. *)
Definition locked : Env :=
  tree [("/r", inl [sub]); ("/r/sub", inr (Error "permission denied"))] []
       [target] [live] [] None None.
Definition sub_call : call := Call {| Dir := sub |} {[ "/r" := true ]} disk [CallSubdirs root].

(** The leaf [/r/shop] below the root, with the diff entries [diffs]. *)
Definition plain (targets : list Target) (diffs : list TableDiff)
    (populate_err drop_err : option error) : Env :=
  tree [("/r", inl [shop])] [] targets [live] diffs populate_err drop_err.

(** The instance refuses the temporary schema. *)
Definition refused : Env := plain [target] [CreateTable orders] (Some (Error "access denied")) None.

(** No target; a target without a schema name. *)
Definition untargeted : Env := plain [] [] None None.
Definition unnamed : Env :=
  plain [{| Target_Instance := db; SchemaNames := [] |}] [] None None.

(** The root is an instance directory whose configuration has no target. *)
Definition headless : Env := tree [("/r", inl [shop])] ["/r"] [] [live] [] None None.

(** The diff engine answers with an entry of a type of its own. *)
Definition novel : Env :=
  plain [target] [CreateTable orders; OtherDiff "tengo.ModifyView"; DropTable legacy] None None.

(** The diff engine asks to drop a table that has no file. *)
Definition stale : Env := plain [target] [CreateTable orders; DropTable ghost; DropTable legacy] None None.

(** The definition of [users] has changed on the instance. *)
Definition altered : Env := plain [target] [DropTable legacy; AlterTable users] None None.

(** The same two entries, the other way round. *)
Definition rewritten : Env := plain [target] [AlterTable users; DropTable legacy] None None.

(** The temporary schema cannot be dropped. *)
Definition stuck : Env :=
  plain [target] [CreateTable orders; DropTable legacy] None (Some (Error "lock wait timeout")).

(** The instance has a schema, [inventory], that has no directory. *)
Definition grown : Env := tree [("/r", inl [shop])] ["/r"] [target] [live; inventory] [] None None.

(** The file of [users] holds a definition of an earlier day. *)
Definition dated : World :=
  set_files (<[("/r/shop", "users.sql") := "CREATE TABLE users (id tinyint)"]> (files disk)) disk.

(** The call for the leaf [/r/shop], made from the call for [/r]. *)
Definition leaf_call : call := Call {| Dir := shop |} {[ "/r" := true ]} disk [CallSubdirs root].

End Edge.

(** The tree that obeys the laws, on a disk that refuses the file
    [stock.sql]; and the tree with a file where no directory is. *)
Module Halted.

Definition env : Env :=
  {| IsLeaf := IsLeaf Twice.env;
     IsInstanceWithLeafSubdirs := IsInstanceWithLeafSubdirs Twice.env;
     Targets := Targets Twice.env;
     Target_Schema := Target_Schema Twice.env;
     Target_Schemas := Target_Schemas Twice.env;
     TemporarySchema := TemporarySchema Twice.env;
     NewSchemaDiff := NewSchemaDiff Twice.env;
     ShowCreateTable := ShowCreateTable Twice.env;
     Subdirs := Subdirs Twice.env;
     dir_delete_error := dir_delete_error Twice.env;
     populate_error := populate_error Twice.env;
     drop_error := drop_error Twice.env;
     write_error := λ w sf,
       if bool_decide (FileName sf = "stock.sql") then Some (Error "disk full")
       else write_error Twice.env w sf;
     delete_error := delete_error Twice.env;
     mkdir_error := mkdir_error Twice.env |}.

Definition stray : World :=
  set_files (<[("/r/inventory", "junk.sql") := "CREATE TABLE junk (id int)"]>
               (files Twice.before)) Twice.before.

End Halted.

(** * The properties *)

(** ** Strings *)

Lemma string_length_app (a b : string) :
  String.length (a +:+ b) = (String.length a + String.length b)%nat.
Proof. induction a as [|c a IH]; [done|]. cbv [String.append]. fold String.append. simpl. by rewrite IH. Qed.

(** Two names with the same ending are the same name. *)
Lemma string_app_inj_r (s a b : string) : a +:+ s = b +:+ s → a = b.
Proof.
  revert b. induction a as [|c a IH]; intros [|d b] H.
  - done.
  - apply (f_equal String.length) in H. rewrite !string_length_app in H. simpl in H. lia.
  - apply (f_equal String.length) in H. rewrite !string_length_app in H. simpl in H. lia.
  - cbv [String.append] in H. fold String.append in H. injection H as -> H. f_equal. by apply IH.
Qed.

(** ** Applying the diff entries *)

Section DiffEntries.
Context (E : Env).

Lemma SQLFile_Write_spec sf w w' r :
  SQLFile_Write E sf w = (w', r) →
  dirs w' = dirs w ∧ temp_schema w' = temp_schema w ∧
  match r with
  | inl n => files w' = <[SQLFile_key sf := Contents sf]> (files w)
             ∧ n = Z.of_nat (String.length (Contents sf))
             ∧ write_error E w sf = None
  | inr err => w' = w ∧ write_error E w sf = Some err
  end.
Proof.
  unfold SQLFile_Write. destruct (write_error E w sf); intros [= <- <-]; auto.
Qed.

Lemma SQLFile_Delete_spec sf w w' r :
  SQLFile_Delete E sf w = (w', r) →
  dirs w' = dirs w ∧ temp_schema w' = temp_schema w ∧
  match r with
  | None => files w' = delete (SQLFile_key sf) (files w)
  | Some _ => w' = w
  end.
Proof.
  unfold SQLFile_Delete. destruct (files w !! SQLFile_key sf); [|intros [= <- <-]; auto].
  destruct (delete_error E w sf); intros [= <- <-]; auto.
Qed.

(** One entry leaves the directories and the temporary schema alone, adds
    to the trace, and changes no file but the one of its table. *)
Lemma applyTableDiff_frame cfg t to td w tr w' tr' o :
  applyTableDiff E cfg t to td w tr = (w', tr', o) →
  dirs w' = dirs w ∧ temp_schema w' = temp_schema w ∧
  ∃ evs, tr' = tr ++ evs ∧
    (∀ k, (∀ table, diff_table td = Some table → k ≠ table_key cfg table) →
          files w' !! k = files w !! k) ∧
    (∀ e, e ∈ evs → e ≠ CallDropTemporarySchema (Dir cfg)) ∧
    (∀ e k, e ∈ evs → touches k e →
            ∃ table, diff_table td = Some table ∧ k = table_key cfg table).
Proof.
  unfold applyTableDiff, emit. intros H.
  destruct td as [table|table|table|table|ty]; simpl in *.
  - destruct (ShowCreateTable E w _ to table) as [stmt|err].
    + destruct (SQLFile_Write E _ w) as [w1 [n|err]] eqn:Hw;
        apply SQLFile_Write_spec in Hw as (Hd & Ht & Hf); simplify_eq; simpl in *.
      * destruct Hf as (Hf & _). split_and!; try done.
        eexists [_; _; _]. rewrite <- !app_assoc. split_and!; try done.
        -- intros k Hk. rewrite Hf. apply lookup_insert_ne.
           intros <-. by eapply Hk.
        -- intros e He. repeat (apply elem_of_cons in He as [->|He]; [done|]).
           by apply elem_of_nil in He.
        -- intros e k He Hto. exists table. split; [done|].
           repeat (apply elem_of_cons in He as [->|He]; [by simpl in Hto|]).
           by apply elem_of_nil in He.
      * destruct Hf as (-> & _). split_and!; try done.
        eexists [_; _; _]. rewrite <- !app_assoc. split_and!; try done.
        -- intros e He. repeat (apply elem_of_cons in He as [->|He]; [done|]).
           by apply elem_of_nil in He.
        -- intros e k He Hto. exists table. split; [done|].
           repeat (apply elem_of_cons in He as [->|He]; [by simpl in Hto|]).
           by apply elem_of_nil in He.
    + simplify_eq. split_and!; try done. eexists [_]. split_and!; try done.
      * intros e He. apply elem_of_cons in He as [->|He]; [done|].
        by apply elem_of_nil in He.
      * intros e k He Hto. apply elem_of_cons in He as [->|He]; [done|].
        by apply elem_of_nil in He.
  - destruct (SQLFile_Delete E _ w) as [w1 [err|]] eqn:Hw;
      apply SQLFile_Delete_spec in Hw as (Hd & Ht & Hf); simplify_eq; simpl in *.
    + split_and!; try done.
      eexists [_; _]. rewrite <- !app_assoc. split_and!; try done.
      * intros e He. repeat (apply elem_of_cons in He as [->|He]; [done|]).
        by apply elem_of_nil in He.
      * intros e k He Hto. exists table. split; [done|].
        repeat (apply elem_of_cons in He as [->|He]; [by simpl in Hto|]).
        by apply elem_of_nil in He.
    + split_and!; try done.
      eexists [_; _]. rewrite <- !app_assoc. split_and!; try done.
      * intros k Hk. rewrite Hf. apply lookup_delete_ne.
        intros <-. by eapply Hk.
      * intros e He. repeat (apply elem_of_cons in He as [->|He]; [done|]).
        by apply elem_of_nil in He.
      * intros e k He Hto. exists table. split; [done|].
        repeat (apply elem_of_cons in He as [->|He]; [by simpl in Hto|]).
        by apply elem_of_nil in He.
  - destruct (ShowCreateTable E w _ to table) as [stmt|err].
    + destruct (SQLFile_Write E _ w) as [w1 [n|err]] eqn:Hw;
        apply SQLFile_Write_spec in Hw as (Hd & Ht & Hf); simplify_eq; simpl in *.
      * destruct Hf as (Hf & _). split_and!; try done.
        eexists [_; _; _]. rewrite <- !app_assoc. split_and!; try done.
        -- intros k Hk. rewrite Hf. apply lookup_insert_ne.
           intros <-. by eapply Hk.
        -- intros e He. repeat (apply elem_of_cons in He as [->|He]; [done|]).
           by apply elem_of_nil in He.
        -- intros e k He Hto. exists table. split; [done|].
           repeat (apply elem_of_cons in He as [->|He]; [by simpl in Hto|]).
           by apply elem_of_nil in He.
      * destruct Hf as (-> & _). split_and!; try done.
        eexists [_; _; _]. rewrite <- !app_assoc. split_and!; try done.
        -- intros e He. repeat (apply elem_of_cons in He as [->|He]; [done|]).
           by apply elem_of_nil in He.
        -- intros e k He Hto. exists table. split; [done|].
           repeat (apply elem_of_cons in He as [->|He]; [by simpl in Hto|]).
           by apply elem_of_nil in He.
    + simplify_eq. split_and!; try done. eexists [_]. split_and!; try done.
      * intros e He. apply elem_of_cons in He as [->|He]; [done|].
        by apply elem_of_nil in He.
      * intros e k He Hto. apply elem_of_cons in He as [->|He]; [done|].
        by apply elem_of_nil in He.
  - simplify_eq. split_and!; try done. exists []. rewrite app_nil_r.
    split_and!; try done; intros ? ? ; try intros ?; by apply elem_of_nil in H.
  - simplify_eq. split_and!; try done. exists []. rewrite app_nil_r.
    split_and!; try done; intros ? ? ; try intros ?; by apply elem_of_nil in H.
Qed.

(** The loop over a list in two parts. *)
Lemma applyTableDiffs_app cfg t to pre post w tr :
  applyTableDiffs E cfg t to (pre ++ post) w tr =
  match applyTableDiffs E cfg t to pre w tr with
  | (w1, tr1, None) => applyTableDiffs E cfg t to post w1 tr1
  | stopped => stopped
  end.
Proof.
  revert w tr. induction pre as [|td pre IH]; intros w tr; simpl; [done|].
  destruct (applyTableDiff E cfg t to td w tr) as [[w1 tr1] [o|]]; [done|apply IH].
Qed.

(** The whole loop: the same frame, for the tables of all the entries. *)
Lemma applyTableDiffs_frame cfg t to diffs w tr w' tr' o :
  applyTableDiffs E cfg t to diffs w tr = (w', tr', o) →
  dirs w' = dirs w ∧ temp_schema w' = temp_schema w ∧
  ∃ evs, tr' = tr ++ evs ∧
    (∀ k, (∀ td table, td ∈ diffs → diff_table td = Some table → k ≠ table_key cfg table) →
          files w' !! k = files w !! k) ∧
    (∀ e, e ∈ evs → e ≠ CallDropTemporarySchema (Dir cfg)) ∧
    (∀ e k, e ∈ evs → touches k e →
            ∃ td table, td ∈ diffs ∧ diff_table td = Some table ∧ k = table_key cfg table).
Proof.
  revert w tr. induction diffs as [|td diffs IH]; intros w tr; simpl.
  - intros [= <- <- <-]. split_and!; try done. exists []. rewrite app_nil_r.
    split_and!; try done; intros ? ?; try intros ?; by apply elem_of_nil in H.
  - destruct (applyTableDiff E cfg t to td w tr) as [[w1 tr1] o1] eqn:H1.
    apply applyTableDiff_frame in H1 as (Hd1 & Ht1 & evs1 & -> & Hf1 & Hn1 & Hc1).
    assert (Hhead : ∀ k,
      (∀ td0 table, td0 ∈ td :: diffs → diff_table td0 = Some table → k ≠ table_key cfg table) →
      files w1 !! k = files w !! k).
    { intros k Hk. apply Hf1. intros table. apply Hk. by left. }
    assert (Hcall : ∀ e k, e ∈ evs1 → touches k e →
      ∃ td0 table, td0 ∈ td :: diffs ∧ diff_table td0 = Some table ∧ k = table_key cfg table).
    { intros e k He Hto. destruct (Hc1 e k He Hto) as (table & ? & ?).
      exists td, table. split_and!; [by left|done|done]. }
    destruct o1 as [o1|].
    + intros [= <- <- <-]. split_and!; try done. by exists evs1.
    + intros H2. apply IH in H2 as (Hd2 & Ht2 & evs2 & -> & Hf2 & Hn2 & Hc2).
      split_and!; try congruence.
      exists (evs1 ++ evs2). rewrite app_assoc. split_and!; try done.
      * intros k Hk. rewrite Hf2, Hhead; [done|done|].
        intros td0 table Hin. apply Hk. by right.
      * intros e [He|He]%elem_of_app; auto.
      * intros e k [He|He]%elem_of_app Hto; [eauto|].
        destruct (Hc2 e k He Hto) as (td0 & table & ? & ? & ?).
        exists td0, table. split_and!; [by right|done|done].
Qed.

End DiffEntries.

(** ** The leaf branch, phase by phase *)

Section Leaf.
Context (E : Env).

(** A leaf that reaches the phase is the loop, and then the clean-up. *)
Lemma pull_leaf_diff_phase cfg w tr t to diffs :
  diff_phase E cfg w = Some (t, to, diffs) →
  pull_leaf E cfg w tr =
  match applyTableDiffs E cfg t to diffs (set_temp_schema (Some (Path (Dir cfg))) w) (diff_phase_trace cfg to tr) with
  | (w, tr, Some o) => (o, w, tr)
  | (w, tr, None) =>
      let tr := emit (CallDropTemporarySchema (Dir cfg)) tr in
      match DropTemporarySchema E cfg w with
      | (w, Some err) => (Ret 1, w, emit (PrintUnableCleanup err) tr)
      | (w, None) => (Ret 0, w, tr)
      end
  end.
Proof.
  unfold diff_phase, pull_leaf, diff_phase_trace, PopulateTemporarySchema, emit.
  destruct (Targets E w cfg) as [|t0 ts]; [done|].
  destruct (SchemaNames t0) as [|name names]; [done|].
  destruct (Target_Schema E w t0 name) as [to0|]; [|done].
  destruct (populate_error E w cfg); [done|].
  intros [= <- <- <-]. by rewrite <- !app_assoc.
Qed.

End Leaf.

(** ** Failures on the way up *)

Section Calls.
Context (E : Env).

Lemma is_zero_true o : is_zero o = true ↔ o = Ret 0.
Proof.
  destruct o as [code|p]; simpl; [|done].
  rewrite bool_decide_eq_true. split; [by intros ->|by intros [= ->]].
Qed.

(** The loop returns what the first failing call returned, as it is. *)
Lemma recurse_stops rec cfg subdirs seen w tr c r :
  invoked rec cfg subdirs seen w tr c →
  rec (call_cfg c) (call_seen c) (call_world c) (call_trace c) = Some r →
  is_zero (res_outcome r) = false →
  recurse rec cfg subdirs seen w tr = Some r.
Proof.
  intros Hinv Hrun Hfail.
  induction Hinv as [subdir rest seen w tr Hseen
                    |subdir rest seen w tr seen' w' tr' c Hseen Hok _ IH
                    |subdir rest seen w tr c Hseen _ IH]; simpl in *.
  - rewrite Hseen, Hrun. simpl. destruct r as [o s w' tr']; simpl in *. by rewrite Hfail.
  - rewrite Hseen, Hok. simpl. auto.
  - rewrite Hseen. simpl. auto.
Qed.

Lemma subcall_stops fuel parent child r :
  subcall E fuel parent child →
  run_call E fuel child = Some r →
  is_zero (res_outcome r) = false →
  run_call E (S fuel) parent = Some r.
Proof.
  intros [cfg seen w tr subdirs w1 tr1 c Hleaf Hsub Hdisc Hinv] Hrun Hfail.
  unfold run_call; simpl. rewrite Hleaf. unfold pull_node. rewrite Hsub, Hdisc.
  by eapply recurse_stops.
Qed.

(** A failure passes unchanged through every enclosing call. *)
Lemma encloses_stops n outer m inner r :
  encloses E n outer m inner →
  run_call E m inner = Some r →
  is_zero (res_outcome r) = false →
  run_call E n outer = Some r.
Proof.
  induction 1 as [|n outer child m inner Hsub _ IH]; [done|].
  intros Hrun Hfail. eapply subcall_stops; eauto.
Qed.

End Calls.

(** ** What a leaf does *)

Section LeafWrites.
Context (E : Env).

(** C4. A leaf whose declared schema is gone from the live instance: [pull]
    deletes the directory with all below it and returns 0; the trace shows
    the deletion and nothing else, so the temporary schema is not populated
    and no diff is computed.  When the deletion fails, [pull] returns 1. *)
Theorem gone_schema_deletes_directory fuel cfg seen w tr t ts name names :
  IsLeaf E w (Dir cfg) = true →
  Targets E w cfg = t :: ts →
  SchemaNames t = name :: names →
  Target_Schema E w t name = None →
  match dir_delete_error E w (Dir cfg) with
  | None =>
      ∃ w', pull E (S fuel) cfg seen w tr =
              Some (Result (Ret 0) seen w'
                      (tr ++ [PrintUpdating (Path (Dir cfg)); CallDirDelete (Dir cfg);
                              PrintDeletedDir (Dir cfg)]))
        ∧ (∀ p, under (Path (Dir cfg)) p = true → dirs w' !! p = None)
        ∧ (∀ p f, under (Path (Dir cfg)) p = true → files w' !! (p, f) = None)
        ∧ (∀ p, under (Path (Dir cfg)) p = false → dirs w' !! p = dirs w !! p)
        ∧ (∀ p f, under (Path (Dir cfg)) p = false → files w' !! (p, f) = files w !! (p, f))
        ∧ temp_schema w' = temp_schema w
  | Some err =>
      pull E (S fuel) cfg seen w tr =
        Some (Result (Ret 1) seen w
                (tr ++ [PrintUpdating (Path (Dir cfg)); CallDirDelete (Dir cfg);
                        PrintUnableDeleteDir (Dir cfg) err]))
  end.
Proof.
  intros Hleaf Ht Hn Hs. simpl. rewrite Hleaf.
  unfold pull_leaf, Dir_Delete, emit. rewrite Ht, Hn, Hs.
  destruct (dir_delete_error E w (Dir cfg)) as [err|].
  - by rewrite <- !app_assoc.
  - eexists. rewrite <- !app_assoc. split; [done|]. simpl. split_and!; try done.
    + intros p Hp. apply map_lookup_filter_None. right. intros x _. simpl. by rewrite Hp.
    + intros p f Hp. apply map_lookup_filter_None. right. intros x _. simpl. by rewrite Hp.
    + intros p Hp. destruct (dirs w !! p) as [x|] eqn:Hx.
      * by apply map_lookup_filter_Some.
      * apply map_lookup_filter_None. by left.
    + intros p f Hp. destruct (files w !! (p, f)) as [x|] eqn:Hx.
      * by apply map_lookup_filter_Some.
      * apply map_lookup_filter_None. by left.
Qed.

(** A leaf call past an entry that went through: the call returns, its
    trace goes on from the trace of the entry, and a file that no later
    entry is about is at the end what the entry left. *)
Lemma pull_leaf_after_entry fuel cfg seen w tr t to pre td post w1 tr1 w2 tr2 :
  IsLeaf E w (Dir cfg) = true →
  diff_phase E cfg w = Some (t, to, pre ++ td :: post) →
  applyTableDiffs E cfg t to pre (set_temp_schema (Some (Path (Dir cfg))) w)
    (diff_phase_trace cfg to tr) = (w1, tr1, None) →
  applyTableDiff E cfg t to td w1 tr1 = (w2, tr2, None) →
  ∃ r evs,
    pull E (S fuel) cfg seen w tr = Some r
    ∧ res_seen r = seen
    ∧ res_trace r = tr2 ++ evs
    ∧ dirs (res_world r) = dirs w2
    ∧ (∀ k, (∀ td' table', td' ∈ post → diff_table td' = Some table' →
                           k ≠ table_key cfg table') →
            files (res_world r) !! k = files w2 !! k).
Proof.
  intros Hleaf Hphase Hpre Htd. simpl. rewrite Hleaf.
  rewrite (pull_leaf_diff_phase E _ _ _ _ _ _ Hphase).
  rewrite applyTableDiffs_app, Hpre. simpl. rewrite Htd.
  destruct (applyTableDiffs E cfg t to post w2 tr2) as [[w3 tr3] o3] eqn:Hpost.
  apply applyTableDiffs_frame in Hpost as (Hd & _ & evs & -> & Hf & _ & _).
  destruct o3 as [o3|].
  - eexists _, evs. split; [done|]. simpl. split_and!; done.
  - unfold DropTemporarySchema, emit. destruct (drop_error E w3 cfg) as [err|].
    + eexists _, (evs ++ [CallDropTemporarySchema (Dir cfg); PrintUnableCleanup err]).
      split; [done|]. simpl. rewrite <- !app_assoc. split_and!; done.
    + eexists _, (evs ++ [CallDropTemporarySchema (Dir cfg)]).
      split; [done|]. simpl. rewrite <- !app_assoc. split_and!; done.
Qed.

(** C5. A Create entry the loop of a leaf gets to, for a table whose
    definition the instance renders and whose file can be written: [pull]
    asks for the definition, writes the file [<table>.sql] of the
    directory with exactly the rendered text, and prints the length of that
    text; the entry leaves the store with that file in it.  The call
    returns with these three events in its trace, right after those of the
    earlier entries, and the file holds the rendered text at the end of
    the call unless a later entry is about a table of that name. *)
Theorem create_writes_definition fuel cfg seen w tr t to pre table post w1 tr1 createStmt :
  let sf := {| SQLFile_Dir := Dir cfg;
               FileName := Table_Name table +:+ ".sql";
               Contents := createStmt |} in
  let evs := [CallShowCreateTable to table; CallWrite sf;
              PrintWroteNew (SQLFile_Path sf) (Z.of_nat (String.length createStmt))] in
  IsLeaf E w (Dir cfg) = true →
  diff_phase E cfg w = Some (t, to, pre ++ CreateTable table :: post) →
  applyTableDiffs E cfg t to pre (set_temp_schema (Some (Path (Dir cfg))) w)
    (diff_phase_trace cfg to tr) = (w1, tr1, None) →
  ShowCreateTable E w1 (Target_Instance t) to table = inl createStmt →
  write_error E w1 sf = None →
  applyTableDiff E cfg t to (CreateTable table) w1 tr1 =
    (set_files (<[(Path (Dir cfg), Table_Name table +:+ ".sql") := createStmt]> (files w1)) w1,
     tr1 ++ evs, None)
  ∧ (∃ r rest,
       pull E (S fuel) cfg seen w tr = Some r
       ∧ res_trace r = tr1 ++ evs ++ rest
       ∧ ((∀ td table', td ∈ post → diff_table td = Some table' →
                        Table_Name table' ≠ Table_Name table) →
          files (res_world r) !! (Path (Dir cfg), Table_Name table +:+ ".sql")
            = Some createStmt))
  ∧ FileName sf = Table_Name table +:+ ".sql"
  ∧ SQLFile_Path sf = Path (Dir cfg) +:+ "/" +:+ Table_Name table +:+ ".sql".
Proof.
  intros sf evs Hleaf Hphase Hpre Hshow Hwrite.
  assert (Htd : applyTableDiff E cfg t to (CreateTable table) w1 tr1 =
    (set_files (<[(Path (Dir cfg), Table_Name table +:+ ".sql") := createStmt]> (files w1)) w1,
     tr1 ++ evs, None)).
  { simpl. unfold emit, SQLFile_Write. rewrite Hshow. fold sf. rewrite Hwrite.
    by rewrite <- !app_assoc. }
  split_and!; [done| |done|done].
  destruct (pull_leaf_after_entry fuel cfg seen w tr t to pre _ post w1 tr1 _ _
              Hleaf Hphase Hpre Htd) as (r & rest & Hrun & _ & Htr & _ & Hf).
  exists r, rest. split_and!; [done|by rewrite Htr, <- app_assoc|].
  intros Hpost. rewrite Hf; [apply lookup_insert_eq|].
  intros td table' Hin Htab [= Heq]. apply string_app_inj_r in Heq. by eapply Hpost.
Qed.

(** C6. One Create, Drop or Alter entry: every call that changes a file is
    for the file [<table>.sql] of the directory, every other file is
    afterwards what it was, and so is every directory. *)
Theorem entry_touches_its_file_only cfg t to td table w tr w' tr' o :
  td = CreateTable table ∨ td = DropTable table ∨ td = AlterTable table →
  applyTableDiff E cfg t to td w tr = (w', tr', o) →
  (∀ k, k ≠ (Path (Dir cfg), Table_Name table +:+ ".sql") → files w' !! k = files w !! k)
  ∧ dirs w' = dirs w
  ∧ ∃ evs, tr' = tr ++ evs ∧
      ∀ e sf, e ∈ evs → e = CallWrite sf ∨ e = CallDelete sf →
              SQLFile_Dir sf = Dir cfg ∧ FileName sf = Table_Name table +:+ ".sql".
Proof.
  intros Htd H.
  assert (Htab : diff_table td = Some table) by (by destruct Htd as [->|[->| ->]]).
  destruct (applyTableDiff_frame E _ _ _ _ _ _ _ _ _ H) as (Hd & _ & evs & -> & Hf & _ & _).
  split_and!; [|done|].
  - intros k Hk. apply Hf. intros table' Ht'. by simplify_eq.
  - exists evs. split; [done|]. intros e sf He Hsf.
    clear Hf Hd Htab. unfold applyTableDiff, emit in H.
    destruct Htd as [->|[->| ->]];
      repeat match type of H with
             | match ?x with _ => _ end = _ => destruct x
             | (let (_, _) := ?x in _) = _ => destruct x
             end;
      injection H as _ Htr _; rewrite <- ?app_assoc in Htr; apply app_inv_head in Htr;
      subst evs;
      repeat (apply elem_of_cons in He as [->|He];
              [by destruct Hsf as [Hsf|Hsf]; simplify_eq|]);
      by apply elem_of_nil in He.
Qed.

End LeafWrites.

(** ** Where a leaf stops *)

Section LeafStops.
Context (E : Env).

(** An entry that ends the loop ends it with 1 or with a panic. *)
Lemma applyTableDiffs_stop cfg t to diffs w tr w' tr' o :
  applyTableDiffs E cfg t to diffs w tr = (w', tr', Some o) →
  is_zero o = false ∧ exit_status o ≠ 0.
Proof.
  revert w tr. induction diffs as [|td diffs IH]; intros w tr; simpl; [done|].
  destruct (applyTableDiff E cfg t to td w tr) as [[w1 tr1] [o1|]] eqn:H1; [|by apply IH].
  intros [= <- <- <-]. unfold applyTableDiff in H1.
  repeat match type of H1 with
         | match ?x with _ => _ end = _ => destruct x
         | (let (_, _) := ?x in _) = _ => destruct x
         end; by simplify_eq.
Qed.

(** A leaf call whose loop over the diff entries is ended by an entry. *)
Lemma pull_leaf_stopped fuel cfg seen w tr t to diffs w' tr' o :
  IsLeaf E w (Dir cfg) = true →
  diff_phase E cfg w = Some (t, to, diffs) →
  applyTableDiffs E cfg t to diffs (set_temp_schema (Some (Path (Dir cfg))) w) (diff_phase_trace cfg to tr)
    = (w', tr', Some o) →
  run_call E (S fuel) (Call cfg seen w tr) = Some (Result o seen w' tr').
Proof.
  intros Hleaf Hphase Hloop. unfold run_call. simpl. rewrite Hleaf.
  by rewrite (pull_leaf_diff_phase E _ _ _ _ _ _ Hphase), Hloop.
Qed.

(** C3. A leaf whose diff holds a Rename entry, inside any number of
    enclosing calls: the outermost call ends with a non-zero status, in
    the very state the entries before the Rename left, so the Rename
    itself writes and deletes nothing and no entry after it is looked at;
    when the entries before it went through, the run ends in the panic of
    the Rename.  The file of the renamed table is afterwards what it was,
    and no call that changes a file is made for it, whenever no earlier
    entry is about a table of that name. *)
Theorem rename_is_fatal n top fuel cfg seen w tr t to pre table post :
  encloses E n top (S fuel) (Call cfg seen w tr) →
  IsLeaf E w (Dir cfg) = true →
  diff_phase E cfg w = Some (t, to, pre ++ RenameTable table :: post) →
  ∃ o w' tr' o1,
    run_call E n top = Some (Result o seen w' tr')
    ∧ exit_status o ≠ 0
    ∧ applyTableDiffs E cfg t to pre (set_temp_schema (Some (Path (Dir cfg))) w)
        (diff_phase_trace cfg to tr) = (w', tr', o1)
    ∧ o = default (Panic (PanicError (Error "Table renames not yet supported!"))) o1
    ∧ ((∀ td table', td ∈ pre → diff_table td = Some table' →
                     Table_Name table' ≠ Table_Name table) →
       files w' !! table_key cfg table = files w !! table_key cfg table
       ∧ ∃ evs, tr' = tr ++ evs ∧ ∀ e, e ∈ evs → ¬ touches (table_key cfg table) e).
Proof.
  intros Hencl Hleaf Hphase.
  destruct (applyTableDiffs E cfg t to pre (set_temp_schema (Some (Path (Dir cfg))) w)
              (diff_phase_trace cfg to tr)) as [[w1 tr1] o1] eqn:Hloop.
  set (o := default (Panic (PanicError (Error "Table renames not yet supported!"))) o1).
  assert (Hall : applyTableDiffs E cfg t to (pre ++ RenameTable table :: post)
                   (set_temp_schema (Some (Path (Dir cfg))) w) (diff_phase_trace cfg to tr)
                 = (w1, tr1, Some o)).
  { rewrite applyTableDiffs_app, Hloop. by destruct o1. }
  destruct (applyTableDiffs_stop _ _ _ _ _ _ _ _ _ Hall) as [Hnz Hst].
  exists o, w1, tr1, o1. split_and!; [|done|done|done|].
  - eapply encloses_stops; [done| |done]. by eapply pull_leaf_stopped.
  - intros Hpre.
    apply applyTableDiffs_frame in Hloop as (_ & _ & evs & -> & Hf & _ & Hc). split.
    + rewrite Hf; [done|]. intros td table' Hin Htab [= Heq].
      apply string_app_inj_r in Heq. by eapply Hpre.
    + exists ([PrintUpdating (Path (Dir cfg)); CallPopulateTemporarySchema (Dir cfg);
               CallNewSchemaDiff to] ++ evs).
      unfold diff_phase_trace. rewrite <- app_assoc. split; [done|].
      intros e [He|He]%elem_of_app Hto.
      * repeat (apply elem_of_cons in He as [->|He]; [done|]). by apply elem_of_nil in He.
      * destruct (Hc e _ He Hto) as (td & table' & Hin & Htab & [= Heq]).
        apply string_app_inj_r in Heq. by eapply Hpre.
Qed.

(** C8. The instance fails to render the definition of the table of a
    Create or Alter entry the loop gets to: the leaf call panics with that
    very error, and so does every enclosing call, up to the outermost;
    the status of the process is not 0. *)
Theorem definition_error_aborts n top fuel cfg seen w tr t to pre td table post w1 tr1 err :
  encloses E n top (S fuel) (Call cfg seen w tr) →
  IsLeaf E w (Dir cfg) = true →
  diff_phase E cfg w = Some (t, to, pre ++ td :: post) →
  td = CreateTable table ∨ td = AlterTable table →
  applyTableDiffs E cfg t to pre (set_temp_schema (Some (Path (Dir cfg))) w) (diff_phase_trace cfg to tr)
    = (w1, tr1, None) →
  ShowCreateTable E w1 (Target_Instance t) to table = inr err →
  run_call E (S fuel) (Call cfg seen w tr)
    = Some (Result (Panic (PanicError err)) seen w1 (tr1 ++ [CallShowCreateTable to table]))
  ∧ run_call E n top
    = Some (Result (Panic (PanicError err)) seen w1 (tr1 ++ [CallShowCreateTable to table]))
  ∧ exit_status (Panic (PanicError err)) ≠ 0.
Proof.
  intros Hencl Hleaf Hphase Htd Hloop Hshow.
  assert (Hrun : run_call E (S fuel) (Call cfg seen w tr)
    = Some (Result (Panic (PanicError err)) seen w1 (tr1 ++ [CallShowCreateTable to table]))).
  { eapply pull_leaf_stopped; [done..|].
    rewrite applyTableDiffs_app, Hloop. simpl.
    destruct Htd as [-> | ->]; simpl; unfold emit; by rewrite Hshow. }
  split_and!; [done| |done].
  eapply encloses_stops; [done..|]. done.
Qed.

End LeafStops.

(** ** The target a leaf works on *)

Section LeafTarget.
Context (E : Env).

Lemma applyTableDiffs_with_Targets f cfg t t' to diffs w tr :
  Target_Instance t' = Target_Instance t →
  applyTableDiffs (with_Targets f E) cfg t' to diffs w tr = applyTableDiffs E cfg t to diffs w tr.
Proof.
  intros Hi. revert w tr. induction diffs as [|td diffs IH]; intros w tr; simpl; [done|].
  assert (applyTableDiff (with_Targets f E) cfg t' to td w tr = applyTableDiff E cfg t to td w tr)
    as ->.
  { unfold applyTableDiff. rewrite Hi. done. }
  destruct (applyTableDiff E cfg t to td w tr) as [[w1 tr1] [o|]]; [done|apply IH].
Qed.

(** C10. At a leaf [pull] works on the first target and on the first
    schema name of that target.  The further targets and names are ignored
    without a word: the call is the call made with only the first target,
    cut down to its first name (the collaborators answering for the target
    cut down as for the whole one).  With no target at all, or no schema
    name, the call ends in the panic of an index out of range, not in a
    returned code. *)
Theorem leaf_uses_first_target_and_name fuel cfg seen w tr :
  IsLeaf E w (Dir cfg) = true →
  (∀ t ts,
     Targets E w cfg = t :: ts →
     Target_Schema E w (first_name_only t) = Target_Schema E w t →
     TemporarySchema E (set_temp_schema (Some (Path (Dir cfg))) w) (first_name_only t)
       = TemporarySchema E (set_temp_schema (Some (Path (Dir cfg))) w) t →
     pull E (S fuel) cfg seen w tr
       = pull (with_Targets (λ _ _, [first_name_only t]) E) (S fuel) cfg seen w tr)
  ∧ (Targets E w cfg = [] →
     pull E (S fuel) cfg seen w tr
       = Some (Result (Panic IndexOutOfRange) seen w (tr ++ [PrintUpdating (Path (Dir cfg))])))
  ∧ (∀ t ts,
       Targets E w cfg = t :: ts → SchemaNames t = [] →
       pull E (S fuel) cfg seen w tr
         = Some (Result (Panic IndexOutOfRange) seen w (tr ++ [PrintUpdating (Path (Dir cfg))]))).
Proof.
  intros Hleaf. simpl. rewrite Hleaf. split_and!.
  - intros t ts Ht Hschema Htemp. f_equal. unfold pull_leaf. simpl. rewrite Ht.
    destruct (SchemaNames t) as [|name names] eqn:Hn; simpl; [done|].
    rewrite Hschema.
    destruct (Target_Schema E w t name) as [to|]; [|done].
    unfold PopulateTemporarySchema. simpl.
    destruct (populate_error E w cfg); [done|].
    rewrite Htemp.
    by rewrite (applyTableDiffs_with_Targets _ cfg t (first_name_only t)).
  - intros Ht. unfold pull_leaf. by rewrite Ht.
  - intros t ts Ht Hn. unfold pull_leaf. by rewrite Ht, Hn.
Qed.

End LeafTarget.

(** ** Schema discovery *)

Section Discover.
Context (E : Env).

Lemma populate_tables_dirs instance schema dir tables w w' ret :
  populate_tables E instance schema dir tables w = (w', ret) →
  dirs w' = dirs w ∧ temp_schema w' = temp_schema w.
Proof.
  revert w. induction tables as [|table tables IH]; intros w; simpl.
  - by intros [= <- <-].
  - unfold populate_table.
    destruct (ShowCreateTable E w instance schema table) as [stmt|err];
      [|by intros [= <- <-]].
    destruct (SQLFile_Write E _ w) as [w1 [n|err]] eqn:Hw;
      apply SQLFile_Write_spec in Hw as (Hd & Ht & _); [|by intros [= <- <-]].
    intros H. apply IH in H as [-> ->]. done.
Qed.

(** What [PopulateSchemaDir] does to the directories: nothing when it
    cannot make the directory, and then it fails; else it adds the one of
    the schema, with the schema name in its configuration. *)
Lemma PopulateSchemaDir_dirs schema instance parent w w' ret :
  PopulateSchemaDir E schema instance parent true w = (w', ret) →
  (dirs w' = dirs w ∧ ret ≠ 0) ∨
  dirs w' = <[schema_dir parent schema := Some {[ "schema" := Schema_Name schema ]}]> (dirs w).
Proof.
  unfold PopulateSchemaDir. simpl. destruct (mkdir_error E w _).
  - intros [= <- <-]. by left.
  - intros H. apply populate_tables_dirs in H as [-> _]. by right.
Qed.

Lemma PopulateSchemaDir_populated schema instance parent names w w' ret :
  PopulateSchemaDir E schema instance parent true w = (w', ret) →
  populated parent names w →
  populated parent names w' ∧ (ret = 0 → populated parent (Schema_Name schema :: names) w').
Proof.
  intros H Hp. apply PopulateSchemaDir_dirs in H as [[Hd Hret]|Hd].
  - split; [|done]. intros name Hin. rewrite Hd. by apply Hp.
  - assert (Hkeep : populated parent names w').
    { intros name Hin. rewrite Hd. unfold schema_dir.
      destruct (decide (Schema_Name schema = name)) as [<-|Hne].
      - apply lookup_insert_eq.
      - rewrite lookup_insert_ne; [by apply Hp|].
        intros Heq. apply Hne. by do 2 apply (inj (String.append _)) in Heq. }
    split; [done|]. intros _ name [->|Hin]%elem_of_cons; [|by apply Hkeep].
    rewrite Hd. apply lookup_insert_eq.
Qed.

(** A run of the second loop to its end has made them all. *)
Lemma discover_populated cfg t seenSchema schemas names w tr w' tr' :
  discover E cfg t seenSchema schemas w tr = (w', tr', None) →
  populated (Dir cfg) names w →
  populated (Dir cfg) (unseen_names seenSchema schemas ++ names) w'.
Proof.
  revert names w tr. induction schemas as [|s schemas IH]; intros names w tr; simpl.
  - by intros [= <- <-].
  - unfold unseen_names. rewrite filter_cons.
    destruct (map_get seenSchema (Schema_Name s)) eqn:Hs; simpl.
    + destruct (decide (true = false)); [done|]. by apply IH.
    + destruct (decide (false = false)); [|done].
      destruct (PopulateSchemaDir E s _ (Dir cfg) true w) as [w1 ret] eqn:Hpop.
      case_bool_decide as Hret; [done|].
      intros H Hp.
      destruct (PopulateSchemaDir_populated _ _ _ _ _ _ _ Hpop Hp) as [_ Hp1].
      specialize (IH _ _ _ H (Hp1 Hret)).
      intros name Hin. apply IH. simpl in Hin.
      apply elem_of_cons in Hin as [->|Hin].
      * apply elem_of_app. right. by left.
      * apply elem_of_app in Hin as [Hin|Hin]; apply elem_of_app; [by left|].
        right. by right.
Qed.

Lemma discover_app cfg t seenSchema pre post w tr :
  discover E cfg t seenSchema (pre ++ post) w tr =
  match discover E cfg t seenSchema pre w tr with
  | (w1, tr1, None) => discover E cfg t seenSchema post w1 tr1
  | stopped => stopped
  end.
Proof.
  revert w tr. induction pre as [|s pre IH]; intros w tr; simpl; [done|].
  destruct (negb (map_get seenSchema (Schema_Name s))); [|apply IH].
  destruct (PopulateSchemaDir E s _ (Dir cfg) true w) as [w1 ret].
  case_bool_decide; [done|apply IH].
Qed.

(** C7. An inner node stops at the first failure.  When making the
    directory of a live schema fails with [ret], [pull] returns [ret] in
    the state that very call left: nothing is done after it, no
    subdirectory is entered, and the directories made for the schemas
    before it are still there.  When the call for a subdirectory does not
    return 0, [pull] returns what that call returned, in the state it
    left: the subdirectories after it are not entered. *)
Theorem inner_node_fails_fast fuel cfg seen w tr subdirs :
  IsLeaf E w (Dir cfg) = false →
  Subdirs E w (Dir cfg) = inl subdirs →
  (∀ t ts pre schema post w1 tr1 w2 ret,
     IsInstanceWithLeafSubdirs E w (Dir cfg) = true →
     Targets E w cfg = t :: ts →
     Target_Schemas E w t = pre ++ schema :: post →
     discover E cfg t (seenSchema_of w subdirs) pre w (tr ++ [CallSubdirs (Dir cfg)])
       = (w1, tr1, None) →
     map_get (seenSchema_of w subdirs) (Schema_Name schema) = false →
     PopulateSchemaDir E schema (Target_Instance t) (Dir cfg) true w1 = (w2, ret) →
     ret ≠ 0 →
     pull E (S fuel) cfg seen w tr
       = Some (Result (Ret ret) seen w2 (tr1 ++ [CallPopulateSchemaDir schema (Dir cfg)]))
     ∧ populated (Dir cfg) (unseen_names (seenSchema_of w subdirs) pre) w2)
  ∧ (∀ child r,
       subcall E fuel (Call cfg seen w tr) child →
       run_call E fuel child = Some r →
       is_zero (res_outcome r) = false →
       pull E (S fuel) cfg seen w tr = Some r).
Proof.
  intros Hleaf Hsub. split.
  - intros t ts pre schema post w1 tr1 w2 ret Hinst Ht Hschemas Hpre Hseen Hpop Hret.
    split.
    + simpl. rewrite Hleaf. unfold pull_node, discovery, emit.
      rewrite Hsub, Hinst, Ht, Hschemas, discover_app, Hpre. simpl.
      rewrite Hseen. simpl. rewrite Hpop. by rewrite bool_decide_eq_true_2.
    + eapply (discover_populated _ _ _ _ []) in Hpre; [|by intros ? ?%elem_of_nil].
      rewrite app_nil_r in Hpre.
      by destruct (PopulateSchemaDir_populated _ _ _ _ _ _ _ Hpop Hpre).
  - intros child r Hcall Hrun Hfail.
    by apply (subcall_stops E fuel (Call cfg seen w tr) child r).
Qed.

End Discover.

(** ** Termination *)

Section Termination.
Context (E : Env) (U : gset string).

(** Every entry any listing gives has its path in the finite set [U]: the
    tree has finitely many directories, each under its canonical path. *)
Hypothesis listed_in_U :
  ∀ w d l sd, Subdirs E w d = inl l → sd ∈ l → Path sd ∈ U.

Local Ltac returned := eexists; split; [reflexivity|by intros ? ?].

Lemma map_get_insert (seen : gmap string bool) p q :
  map_get (<[p := true]> seen) q = if decide (p = q) then true else map_get seen q.
Proof. unfold map_get. rewrite lookup_insert. by destruct (decide (p = q)). Qed.

Lemma seen_le_insert seen p : seen_le seen (<[p := true]> seen).
Proof. intros q Hq. rewrite map_get_insert. by destruct (decide (p = q)). Qed.

Lemma unseen_mono seen seen' : seen_le seen seen' → unseen U seen' ⊆ unseen U seen.
Proof.
  intros Hle p [Hp HU]%elem_of_filter. apply elem_of_filter. split; [|done].
  destruct (map_get seen p) eqn:Hs; [|done]. apply Hle in Hs. congruence.
Qed.

Lemma unseen_insert seen p :
  p ∈ U → map_get seen p = false →
  (size (unseen U (<[p := true]> seen)) < size (unseen U seen))%nat.
Proof.
  intros HU Hp. apply subset_size. split.
  - apply unseen_mono, seen_le_insert.
  - intros Hsub. assert (p ∈ unseen U (<[p := true]> seen)) as [Hq _]%elem_of_filter.
    { apply Hsub. by apply elem_of_filter. }
    rewrite map_get_insert in Hq. by destruct (decide (p = p)).
Qed.

(** The loop over the subdirectories returns when the calls it makes do. *)
Lemma recurse_returns (m fuel : nat) cfg :
  (∀ cfg seen w tr,
     (size (unseen U seen) ≤ m)%nat → Path (Dir cfg) ∈ U →
     map_get seen (Path (Dir cfg)) = false →
     ∃ r, pull E fuel cfg seen w tr = Some r ∧ seen_le seen (res_seen r)) →
  ∀ subdirs seen w tr,
    (∀ sd, sd ∈ subdirs → Path sd ∈ U) →
    (size (unseen U seen) ≤ m)%nat →
    ∃ r, recurse (pull E fuel) cfg subdirs seen w tr = Some r ∧ seen_le seen (res_seen r).
Proof.
  intros Hcall. induction subdirs as [|sd subdirs IH]; intros seen w tr Hin Hsize; simpl.
  - returned.
  - assert (Hrest : ∀ sd0, sd0 ∈ subdirs → Path sd0 ∈ U) by (intros; apply Hin; by right).
    destruct (map_get seen (Path sd)) eqn:Hseen; simpl; [by apply IH|].
    destruct (Hcall (ChangeDir cfg sd) seen w tr) as ([o seen' w' tr'] & -> & Hle);
      [done|apply Hin; by left|done|]. simpl in Hle.
    destruct (is_zero o); [|eexists; split; [done|by simpl]].
    destruct (IH seen' w' tr' Hrest) as (r & -> & Hle').
    { etrans; [|exact Hsize]. apply subseteq_size, unseen_mono, Hle. }
    exists r. split; [done|]. intros p Hp. by apply Hle', Hle.
Qed.

(** An inner node returns when the loop over its subdirectories does. *)
Lemma pull_node_returns (m fuel : nat) cfg seen w tr :
  (∀ cfg seen w tr,
     (size (unseen U seen) ≤ m)%nat → Path (Dir cfg) ∈ U →
     map_get seen (Path (Dir cfg)) = false →
     ∃ r, pull E fuel cfg seen w tr = Some r ∧ seen_le seen (res_seen r)) →
  (size (unseen U (<[Path (Dir cfg) := true]> seen)) ≤ m)%nat →
  ∃ r, pull_node E (pull E fuel) cfg seen w tr = Some r ∧ seen_le seen (res_seen r).
Proof.
  intros Hcall Hsize. unfold pull_node.
  destruct (Subdirs E w (Dir cfg)) as [subdirs|err] eqn:Hsub; [|returned].
  destruct (discovery E cfg subdirs w _) as [[w1 tr1] [o|]]; [returned|].
  destruct (recurse_returns m fuel cfg Hcall subdirs
              (<[Path (Dir cfg) := true]> seen) w1 tr1) as (r & -> & Hle);
    [by eauto|done|].
  exists r. split; [done|]. intros p Hp. by apply Hle, seen_le_insert.
Qed.

(** A call for a directory not yet seen returns, with fuel beyond the
    number of directories not yet seen. *)
Lemma pull_returns_unseen (m : nat) :
  ∀ fuel cfg seen w tr,
    (m < fuel)%nat → (size (unseen U seen) ≤ m)%nat → Path (Dir cfg) ∈ U →
    map_get seen (Path (Dir cfg)) = false →
    ∃ r, pull E fuel cfg seen w tr = Some r ∧ seen_le seen (res_seen r).
Proof.
  induction m as [|m IH]; intros fuel cfg seen w tr Hfuel Hsize HU Hseen.
  - assert (Path (Dir cfg) ∈ unseen U seen) as Hin by (by apply elem_of_filter).
    assert (size (unseen U seen) = 0%nat) as Hemp%size_empty_iff by lia.
    by apply Hemp in Hin.
  - destruct fuel as [|fuel]; [lia|]. simpl.
    destruct (IsLeaf E w (Dir cfg)).
    + destruct (pull_leaf E cfg w tr) as [[o w'] tr']. returned.
    + apply (pull_node_returns m).
      * intros. apply IH; [lia|done..].
      * pose proof (unseen_insert seen _ HU Hseen). lia.
Qed.

(** X1. With canonical paths and finitely many directories, [pull] returns
    from every directory, whatever links the tree holds: a depth of two
    more than the number of directories is enough. *)
Theorem pull_terminates fuel cfg seen w tr :
  (S (size U) < fuel)%nat →
  ∃ r, pull E fuel cfg seen w tr = Some r.
Proof.
  intros Hfuel. destruct fuel as [|fuel]; [lia|]. simpl.
  destruct (IsLeaf E w (Dir cfg)).
  - destruct (pull_leaf E cfg w tr) as [[o w'] tr']. by eexists.
  - destruct (pull_node_returns (size U) fuel cfg seen w tr) as (r & Hr & _).
    + intros. apply (pull_returns_unseen (size U)); [lia|done..].
    + apply subseteq_size. intros p [_ Hp]%elem_of_filter. done.
    + by exists r.
Qed.

End Termination.

(** ** A leaf, run twice *)

Section LeafTwice.
Context (E : Env) (differs : Schema → Table → string → Prop).
Context (HL : Lawful E differs).

Local Abbreviation table_ok := (table_ok differs).

Lemma IsLeaf_leaf w d : IsLeaf E w d = leaf E (Path d).
Proof. destruct d as [p]. apply (law_IsLeaf _ _ HL). Qed.

Lemma leaf_schema_live w cfg : leaf_schema E w cfg = live_schema E (Path (Dir cfg)).
Proof.
  destruct cfg as [[p]]. unfold live_schema, leaf_schema. simpl.
  rewrite (law_Targets _ _ HL w nowhere).
  destruct (Targets E nowhere _) as [|t ts]; [done|].
  destruct (SchemaNames t) as [|name names]; [done|].
  apply (law_Target_Schema _ _ HL).
Qed.

Lemma table_file_inj table table' : table_file table = table_file table' → table = table'.
Proof.
  unfold table_file. intros H%string_app_inj_r.
  destruct table, table'. simpl in H. by subst.
Qed.

(** An entry that went through leaves the other tables alone. *)
Lemma applyTableDiff_other cfg t to td w tr w' tr' o table :
  applyTableDiff E cfg t to td w tr = (w', tr', o) →
  diff_table td ≠ Some table →
  files w' !! (Path (Dir cfg), table_file table) = files w !! (Path (Dir cfg), table_file table).
Proof.
  intros H Hne.
  destruct (applyTableDiff_frame E _ _ _ _ _ _ _ _ _ H) as (_ & _ & evs & _ & Hf & _).
  apply Hf. intros table' Htd [= Heq]. apply table_file_inj in Heq. congruence.
Qed.

(** An entry that is right about the start and went through has put its
    table in agreement. *)
Lemma applyTableDiff_fixes cfg t to td w0 w tr w' tr' table :
  applyTableDiff E cfg t to td w tr = (w', tr', None) →
  entry_sound differs w0 (Path (Dir cfg)) to td →
  diff_table td = Some table →
  table_ok w' (Path (Dir cfg)) to table.
Proof.
  unfold applyTableDiff, emit. intros H Hsound Htd.
  destruct td as [T|T|T|T|ty]; simpl in *; simplify_eq.
  - destruct Hsound as [Hin _].
    destruct (ShowCreateTable E w _ to table) as [stmt|err] eqn:Hshow; [|done].
    destruct (SQLFile_Write E _ w) as [w1 [n|err]] eqn:Hw; [|done].
    apply SQLFile_Write_spec in Hw as (_ & _ & Hf & _). simplify_eq. split; [|done].
    intros _. exists stmt. rewrite Hf. split; [apply lookup_insert_eq|].
    by eapply law_definition.
  - destruct Hsound as [Hout _].
    destruct (SQLFile_Delete E _ w) as [w1 [err|]] eqn:Hw; [done|].
    apply SQLFile_Delete_spec in Hw as (_ & _ & Hf). simplify_eq. split; [done|].
    intros _. rewrite Hf. apply lookup_delete_eq.
  - destruct Hsound as [Hin _].
    destruct (ShowCreateTable E w _ to table) as [stmt|err] eqn:Hshow; [|done].
    destruct (SQLFile_Write E _ w) as [w1 [n|err]] eqn:Hw; [|done].
    apply SQLFile_Write_spec in Hw as (_ & _ & Hf & _). simplify_eq. split; [|done].
    intros _. exists stmt. rewrite Hf. split; [apply lookup_insert_eq|].
    by eapply law_definition.
Qed.

(** The loop that ran to its end: a table in agreement stays so, a table
    with an entry is in agreement, a table without has its file as it
    was. *)
Lemma applyTableDiffs_fixes cfg t to diffs w0 w tr w' tr' table :
  applyTableDiffs E cfg t to diffs w tr = (w', tr', None) →
  (∀ td, td ∈ diffs → entry_sound differs w0 (Path (Dir cfg)) to td) →
  (table_ok w (Path (Dir cfg)) to table → table_ok w' (Path (Dir cfg)) to table)
  ∧ ((∃ td, td ∈ diffs ∧ diff_table td = Some table) → table_ok w' (Path (Dir cfg)) to table)
  ∧ ((∀ td, td ∈ diffs → diff_table td ≠ Some table) →
     files w' !! (Path (Dir cfg), table_file table)
       = files w !! (Path (Dir cfg), table_file table)).
Proof.
  revert w tr. induction diffs as [|td diffs IH]; intros w tr; simpl.
  - intros [= <- <-] _. split_and!; [done| |done].
    intros (td & Hin & _). by apply elem_of_nil in Hin.
  - destruct (applyTableDiff E cfg t to td w tr) as [[w1 tr1] [o|]] eqn:H1; [done|].
    intros H2 Hsound.
    destruct (IH w1 tr1 H2) as (Hkeep & Hfix & Hframe).
    { intros td' Hin. apply Hsound. by right. }
    assert (Hhead : entry_sound differs w0 (Path (Dir cfg)) to td)
      by (apply Hsound; by left).
    assert (Hstep : table_ok w (Path (Dir cfg)) to table → table_ok w1 (Path (Dir cfg)) to table).
    { intros Hok. destruct (decide (diff_table td = Some table)) as [Heq|Hne].
      - by eapply applyTableDiff_fixes.
      - unfold table_ok. by rewrite (applyTableDiff_other _ _ _ _ _ _ _ _ _ _ H1 Hne). }
    split_and!.
    + auto.
    + intros (td' & [->|Hin]%elem_of_cons & Htd); [|by eauto].
      apply Hkeep. by eapply applyTableDiff_fixes.
    + intros Hno. rewrite Hframe.
      * eapply applyTableDiff_other; [done|]. apply Hno. by left.
      * intros td' Hin. apply Hno. by right.
Qed.

(** After the loop over the diff of the staged files and the live schema
    has run to its end, the directory agrees with the live schema. *)
Lemma applyTableDiffs_synced cfg t to w tr w' tr' :
  temp_schema w = Some (Path (Dir cfg)) →
  applyTableDiffs E cfg t to (NewSchemaDiff E (TemporarySchema E w t) to) w tr
    = (w', tr', None) →
  synced differs w' (Path (Dir cfg)) to.
Proof.
  intros Htemp Hloop table.
  destruct (applyTableDiffs_fixes _ _ _ _ w _ _ _ _ table Hloop) as (Hkeep & Hfix & Hframe).
  { intros td Hin. by eapply law_diff_sound. }
  set (diffs := NewSchemaDiff E (TemporarySchema E w t) to) in *.
  destruct (decide (Exists (λ td, diff_table td = Some table) diffs)) as [Hex|Hno].
  - apply Hfix. by apply Exists_exists in Hex.
  - assert (Hnone : ∀ td, td ∈ diffs → diff_table td ≠ Some table).
    { intros td Hin Htd. apply Hno, Exists_exists. eauto. }
    destruct (law_diff_complete _ _ HL w t to (Path (Dir cfg)) table Htemp)
      as (Hcreate & Hdrop & Halter).
    apply Hkeep. split.
    + intros Hin. destruct (files w !! (Path (Dir cfg), table_file table)) as [text|] eqn:Hf.
      * exists text. split; [done|]. intros Hdiff.
        by apply (Hnone _ (Halter text Hin eq_refl Hdiff)).
      * by destruct (Hnone _ (Hcreate Hin eq_refl)).
    + intros Hout. destruct (files w !! (Path (Dir cfg), table_file table)) as [text|] eqn:Hf;
        [|done].
      by destruct (Hnone _ (Hdrop Hout (mk_is_Some _ _ eq_refl))).
Qed.

(** In a directory that agrees with the live schema, the loop over the
    diff changes nothing. *)
Lemma applyTableDiffs_quiet cfg t to w tr w' tr' o :
  temp_schema w = Some (Path (Dir cfg)) →
  synced differs w (Path (Dir cfg)) to →
  applyTableDiffs E cfg t to (NewSchemaDiff E (TemporarySchema E w t) to) w tr = (w', tr', o) →
  w' = w.
Proof.
  intros Htemp Hsync.
  pose proof (law_diff_sound _ _ HL w t to (Path (Dir cfg))) as Hsound.
  destruct (NewSchemaDiff E (TemporarySchema E w t) to) as [|td diffs]; simpl.
  - by intros [= <- _ _].
  - specialize (Hsound td Htemp (list_elem_of_here _ _)).
    destruct td as [T|T|T|T|ty]; simpl in *.
    + destruct Hsound as [Hin Hf]. destruct (Hsync T) as [Hlive _].
      destruct (Hlive Hin) as (text & Hf' & _). congruence.
    + destruct Hsound as [Hout [text Hf]]. destruct (Hsync T) as [_ Hdead].
      rewrite (Hdead Hout) in Hf. done.
    + destruct Hsound as (Hin & text & Hf & Hdiff). destruct (Hsync T) as [Hlive _].
      destruct (Hlive Hin) as (text' & Hf' & Hsame). congruence.
    + by intros [= <- _ _].
    + by intros [= <- _ _].
Qed.

End LeafTwice.

(** ** What the first run leaves at a leaf *)

Section FirstRun.
Context (E : Env) (differs : Schema → Table → string → Prop).
Context (HL : Lawful E differs).

Local Abbreviation leaf := (leaf E).
Local Abbreviation live_schema := (live_schema E).
Local Abbreviation quiet := (quiet E differs).
Local Abbreviation inv := (inv E differs).
Local Abbreviation step := (step E).
Local Abbreviation well_formed := (well_formed E).
Local Abbreviation settled := (settled E differs).

Lemma step_refl w Q : step w w Q.
Proof. split_and!; [by left| |done]. intros q [x Hx] Hn. congruence. Qed.

Lemma step_trans w w1 w2 Q1 Q2 :
  step w w1 Q1 → step w1 w2 Q2 → Q1 ⊆ Q2 → inv w2 Q2 → step w w2 Q2.
Proof.
  intros (Ha1 & Hb1 & Hc1) (Ha2 & Hb2 & Hc2) Hsub [_ Hq]. split_and!.
  - intros q Hx. destruct (Ha2 q Hx) as [Hx1|?]; [|by right].
    destruct (Ha1 q Hx1) as [?|?]; [by left|right; by apply Hsub].
  - intros q Hx Hn. destruct (dirs w1 !! q) eqn:H1.
    + apply Hb2; [by rewrite H1|done].
    + by apply Hb1.
  - intros q Hx Hx2. destruct (dirs w1 !! q) eqn:H1.
    + rewrite Hc2, H1; [|by rewrite H1|done]. rewrite <- H1. apply Hc1; [done|by rewrite H1].
    + destruct (Hb1 q Hx H1) as [_ Hgone].
      destruct (Ha2 q Hx2) as [[? ?]|Hin]; [congruence|].
      destruct (Hq q Hin Hx2) as (_ & to & Hlive & _). congruence.
Qed.

(** The files of a directory other than the leaf are not touched by the
    loop over the diff. *)
Lemma applyTableDiffs_elsewhere cfg t to diffs w tr w' tr' o q f :
  applyTableDiffs E cfg t to diffs w tr = (w', tr', o) →
  q ≠ Path (Dir cfg) →
  files w' !! (q, f) = files w !! (q, f).
Proof.
  intros H Hne.
  destruct (applyTableDiffs_frame E _ _ _ _ _ _ _ _ _ H) as (_ & _ & evs & _ & Hf & _).
  apply Hf. intros td table _ _ [= ? _]. done.
Qed.

(** A file the loop has made lies in the directory of the leaf, which
    exists. *)
Lemma applyTableDiffs_files_in_dirs cfg t to diffs w tr w' tr' o :
  applyTableDiffs E cfg t to diffs w tr = (w', tr', o) →
  (∀ p f text, files w !! (p, f) = Some text → is_Some (dirs w !! p)) →
  (∀ p f text, files w' !! (p, f) = Some text → is_Some (dirs w' !! p)).
Proof.
  revert w tr. induction diffs as [|td diffs IH]; intros w tr; simpl.
  - by intros [= <- _ _].
  - destruct (applyTableDiff E cfg t to td w tr) as [[w1 tr1] o1] eqn:H1.
    intros H2 Hwf.
    assert (Hwf1 : ∀ p f text, files w1 !! (p, f) = Some text → is_Some (dirs w1 !! p)).
    { clear H2 IH. unfold applyTableDiff, emit in H1.
      destruct td as [T|T|T|T|ty]; simpl in H1; simplify_eq; try done.
      - destruct (ShowCreateTable E w _ to T) as [stmt|err]; [|by simplify_eq].
        destruct (SQLFile_Write E _ w) as [w2 [n|err]] eqn:Hw;
          apply SQLFile_Write_spec in Hw as (Hd & _ & Hf); simplify_eq.
        + destruct Hf as (Hf & _ & Hlaw). apply (law_write _ _ HL) in Hlaw. simpl in Hlaw.
          intros p f text. rewrite Hf, Hd. unfold SQLFile_key. simpl.
          destruct (decide ((Path (Dir cfg), Table_Name T +:+ ".sql") = (p, f))) as [[= <- <-]|Hne].
          * done.
          * rewrite lookup_insert_ne by done. apply Hwf.
        + by destruct Hf as [-> _].
      - destruct (SQLFile_Delete E _ w) as [w2 [err|]] eqn:Hw;
          apply SQLFile_Delete_spec in Hw as (Hd & _ & Hf); simplify_eq.
        + done.
        + intros p f text. rewrite Hf, Hd. intros [_ Hl]%lookup_delete_Some. by eapply Hwf.
      - destruct (ShowCreateTable E w _ to T) as [stmt|err]; [|by simplify_eq].
        destruct (SQLFile_Write E _ w) as [w2 [n|err]] eqn:Hw;
          apply SQLFile_Write_spec in Hw as (Hd & _ & Hf); simplify_eq.
        + destruct Hf as (Hf & _ & Hlaw). apply (law_write _ _ HL) in Hlaw. simpl in Hlaw.
          intros p f text. rewrite Hf, Hd. unfold SQLFile_key. simpl.
          destruct (decide ((Path (Dir cfg), Table_Name T +:+ ".sql") = (p, f))) as [[= <- <-]|Hne].
          * done.
          * rewrite lookup_insert_ne by done. apply Hwf.
        + by destruct Hf as [-> _]. }
    destruct o1 as [o1|]; [by simplify_eq|]. by eapply IH.
Qed.

Lemma quiet_files w w' p :
  (∀ f, files w' !! (p, f) = files w !! (p, f)) → quiet w p → quiet w' p.
Proof.
  intros Hf (Hleaf & to & Hlive & Hsync). split; [done|]. exists to. split; [done|].
  intros table. rewrite Hf. apply Hsync.
Qed.

(** The first call for a leaf. *)
Lemma pull_leaf_first cfg w tr w' tr' Q :
  leaf (Path (Dir cfg)) = true →
  inv w Q →
  pull_leaf E cfg w tr = (Ret 0, w', tr') →
  inv w' (Q ∪ {[Path (Dir cfg)]}) ∧ step w w' (Q ∪ {[Path (Dir cfg)]})
  ∧ settled w' (Path (Dir cfg)).
Proof.
  intros Hleaf [(Hwf & Hflat & Hcons) Hq] Hrun.
  pose proof (leaf_schema_live E differs HL w cfg) as Hlive.
  unfold leaf_schema in Hlive. unfold pull_leaf, emit in Hrun. unfold settled.
  destruct (Targets E w cfg) as [|t ts]; [done|].
  destruct (SchemaNames t) as [|name names]; [done|].
  destruct (Target_Schema E w t name) as [to|]; rewrite <- Hlive.
  - unfold PopulateTemporarySchema in Hrun.
    destruct (populate_error E w cfg); [done|].
    destruct (applyTableDiffs E cfg t to _ _ _) as [[w1 tr1] [o|]] eqn:Hloop.
    { apply applyTableDiffs_stop in Hloop as [Hz _]. by simplify_eq. }
    unfold DropTemporarySchema in Hrun. destruct (drop_error E w1 cfg); [done|].
    injection Hrun as <- _.
    pose proof (applyTableDiffs_synced E differs HL cfg t to
                  (set_temp_schema (Some (Path (Dir cfg))) w) _ _ _ eq_refl Hloop) as Hsync.
    pose proof (applyTableDiffs_files_in_dirs _ _ _ _ _ _ _ _ _ Hloop Hwf) as Hwf1.
    destruct (applyTableDiffs_frame E _ _ _ _ _ _ _ _ _ Hloop) as (Hd & _).
    simpl in Hd.
    assert (Hsame : ∀ q, dirs (set_temp_schema None w1) !! q = dirs w !! q)
      by (intros q; simpl; by rewrite Hd).
    split_and!.
    + split; [split_and!|].
      * done.
      * intros p q Hp Hx. rewrite Hsame in Hx. by apply Hflat.
      * intros q skf n Hx. rewrite Hsame in Hx. by apply Hcons.
      * intros p [Hin| ->%elem_of_singleton]%elem_of_union Hx.
        -- destruct (decide (p = Path (Dir cfg))) as [->|Hne].
           ++ split; [done|]. by exists to.
           ++ rewrite Hsame in Hx. apply (quiet_files w); [|by apply Hq].
              intros f. exact (applyTableDiffs_elsewhere _ _ _ _ _ _ _ _ _ p f Hloop Hne).
        -- split; [done|]. by exists to.
    + split_and!.
      * intros q Hx. left. by rewrite <- Hsame.
      * intros q [x Hx] Hn. rewrite Hsame in Hn. congruence.
      * intros q _ _. apply Hsame.
    + done.
  - unfold Dir_Delete in Hrun. destruct (dir_delete_error E w (Dir cfg)); [done|].
    injection Hrun as <- _. simpl.
    assert (Hgone : ∀ q, under (Path (Dir cfg)) q = true →
      filter (λ kv, under (Path (Dir cfg)) kv.1 = false) (dirs w) !! q = None).
    { intros q Hu. apply map_lookup_filter_None. right. intros x _. simpl. by rewrite Hu. }
    assert (Hkept : ∀ q x, filter (λ kv, under (Path (Dir cfg)) kv.1 = false) (dirs w) !! q = Some x →
      dirs w !! q = Some x ∧ under (Path (Dir cfg)) q = false).
    { intros q x Hx. by apply map_lookup_filter_Some in Hx. }
    split_and!.
    + split; [split_and!|].
      * intros p f text [Hf Hu]%map_lookup_filter_Some. simpl in Hu.
        destruct (Hwf _ _ _ Hf) as [x Hx]. exists x. by apply map_lookup_filter_Some.
      * intros p q Hp [x Hx]. destruct (Hkept _ _ Hx) as [Hx' _]. apply Hflat; [done|].
        by rewrite Hx'.
      * intros q skf n Hx. destruct (Hkept _ _ Hx) as [Hx' _]. by apply Hcons.
      * intros p Hin [x Hx]. destruct (Hkept _ _ Hx) as [Hx' Hu].
        assert (p ≠ Path (Dir cfg)) as Hne.
        { intros ->. unfold under in Hu. by rewrite bool_decide_eq_true_2 in Hu. }
        apply elem_of_union in Hin as [Hin|Hin%elem_of_singleton]; [|done].
        apply (quiet_files w); [|apply Hq; [done|by rewrite Hx']].
        intros f. destruct (files w !! (p, f)) as [text|] eqn:Hf.
        -- by apply map_lookup_filter_Some.
        -- apply map_lookup_filter_None. by left.
    + split_and!.
      * intros q [x Hx]. left. destruct (Hkept _ _ Hx) as [-> _]. done.
      * intros q [x Hx] Hn. simpl in Hn.
        assert (under (Path (Dir cfg)) q = true) as Hu.
        { destruct (under (Path (Dir cfg)) q) eqn:Hu; [done|].
          assert (filter (λ kv, under (Path (Dir cfg)) kv.1 = false) (dirs w) !! q = Some x)
            by (by apply map_lookup_filter_Some). congruence. }
        assert (q = Path (Dir cfg)) as -> by (apply Hflat; [done|by rewrite Hx|done]).
        done.
      * intros q _ [x Hx]. rewrite Hx. by destruct (Hkept _ _ Hx) as [-> _].
    + intros q Hu. split; [by apply Hgone|].
      intros f. apply map_lookup_filter_None. right. intros x _. simpl. by rewrite Hu.
Qed.

(** The later call for a quiet leaf changes neither file nor directory. *)
Lemma pull_leaf_quiet cfg w tr o w' tr' :
  quiet w (Path (Dir cfg)) →
  pull_leaf E cfg w tr = (o, w', tr') →
  files w' = files w ∧ dirs w' = dirs w.
Proof.
  intros (Hleaf & to & Hlive & Hsync) Hrun.
  rewrite <- (leaf_schema_live E differs HL w cfg) in Hlive.
  unfold leaf_schema in Hlive. unfold pull_leaf, emit in Hrun.
  destruct (Targets E w cfg) as [|t ts]; [done|].
  destruct (SchemaNames t) as [|name names]; [done|].
  rewrite Hlive in Hrun. unfold PopulateTemporarySchema in Hrun.
  destruct (populate_error E w cfg); [by simplify_eq|].
  destruct (applyTableDiffs E cfg t to _ _ _) as [[w1 tr1] o1] eqn:Hloop.
  apply (applyTableDiffs_quiet E differs HL) in Hloop; [|done|done]. subst w1.
  destruct o1; [by simplify_eq|].
  unfold DropTemporarySchema in Hrun. destruct (drop_error E _ cfg); by simplify_eq.
Qed.

End FirstRun.

(** ** What discovery adds *)

Section Discovery.
Context (E : Env) (differs : Schema → Table → string → Prop).
Context (HL : Lawful E differs).

Local Abbreviation leaf := (leaf E).
Local Abbreviation live_schema := (live_schema E).
Local Abbreviation quiet := (quiet E differs).
Local Abbreviation inv := (inv E differs).
Local Abbreviation step := (step E).

Lemma seenSchema_step_true w m sd name :
  map_get (seenSchema_step w m sd) name = true ↔
  map_get m name = true ∨ ∃ skf, SkeemaFile w sd = Some skf ∧ skf !! "schema" = Some name.
Proof.
  unfold seenSchema_step, HasField, Values.
  destruct (SkeemaFile w sd) as [skf|].
  - destruct (skf !! "schema") as [n|] eqn:Hn.
    + rewrite bool_decide_eq_true_2 by (by eexists). simpl. rewrite map_get_insert.
      destruct (decide (n = name)) as [->|Hne].
      * split; [|done]. intros _. right. by exists skf.
      * split; [by left|]. intros [?|(skf' & [= <-] & ?)]; [done|]. congruence.
    + rewrite bool_decide_eq_false_2 by (by intros [? ?]).
      split; [by left|]. intros [?|(skf' & [= <-] & ?)]; [done|]. congruence.
  - split; [by left|]. by intros [?|(skf' & ? & ?)].
Qed.

Lemma seenSchema_fold_true w l m name :
  map_get (foldl (seenSchema_step w) m l) name = true ↔
  map_get m name = true
  ∨ ∃ sd skf, sd ∈ l ∧ SkeemaFile w sd = Some skf ∧ skf !! "schema" = Some name.
Proof.
  revert m. induction l as [|sd l IH]; intros m; simpl.
  - split; [by left|]. intros [?|(sd & skf & Hin & _)]; [done|]. by apply elem_of_nil in Hin.
  - rewrite IH, seenSchema_step_true. split.
    + intros [[?|(skf & ? & ?)]|(sd' & skf & ? & ? & ?)].
      * by left.
      * right. exists sd, skf. split_and!; [by left|done|done].
      * right. exists sd', skf. split_and!; [by right|done|done].
    + intros [?|(sd' & skf & [->|?]%elem_of_cons & ? & ?)].
      * left. by left.
      * left. right. by exists skf.
      * right. by exists sd', skf.
Qed.

(** The names the first loop has seen are the names the subdirectories
    declare. *)
Lemma seenSchema_of_true w l name :
  map_get (seenSchema_of w l) name = true ↔
  ∃ sd skf, sd ∈ l ∧ SkeemaFile w sd = Some skf ∧ skf !! "schema" = Some name.
Proof.
  unfold seenSchema_of. change (foldl _ ∅ l) with (foldl (seenSchema_step w) ∅ l).
  rewrite seenSchema_fold_true. split; [|by right]. by intros [?|?].
Qed.

(** The table files of a new schema directory, when all were written. *)
Lemma populate_tables_first instance schema dir tables w w' :
  populate_tables E instance schema dir tables w = (w', 0) →
  dirs w' = dirs w
  ∧ (∀ q f, q ≠ Path dir → files w' !! (q, f) = files w !! (q, f))
  ∧ ∀ table,
      ((∃ text, files w !! (Path dir, table_file table) = Some text
                ∧ ¬ differs schema table text) →
       ∃ text, files w' !! (Path dir, table_file table) = Some text
               ∧ ¬ differs schema table text)
      ∧ (table ∈ tables →
         ∃ text, files w' !! (Path dir, table_file table) = Some text
                 ∧ ¬ differs schema table text)
      ∧ (table ∉ tables →
         files w' !! (Path dir, table_file table) = files w !! (Path dir, table_file table)).
Proof.
  revert w. induction tables as [|T tables IH]; intros w; simpl.
  - intros [= <-]. split_and!; [done..|]. intros table. split_and!; [done| |done].
    by intros ?%elem_of_nil.
  - unfold populate_table.
    destruct (ShowCreateTable E w instance schema T) as [stmt|err] eqn:Hshow; [|done].
    destruct (SQLFile_Write E _ w) as [w1 [n|err]] eqn:Hw; [|done].
    apply SQLFile_Write_spec in Hw as (Hd & _ & Hf & _). unfold SQLFile_key in Hf. simpl in Hf.
    intros H. apply IH in H as (Hd' & Hother & Htables).
    assert (Hnew : ∃ text, files w1 !! (Path dir, table_file T) = Some text
                           ∧ ¬ differs schema T text).
    { exists stmt. rewrite Hf. split; [apply lookup_insert_eq|]. by eapply law_definition. }
    assert (Hold : ∀ table, table ≠ T →
      files w1 !! (Path dir, table_file table) = files w !! (Path dir, table_file table)).
    { intros table Hne. rewrite Hf. apply lookup_insert_ne.
      intros [= Heq]. by apply table_file_inj in Heq. }
    split_and!.
    + congruence.
    + intros q f Hne. rewrite Hother by done. rewrite Hf. apply lookup_insert_ne. congruence.
    + intros table. destruct (Htables table) as (Hkeep & Hin & Hout). split_and!.
      * intros Hok. apply Hkeep. destruct (decide (table = T)) as [->|Hne]; [done|].
        by rewrite Hold.
      * intros [->|Hin']%elem_of_cons; [|by apply Hin]. by apply Hkeep.
      * intros Hnot. apply not_elem_of_cons in Hnot as [Hne Hnot]. rewrite Hout by done.
        by apply Hold.
Qed.

(** The directory of a schema, when it was made with all its files: it
    was not there, it is now, with the schema name in its configuration
    and a file for each table; nothing else has changed. *)
Lemma PopulateSchemaDir_first schema instance parent w w' :
  PopulateSchemaDir E schema instance parent true w = (w', 0) →
  dirs w !! schema_dir parent schema = None
  ∧ dirs w' = <[schema_dir parent schema := Some {[ "schema" := Schema_Name schema ]}]> (dirs w)
  ∧ (∀ q f, q ≠ schema_dir parent schema → files w' !! (q, f) = files w !! (q, f))
  ∧ ∀ table,
      (table ∈ Schema_Tables schema →
       ∃ text, files w' !! (schema_dir parent schema, table_file table) = Some text
               ∧ ¬ differs schema table text)
      ∧ (table ∉ Schema_Tables schema →
         files w' !! (schema_dir parent schema, table_file table)
           = files w !! (schema_dir parent schema, table_file table)).
Proof.
  unfold PopulateSchemaDir. simpl.
  destruct (mkdir_error E w _) eqn:Hmk; [done|].
  apply (law_mkdir _ _ HL) in Hmk. simpl in Hmk.
  intros H. apply populate_tables_first in H as (Hd & Hother & Htables). simpl in *.
  split_and!; [done|done|done|].
  intros table. destruct (Htables table) as (_ & Hin & Hout). by split.
Qed.

End Discovery.

(** ** The closure the first run builds *)

Section Closure.
Context (E : Env) (differs : Schema → Table → string → Prop).
Context (HL : Lawful E differs).

Local Abbreviation leaf := (leaf E).
Local Abbreviation live_schema := (live_schema E).
Local Abbreviation quiet := (quiet E differs).
Local Abbreviation inv := (inv E differs).
Local Abbreviation step := (step E).
Local Abbreviation tracked := (tracked E).
Local Abbreviation represented := (represented E).
Local Abbreviation closed := (closed E).
Local Abbreviation entry := (entry E).

(** The directory of a live schema, made in the first run. *)
Lemma PopulateSchemaDir_inv d t ts schema w w' Q :
  IsInstanceWithLeafSubdirs E nowhere {| Path := d |} = true →
  Targets E nowhere {| Dir := {| Path := d |} |} = t :: ts →
  schema ∈ Target_Schemas E nowhere t →
  inv w Q →
  PopulateSchemaDir E schema (Target_Instance t) {| Path := d |} true w = (w', 0) →
  inv w' (Q ∪ {[schema_dir {| Path := d |} schema]})
  ∧ step w w' (Q ∪ {[schema_dir {| Path := d |} schema]})
  ∧ (∀ q, is_Some (dirs w !! q) → dirs w' !! q = dirs w !! q)
  ∧ is_Some (dirs w' !! schema_dir {| Path := d |} schema).
Proof.
  intros Hinst Ht Hin [(Hwf & Hflat & Hcons) Hq] Hpop.
  destruct (law_schema_dir _ _ HL nowhere _ _ _ _ Hinst Ht Hin)
    as (Hleafp & Hlivep & Hnames & Hfree).
  apply (PopulateSchemaDir_first E differs HL) in Hpop as (Hnone & Hd & Hother & Htables).
  set (p := schema_dir {| Path := d |} schema) in *.
  assert (Hold : ∀ q, q ≠ p → dirs w' !! q = dirs w !! q).
  { intros q Hne. rewrite Hd. by apply lookup_insert_ne. }
  assert (Hnew : is_Some (dirs w' !! p)).
  { rewrite Hd, lookup_insert_eq. by eexists. }
  assert (Hdiff : ∀ q, is_Some (dirs w !! q) → q ≠ p).
  { intros q [x Hx] ->. congruence. }
  split_and!; [split; [split_and!|]|split_and!| |done].
  - intros q f text Hf. destruct (decide (q = p)) as [->|Hne]; [done|].
    rewrite Hold by done. apply (Hwf q f text). by rewrite <- Hother.
  - intros p0 q Hp0 Hx Hu. destruct (decide (q = p)) as [->|Hne].
    + symmetry. by apply Hfree.
    + rewrite Hold in Hx by done. by apply Hflat.
  - intros q skf n Hx Hn. destruct (decide (q = p)) as [->|Hne].
    + rewrite Hd, lookup_insert_eq in Hx. injection Hx as <-.
      apply lookup_singleton_Some in Hn as [_ <-]. done.
    + rewrite Hold in Hx by done. by eapply Hcons.
  - intros q Hin' Hx. destruct (decide (q = p)) as [->|Hne].
    + split; [done|]. exists schema. split; [done|]. intros table.
      destruct (Htables table) as [Hlive Hdead]. split; [done|].
      intros Hout. rewrite (Hdead Hout).
      destruct (files w !! (p, table_file table)) as [text|] eqn:Hf; [|done].
      destruct (Hwf _ _ _ Hf) as [x Hx']. congruence.
    + apply elem_of_union in Hin' as [Hin'|?%elem_of_singleton]; [|done].
      rewrite Hold in Hx by done. apply (quiet_files E differs w); [|by apply Hq].
      intros f. by apply Hother.
  - intros q Hx. destruct (decide (q = p)) as [->|Hne].
    + right. apply elem_of_union. right. by apply elem_of_singleton.
    + left. by rewrite <- Hold.
  - intros q Hx Hn. rewrite Hold in Hn by (by apply Hdiff). destruct Hx. congruence.
  - intros q Hx _. apply Hold. by apply Hdiff.
  - intros q Hx. apply Hold. by apply Hdiff.
Qed.

(** The second loop of the instance branch, run to its end in the first
    run. *)
Lemma discover_first d t ts seenSchema schemas w tr w' tr' Q :
  IsInstanceWithLeafSubdirs E nowhere {| Path := d |} = true →
  Targets E nowhere {| Dir := {| Path := d |} |} = t :: ts →
  (∀ s, s ∈ schemas → s ∈ Target_Schemas E nowhere t) →
  inv w Q →
  discover E {| Dir := {| Path := d |} |} t seenSchema schemas w tr = (w', tr', None) →
  ∃ Q', Q ⊆ Q' ∧ inv w' Q' ∧ step w w' Q'
    ∧ (∀ q, is_Some (dirs w !! q) → dirs w' !! q = dirs w !! q)
    ∧ ∀ s, s ∈ schemas →
        map_get seenSchema (Schema_Name s) = true
        ∨ is_Some (dirs w' !! schema_dir {| Path := d |} s).
Proof.
  intros Hinst Ht. revert w tr Q.
  induction schemas as [|s schemas IH]; intros w tr Q Hall Hinv; simpl.
  - intros [= <- _]. exists Q. split_and!; [done|done|apply step_refl|done|].
    by intros s ?%elem_of_nil.
  - assert (Hrest : ∀ s0, s0 ∈ schemas → s0 ∈ Target_Schemas E nowhere t)
      by (intros; apply Hall; by right).
    destruct (map_get seenSchema (Schema_Name s)) eqn:Hseen; simpl.
    + intros H. destruct (IH w tr Q Hrest Hinv H) as (Q' & ? & ? & ? & ? & Hrep).
      exists Q'. split_and!; [done..|].
      intros s0 [->|?]%elem_of_cons; [by left|by apply Hrep].
    + destruct (PopulateSchemaDir E s _ _ true w) as [w1 ret] eqn:Hpop.
      case_bool_decide as Hret; [done|]. subst ret.
      intros H.
      destruct (PopulateSchemaDir_inv d t ts s w w1 Q Hinst Ht) as (Hinv1 & Hstep1 & Hkeep1 & Hnew);
        [apply Hall; by left|done|done|].
      destruct (IH w1 _ _ Hrest Hinv1 H) as (Q' & Hsub & Hinv' & Hstep' & Hkeep' & Hrep).
      exists Q'. split_and!.
      * etrans; [|done]. apply union_subseteq_l.
      * done.
      * by eapply (step_trans E differs).
      * intros q Hx. rewrite Hkeep', Hkeep1; [done|done|]. by rewrite Hkeep1.
      * intros s0 [->|?]%elem_of_cons; [|by apply Hrep].
        right. by rewrite Hkeep'.
Qed.

Lemma SkeemaFile_dirs w w' sd :
  dirs w' !! Path sd = dirs w !! Path sd → SkeemaFile w' sd = SkeemaFile w sd.
Proof. unfold SkeemaFile. by intros ->. Qed.

Lemma SkeemaFile_exists w sd skf : SkeemaFile w sd = Some skf → is_Some (dirs w !! Path sd).
Proof. unfold SkeemaFile. destruct (dirs w !! Path sd); [by eexists|done]. Qed.

(** The whole of the instance branch, run to its end in the first run:
    every live schema is represented afterwards. *)
Lemma discovery_first d subdirs w tr w' tr' Q :
  Subdirs E w {| Path := d |} = inl subdirs →
  inv w Q →
  discovery E {| Dir := {| Path := d |} |} subdirs w tr = (w', tr', None) →
  ∃ Q', Q ⊆ Q' ∧ inv w' Q' ∧ step w w' Q' ∧ represented w' d
    ∧ (∀ q, is_Some (dirs w !! q) → dirs w' !! q = dirs w !! q).
Proof.
  intros Hsub Hinv. unfold discovery. simpl.
  rewrite (law_IsInstance _ _ HL w nowhere), (law_Targets _ _ HL w nowhere).
  destruct (IsInstanceWithLeafSubdirs E nowhere {| Path := d |}) eqn:Hinst.
  - destruct (Targets E nowhere _) as [|t ts] eqn:Ht; [done|].
    rewrite (law_Target_Schemas _ _ HL w nowhere).
    intros H. destruct (discover_first d t ts _ _ w tr w' tr' Q Hinst Ht (λ _ Hs, Hs) Hinv H) as
      (Q' & Hsub' & Hinv' & Hstep & Hkeep & Hrep).
    exists Q'. split_and!; [done..| |done].
    intros _ t0 ts0 schema Ht0 Hin. rewrite Ht in Ht0. injection Ht0 as <- <-.
    destruct (Hrep schema Hin) as [Hseen|?]; [left|by right].
    apply seenSchema_of_true in Hseen as (sd & skf & Hsd & Hskf & Hname).
    exists sd, skf. split_and!; [by exists w, subdirs| |done].
    rewrite <- Hskf. apply SkeemaFile_dirs, Hkeep. by eapply SkeemaFile_exists.
  - intros [= <- _]. exists Q. split_and!; [done|done|apply step_refl| |done].
    intros Hcontra. rewrite Hinst in Hcontra. done.
Qed.

Lemma tracked_mono seen seen' (Q Q' : gset string) q :
  seen_le seen seen' → Q ⊆ Q' → tracked seen Q q → tracked seen' Q' q.
Proof.
  intros Hs Hq [[? ?]|[? ?]]; [left|right]; split; auto.
Qed.

(** An entry that exists is listed whenever the listing is given. *)
Lemma entry_listed d sd w l :
  entry d sd → is_Some (dirs w !! Path sd) → Subdirs E w {| Path := d |} = inl l → sd ∈ l.
Proof.
  intros (w0 & l0 & Hl0 & Hin) Hx Hl.
  destruct (law_listing _ _ HL w w0 _ _ _ Hl0 Hin Hx) as (l' & Hl' & ?). congruence.
Qed.

Lemma represented_mono w w' Q Q' d :
  inv w Q → represented w d → step w w' Q' → inv w' Q' → represented w' d.
Proof.
  intros [(_ & _ & Hcons) _] Hrep (_ & Hgone & Hkeep) _ Hinst t ts schema Ht Hin.
  destruct (Hrep Hinst t ts schema Ht Hin) as [(sd & skf & Hentry & Hskf & Hname)|Hx].
  - left. exists sd, skf. split_and!; [done| |done].
    pose proof (SkeemaFile_exists _ _ _ Hskf) as Hx.
    destruct (dirs w' !! Path sd) as [x|] eqn:Hx'.
    + rewrite <- Hskf. apply SkeemaFile_dirs. apply Hkeep; [done|by rewrite Hx'].
    + destruct (Hgone _ Hx Hx') as [_ Hnone].
      destruct Hentry as (w0 & l0 & Hl0 & Hin0).
      destruct (law_listing _ _ HL w w0 _ _ _ Hl0 Hin0 Hx) as (l & Hl & Hsd).
      assert (dirs w !! Path sd = Some (Some skf)) as Hcfg.
      { unfold SkeemaFile in Hskf.
        destruct (dirs w !! Path sd) as [[skf'|]|]; simpl in Hskf; [|done|done].
        by injection Hskf as ->. }
      destruct (Hcons _ _ _ Hcfg Hname) as (t' & ts' & names & Ht' & Hnames).
      destruct (law_same_instance _ _ HL w {| Path := d |} t ts l sd t' ts' names schema)
        as [to Hto];
        [by rewrite (law_IsInstance _ _ HL w nowhere)
        |by rewrite (law_Targets _ _ HL w nowhere)
        |done|done
        |destruct sd; by rewrite (law_Targets _ _ HL w nowhere)
        |done
        |by rewrite (law_Target_Schemas _ _ HL w nowhere)|].
      unfold live_schema, leaf_schema in Hnone.
      rewrite Ht', Hnames, (law_Target_Schema _ _ HL nowhere w) in Hnone. congruence.
  - right. destruct (dirs w' !! schema_dir {| Path := d |} schema) as [x|] eqn:Hx'; [done|].
    destruct (Hgone _ Hx Hx') as [_ Hnone].
    destruct (law_schema_dir _ _ HL nowhere _ _ _ _ Hinst Ht Hin) as (_ & Hlive & _).
    unfold live_schema in Hnone. congruence.
Qed.

Lemma closed_mono w w' seen seen' (Q Q' : gset string) d :
  inv w Q →
  closed w seen Q d → step w w' Q' → inv w' Q' → Q ⊆ Q' → seen_le seen seen' →
  closed w' seen' Q' d.
Proof.
  intros Hinv0 (Hleaf & Hrep & Htr) Hstep Hinv Hsub Hle. split_and!; [done| |].
  - by apply (represented_mono w w' Q Q').
  - intros sd Hentry Hx. destruct Hstep as (Hnew & _). destruct (Hnew _ Hx) as [Hx0|Hin].
    + eapply tracked_mono; [done..|]. by apply Htr.
    + left. destruct Hinv as [_ Hq]. destruct (Hq _ Hin Hx) as [? _]. done.
Qed.

End Closure.

(** ** The first run *)

Section FirstRunTree.
Context (E : Env) (differs : Schema → Table → string → Prop).
Context (HL : Lawful E differs).

Local Abbreviation leaf := (leaf E).
Local Abbreviation inv := (inv E differs).
Local Abbreviation step := (step E).
Local Abbreviation tracked := (tracked E).
Local Abbreviation represented := (represented E).
Local Abbreviation closed := (closed E).
Local Abbreviation entry := (entry E).
Local Abbreviation settled := (settled E differs).
Local Abbreviation inner_only := (inner_only E).
Local Abbreviation first_run_post := (first_run_post E differs).
Local Abbreviation first_loop_post := (first_loop_post E differs).

Lemma discover_stop cfg t seenSchema schemas w tr w' tr' o :
  discover E cfg t seenSchema schemas w tr = (w', tr', Some o) → is_zero o = false.
Proof.
  revert w tr. induction schemas as [|s schemas IH]; intros w tr; simpl; [done|].
  destruct (negb (map_get seenSchema (Schema_Name s))); [|apply IH].
  destruct (PopulateSchemaDir E s _ _ true w) as [w1 ret].
  case_bool_decide as Hret; [|apply IH].
  intros [= <- _ <-]. simpl. by apply bool_decide_eq_false_2.
Qed.

Lemma discovery_stop cfg subdirs w tr w' tr' o :
  discovery E cfg subdirs w tr = (w', tr', Some o) → is_zero o = false.
Proof.
  unfold discovery. destruct (IsInstanceWithLeafSubdirs E w (Dir cfg)); [|done].
  destruct (Targets E w cfg) as [|t ts]; [by intros [= _ _ <-]|].
  apply discover_stop.
Qed.

Lemma seen_le_refl seen : seen_le seen seen.
Proof. by intros p. Qed.

Lemma seen_le_trans s1 s2 s3 : seen_le s1 s2 → seen_le s2 s3 → seen_le s1 s3.
Proof. intros H1 H2 p Hp. by apply H2, H1. Qed.

(** The loop over the subdirectories in the first run, given what the
    calls it makes achieve. *)
Lemma recurse_first (rec : Config → gmap string bool → World → list Event → option result) cfg :
  (∀ cfg seen w tr r Q,
     rec cfg seen w tr = Some r → res_outcome r = Ret 0 → inv w Q → inner_only seen →
     first_run_post (Path (Dir cfg)) seen w Q r) →
  ∀ subdirs seen w tr r Q,
    recurse rec cfg subdirs seen w tr = Some r → res_outcome r = Ret 0 →
    inv w Q → inner_only seen →
    first_loop_post subdirs seen w Q r.
Proof.
  intros Hrec. induction subdirs as [|sd subdirs IH]; intros seen w tr r Q; simpl.
  - intros [= <-] _ Hinv Hinner. exists Q. simpl.
    split_and!; [done|done|apply (step_refl E)|apply seen_le_refl|done| |by left].
    by intros sd ?%elem_of_nil.
  - destruct (map_get seen (Path sd)) eqn:Hseen; simpl.
    + intros H Hret Hinv Hinner.
      destruct (IH seen w tr r Q H Hret Hinv Hinner)
        as (Q' & Hsub & Hinv' & Hstep & Hle & Hinner' & Htr & Hcl).
      exists Q'. split_and!; [done..| |done].
      intros sd' [->|?]%elem_of_cons; [|by apply Htr].
      right. split; [by apply Hinner|by apply Hle].
    + destruct (rec (ChangeDir cfg sd) seen w tr) as [[o seen1 w1 tr1]|] eqn:Hcall; [|done].
      destruct (is_zero o) eqn:Hz; [|intros [= <-] Hret; simpl in Hret; by subst o].
      apply is_zero_true in Hz. subst o.
      intros H Hret Hinv Hinner.
      destruct (Hrec _ _ _ _ _ Q Hcall eq_refl Hinv Hinner)
        as (Q1 & Hsub1 & Hinv1 & Hstep1 & Hle1 & Hinner1 & Hleaf1 & Hnode1 & Hcl1).
      simpl in *.
      destruct (IH seen1 w1 tr1 r Q1 H Hret Hinv1 Hinner1)
        as (Q2 & Hsub2 & Hinv2 & Hstep2 & Hle2 & Hinner2 & Htr2 & Hcl2).
      exists Q2. split_and!.
      * by etrans.
      * done.
      * by eapply (step_trans E differs).
      * by eapply seen_le_trans.
      * done.
      * intros sd' [->|?]%elem_of_cons; [|by apply Htr2].
        destruct (leaf (Path sd)) eqn:Hl.
        -- left. split; [done|]. apply Hsub2. by apply Hleaf1.
        -- right. split; [done|]. by apply Hle2, Hnode1.
      * intros d Hd. destruct (Hcl2 d Hd) as [Hd1|?]; [|by right].
        destruct (Hcl1 d Hd1) as [?|Hc]; [by left|right].
        by eapply (closed_mono E differs HL _ _ _ _ Q1).
Qed.

(** What a call of the first run that returned 0 has achieved. *)
Lemma pull_first fuel :
  ∀ cfg seen w tr r Q,
    pull E fuel cfg seen w tr = Some r → res_outcome r = Ret 0 →
    inv w Q → inner_only seen →
    first_run_post (Path (Dir cfg)) seen w Q r.
Proof.
  induction fuel as [|fuel IH]; intros [[p]] seen w tr r Q; simpl; [done|].
  rewrite (IsLeaf_leaf E differs HL). simpl.
  destruct (leaf p) eqn:Hleaf.
  - destruct (pull_leaf E _ w tr) as [[o w'] tr'] eqn:Hrun.
    intros [= <-] Hret Hinv Hinner. simpl in *. subst o.
    destruct (pull_leaf_first E differs HL {| Dir := {| Path := p |} |} _ _ _ _ Q Hleaf Hinv Hrun)
      as (Hinv' & Hstep & Hset).
    simpl in *. exists (Q ∪ {[p]}). simpl.
    split_and!; [apply union_subseteq_l|done|done|apply seen_le_refl|done|
                 |by rewrite Hleaf|by left].
    intros _. split; [|done]. apply elem_of_union. right. by apply elem_of_singleton.
  - unfold pull_node, emit. simpl.
    destruct (Subdirs E w {| Path := p |}) as [subdirs|err] eqn:Hsub;
      [|by intros [= <-] Hret].
    destruct (discovery E _ subdirs w _) as [[w1 tr1] [o|]] eqn:Hdisc.
    { apply discovery_stop in Hdisc. intros [= <-] Hret. simpl in Hret. by subst o. }
    intros H Hret Hinv Hinner.
    destruct (discovery_first E differs HL p subdirs w _ w1 tr1 Q Hsub Hinv Hdisc)
      as (Q1 & Hsub1 & Hinv1 & Hstep1 & Hrep1 & Hkeep1).
    assert (Hinner1 : inner_only (<[p := true]> seen)).
    { intros q. rewrite map_get_insert. destruct (decide (p = q)) as [<-|?]; [done|].
      apply Hinner. }
    destruct (recurse_first (pull E fuel) _ IH subdirs _ w1 tr1 r Q1 H Hret Hinv1 Hinner1)
      as (Q2 & Hsub2 & Hinv2 & Hstep2 & Hle2 & Hinner2 & Htr2 & Hcl2).
    assert (Hstep : step w (res_world r) Q2) by (by eapply (step_trans E differs)).
    assert (Hp : map_get (res_seen r) p = true).
    { apply Hle2. rewrite map_get_insert. by destruct (decide (p = p)). }
    exists Q2. split_and!.
    + by etrans.
    + done.
    + done.
    + eapply seen_le_trans; [|done]. apply seen_le_insert.
    + done.
    + by rewrite Hleaf.
    + done.
    + intros d Hd. destruct (Hcl2 d Hd) as [Hd1|?]; [|by right].
      rewrite map_get_insert in Hd1. destruct (decide (p = d)) as [<-|Hne]; [|by left].
      right. split_and!; [done| |].
      * by eapply (represented_mono E differs HL _ _ Q1).
      * intros sd Hentry Hx. destruct Hstep as (Hnew & _).
        destruct (Hnew _ Hx) as [Hx0|Hin].
        -- apply Htr2. by eapply (entry_listed E differs HL).
        -- left. destruct Hinv2 as [_ Hq]. destruct (Hq _ Hin Hx) as [? _]. done.
Qed.

End FirstRunTree.

(** ** The second run *)

Section SecondRun.
Context (E : Env) (differs : Schema → Table → string → Prop).
Context (HL : Lawful E differs).

Local Abbreviation leaf := (leaf E).
Local Abbreviation live_schema := (live_schema E).
Local Abbreviation quiet := (quiet E differs).
Local Abbreviation inv := (inv E differs).
Local Abbreviation tracked := (tracked E).
Local Abbreviation represented := (represented E).
Local Abbreviation closed := (closed E).
Local Abbreviation entry := (entry E).

(** The world [w1] the first run has left, with its seen-set and leaves. *)
Context (w1 : World) (seen1 : gmap string bool) (Q1 : gset string).
Context (Hinv1 : inv w1 Q1).
Context (Hclosed1 : ∀ d, map_get seen1 d = true → closed w1 seen1 Q1 d).
Local Abbreviation good := (good E differs w1 seen1).

Lemma tracked_good p : tracked seen1 Q1 p → is_Some (dirs w1 !! p) → good p.
Proof.
  intros [[Hl Hin]|[Hl Hs]] Hx; [left|by right].
  split; [done|]. destruct Hinv1 as [_ Hq]. by apply Hq.
Qed.

(** The second loop of the instance branch makes nothing in the second
    run. *)
Lemma discover_quiet d t ts l schemas w tr w' tr' o :
  map_get seen1 d = true →
  same_store w w1 →
  IsInstanceWithLeafSubdirs E nowhere {| Path := d |} = true →
  Targets E nowhere {| Dir := {| Path := d |} |} = t :: ts →
  Subdirs E w {| Path := d |} = inl l →
  (∀ s, s ∈ schemas → s ∈ Target_Schemas E nowhere t) →
  discover E {| Dir := {| Path := d |} |} t (seenSchema_of w l) schemas w tr = (w', tr', o) →
  w' = w.
Proof.
  intros Hd [Hf Hdirs] Hinst Ht Hl. destruct (Hclosed1 d Hd) as (_ & Hrep & _).
  revert tr. induction schemas as [|s schemas IH]; intros tr Hall; simpl.
  - by intros [= <- _ _].
  - assert (Hrest : ∀ s0, s0 ∈ schemas → s0 ∈ Target_Schemas E nowhere t)
      by (intros; apply Hall; by right).
    destruct (map_get (seenSchema_of w l) (Schema_Name s)) eqn:Hseen; simpl; [by apply IH|].
    assert (Hx : is_Some (dirs w !! schema_dir {| Path := d |} s)).
    { destruct (Hrep Hinst t ts s Ht) as [(sd & skf & Hentry & Hskf & Hname)|Hx];
        [apply Hall; by left| |by rewrite Hdirs].
      assert (map_get (seenSchema_of w l) (Schema_Name s) = true); [|congruence].
      apply (seenSchema_of_true). exists sd, skf. split_and!; [| |done].
      - eapply (entry_listed E differs HL); [done| |done].
        rewrite Hdirs. by eapply SkeemaFile_exists.
      - rewrite <- Hskf. apply SkeemaFile_dirs. by rewrite Hdirs. }
    unfold PopulateSchemaDir. simpl.
    destruct (mkdir_error E w _) eqn:Hmk.
    + rewrite bool_decide_eq_true_2 by done. by intros [= <- _ _].
    + apply (law_mkdir _ _ HL) in Hmk. simpl in Hmk. destruct Hx as [x Hx].
      unfold schema_dir in Hx. simpl in Hx. congruence.
Qed.

Lemma discovery_quiet d l w tr w' tr' o :
  map_get seen1 d = true →
  same_store w w1 →
  Subdirs E w {| Path := d |} = inl l →
  discovery E {| Dir := {| Path := d |} |} l w tr = (w', tr', o) →
  w' = w.
Proof.
  intros Hd Hsame Hl. unfold discovery. simpl.
  rewrite (law_IsInstance _ _ HL w nowhere), (law_Targets _ _ HL w nowhere).
  destruct (IsInstanceWithLeafSubdirs E nowhere {| Path := d |}) eqn:Hinst;
    [|by intros [= <- _ _]].
  destruct (Targets E nowhere _) as [|t ts] eqn:Ht; [by intros [= <- _ _]|].
  rewrite (law_Target_Schemas _ _ HL w nowhere).
  by apply (discover_quiet d t ts).
Qed.

(** The loop over the subdirectories changes nothing when the calls it
    makes change nothing. *)
Lemma recurse_quiet (rec : Config → gmap string bool → World → list Event → option result) cfg :
  (∀ cfg seen w tr r,
     same_store w w1 → good (Path (Dir cfg)) → rec cfg seen w tr = Some r →
     same_store (res_world r) w1) →
  ∀ subdirs seen w tr r,
    (∀ sd, sd ∈ subdirs → good (Path sd)) →
    same_store w w1 →
    recurse rec cfg subdirs seen w tr = Some r →
    same_store (res_world r) w1.
Proof.
  intros Hrec. induction subdirs as [|sd subdirs IH]; intros seen w tr r Hgood Hsame; simpl.
  - by intros [= <-].
  - assert (Hrest : ∀ sd0, sd0 ∈ subdirs → good (Path sd0)) by (intros; apply Hgood; by right).
    destruct (negb (map_get seen (Path sd))); [|by apply IH].
    destruct (rec (ChangeDir cfg sd) seen w tr) as [[o seen' w' tr']|] eqn:Hcall; [|done].
    assert (same_store w' w1) as Hsame'.
    { apply (Hrec _ _ _ _ _ Hsame) in Hcall; [done|]. apply Hgood. by left. }
    destruct (is_zero o); [by apply IH|]. by intros [= <-].
Qed.

(** A call of the second run changes neither file nor directory. *)
Lemma pull_quiet fuel :
  ∀ cfg seen w tr r,
    same_store w w1 → good (Path (Dir cfg)) → pull E fuel cfg seen w tr = Some r →
    same_store (res_world r) w1.
Proof.
  induction fuel as [|fuel IH]; intros [[p]] seen w tr r Hsame Hgood; simpl; [done|].
  rewrite (IsLeaf_leaf E differs HL). simpl in *.
  destruct Hgood as [[Hleaf Hquiet]|[Hleaf Hseen]]; rewrite Hleaf.
  - destruct (pull_leaf E _ w tr) as [[o w'] tr'] eqn:Hrun. intros [= <-]. simpl.
    destruct Hsame as [Hf Hd].
    apply (pull_leaf_quiet E differs HL) in Hrun as [Hf' Hd'].
    + split; congruence.
    + simpl. apply (quiet_files E differs w1); [|done]. intros f. by rewrite Hf.
  - unfold pull_node, emit. simpl.
    destruct (Subdirs E w {| Path := p |}) as [l|err] eqn:Hl; [|by intros; simplify_eq].
    destruct (discovery E _ l w _) as [[w' tr'] o] eqn:Hdisc.
    apply (discovery_quiet p) in Hdisc; [|done..]. subst w'.
    destruct o as [o|]; [by intros; simplify_eq|].
    apply (recurse_quiet _ _ IH); [|done].
    intros sd Hin. destruct (Hclosed1 p Hseen) as (_ & _ & Htr).
    assert (is_Some (dirs w1 !! Path sd)) as Hx.
    { destruct Hsame as [_ <-]. by eapply law_listed. }
    apply tracked_good; [|done]. apply Htr; [|done]. by exists w, l.
Qed.

End SecondRun.

Section Idempotence.
Context (E : Env) (differs : Schema → Table → string → Prop).

(** The second loop of the instance branch makes a directory only for a
    schema whose name it has not seen. *)
Lemma discover_calls cfg t seenSchema schemas w tr w' tr' o :
  discover E cfg t seenSchema schemas w tr = (w', tr', o) →
  ∃ evs, tr' = tr ++ evs ∧
    ∀ e, e ∈ evs →
      ∃ schema, e = CallPopulateSchemaDir schema (Dir cfg)
                ∧ map_get seenSchema (Schema_Name schema) = false.
Proof.
  revert w tr. induction schemas as [|s schemas IH]; intros w tr; simpl.
  - intros [= _ <- _]. exists []. rewrite app_nil_r. split; [done|]. by intros e ?%elem_of_nil.
  - destruct (map_get seenSchema (Schema_Name s)) eqn:Hseen; simpl; [apply IH|].
    destruct (PopulateSchemaDir E s _ _ true w) as [w1 ret].
    assert (Hhead : ∀ e, e ∈ [CallPopulateSchemaDir s (Dir cfg)] →
      ∃ schema, e = CallPopulateSchemaDir schema (Dir cfg)
                ∧ map_get seenSchema (Schema_Name schema) = false).
    { intros e ->%list_elem_of_singleton. by exists s. }
    case_bool_decide.
    + intros [= _ <- _]. by eexists.
    + intros Hrest. apply IH in Hrest as (evs & -> & Hevs).
      exists (CallPopulateSchemaDir s (Dir cfg) :: evs). unfold emit.
      rewrite <- app_assoc. split; [done|].
      intros e [->|?]%elem_of_cons; [by exists s|by apply Hevs].
Qed.


End Idempotence.

(** ** Every directory is listed once *)

Section Listings.
Context (E : Env).

Lemma listings_app tr evs : listings (tr ++ evs) = listings tr ++ listings evs.
Proof. apply omap_app. Qed.

Local Ltac cases H :=
  repeat match type of H with
         | match ?x with _ => _ end = _ => destruct x
         | (let (_, _) := ?x in _) = _ => destruct x
         end.

Lemma applyTableDiff_listings cfg t to td w tr w' tr' o :
  applyTableDiff E cfg t to td w tr = (w', tr', o) → listings tr' = listings tr.
Proof.
  unfold applyTableDiff, emit. intros H. cases H; simplify_eq;
    rewrite ?listings_app; simpl; by rewrite ?app_nil_r.
Qed.

Lemma applyTableDiffs_listings cfg t to diffs w tr w' tr' o :
  applyTableDiffs E cfg t to diffs w tr = (w', tr', o) → listings tr' = listings tr.
Proof.
  revert w tr. induction diffs as [|td diffs IH]; intros w tr; simpl; [by intros [= _ <- _]|].
  destruct (applyTableDiff E cfg t to td w tr) as [[w1 tr1] [o1|]] eqn:H1;
    apply applyTableDiff_listings in H1.
  - by intros [= _ <- _].
  - intros H. apply IH in H. congruence.
Qed.

(** A leaf call lists nothing. *)
Lemma pull_leaf_listings cfg w tr o w' tr' :
  pull_leaf E cfg w tr = (o, w', tr') → listings tr' = listings tr.
Proof.
  unfold pull_leaf, emit. intros H.
  destruct (Targets E w cfg) as [|t ts]; [injection H as _ _ <-; rewrite listings_app; simpl; by rewrite app_nil_r|].
  destruct (SchemaNames t) as [|name names]; [injection H as _ _ <-; rewrite listings_app; simpl; by rewrite app_nil_r|].
  destruct (Target_Schema E w t name) as [to|].
  - destruct (PopulateTemporarySchema E cfg w) as [w1 [err|]].
    + injection H as _ _ <-. rewrite !listings_app. simpl. by rewrite !app_nil_r.
    + destruct (applyTableDiffs E cfg t to _ w1 _) as [[w2 tr2] [o2|]] eqn:Hloop;
        apply applyTableDiffs_listings in Hloop; rewrite !listings_app in Hloop;
        simpl in Hloop; rewrite !app_nil_r in Hloop.
      * by injection H as _ _ <-.
      * destruct (DropTemporarySchema E cfg w2) as [w3 [err|]]; injection H as _ _ <-;
          rewrite !listings_app; simpl; by rewrite !app_nil_r.
  - destruct (Dir_Delete E (Dir cfg) w) as [w1 [err|]]; injection H as _ _ <-;
      rewrite !listings_app; simpl; by rewrite !app_nil_r.
Qed.

Lemma discover_listings cfg t seenSchema schemas w tr w' tr' o :
  discover E cfg t seenSchema schemas w tr = (w', tr', o) → listings tr' = listings tr.
Proof.
  revert w tr. induction schemas as [|s schemas IH]; intros w tr; simpl; [by intros [= _ <- _]|].
  destruct (negb (map_get seenSchema (Schema_Name s))); [|apply IH].
  destruct (PopulateSchemaDir E s _ _ true w) as [w1 ret].
  case_bool_decide as Hret.
  - intros [= _ <- _]. unfold emit. rewrite listings_app. simpl. by rewrite app_nil_r.
  - intros H. apply IH in H. rewrite H. unfold emit. rewrite listings_app. simpl.
    by rewrite app_nil_r.
Qed.

Lemma discovery_listings cfg subdirs w tr w' tr' o :
  discovery E cfg subdirs w tr = (w', tr', o) → listings tr' = listings tr.
Proof.
  unfold discovery. destruct (IsInstanceWithLeafSubdirs E w (Dir cfg)); [|by intros [= _ <- _]].
  destruct (Targets E w cfg) as [|t ts]; [by intros [= _ <- _]|]. apply discover_listings.
Qed.

Lemma recurse_listings (rec : Config → gmap string bool → World → list Event → option result) cfg :
  (∀ cfg seen w tr r,
     NoDup (listings tr) → marks seen tr → map_get seen (Path (Dir cfg)) = false →
     rec cfg seen w tr = Some r → listed_once r) →
  ∀ subdirs seen w tr r,
    NoDup (listings tr) → marks seen tr →
    recurse rec cfg subdirs seen w tr = Some r → listed_once r.
Proof.
  intros Hrec. induction subdirs as [|sd subdirs IH]; intros seen w tr r Hnd Hm; simpl.
  - intros [= <-]. split_and!; simpl; [done|by intros p ?%Hm|by intros _ p ?%Hm].
  - destruct (map_get seen (Path sd)) eqn:Hseen; simpl; [by apply IH|].
    destruct (rec (ChangeDir cfg sd) seen w tr) as [[o seen' w' tr']|] eqn:Hcall; [|done].
    apply Hrec in Hcall as (Hnd' & Hj & Hi); [|done..]. simpl in *.
    destruct (is_zero o) eqn:Ho.
    + apply IH; [done|]. intros p. split; [apply Hj|by apply Hi].
    + intros [= <-]. split_and!; simpl; [done|done|]. by rewrite Ho.
Qed.

Lemma pull_listings fuel :
  ∀ cfg seen w tr r,
    NoDup (listings tr) → marks seen tr → map_get seen (Path (Dir cfg)) = false →
    pull E fuel cfg seen w tr = Some r → listed_once r.
Proof.
  induction fuel as [|fuel IH]; intros cfg seen w tr r Hnd Hm Hseen; simpl; [done|].
  destruct (IsLeaf E w (Dir cfg)).
  - destruct (pull_leaf E cfg w tr) as [[o w'] tr'] eqn:Hleaf.
    apply pull_leaf_listings in Hleaf. intros [= <-]. unfold listed_once. simpl.
    rewrite Hleaf. split_and!; [done|by intros p ?%Hm|by intros _ p ?%Hm].
  - unfold pull_node, emit.
    assert (Hnew : Path (Dir cfg) ∉ listings tr).
    { intros Hin%Hm. congruence. }
    assert (Hl : listings (tr ++ [CallSubdirs (Dir cfg)]) = listings tr ++ [Path (Dir cfg)]).
    { by rewrite listings_app. }
    assert (Hnd1 : NoDup (listings tr ++ [Path (Dir cfg)])).
    { apply NoDup_app. split_and!; [done| |apply NoDup_singleton].
      intros p Hp ->%list_elem_of_singleton. done. }
    destruct (Subdirs E w (Dir cfg)) as [subdirs|err].
    + destruct (discovery E cfg subdirs w _) as [[w1 tr1] o] eqn:Hdisc.
      pose proof (discovery_listings _ _ _ _ _ _ _ Hdisc) as Hl1. rewrite Hl in Hl1.
      destruct o as [o|].
      * intros [= <-]. unfold listed_once. simpl. rewrite Hl1.
        split_and!; [done| |].
        -- intros p Hp%Hm. apply elem_of_app. by left.
        -- intros Hz. apply discovery_stop in Hdisc. congruence.
      * apply (recurse_listings _ _ IH); [by rewrite Hl1|].
        intros p. rewrite Hl1, map_get_insert, elem_of_app, list_elem_of_singleton.
        destruct (decide (Path (Dir cfg) = p)) as [->|Hne].
        -- split; [by right|done].
        -- split; [intros Hp%Hm; by left|]. intros [Hp%Hm|?]; [done|congruence].
    + intros [= <-]. unfold listed_once. simpl. rewrite listings_app, Hl. simpl.
      rewrite app_nil_r. split_and!; [done| |done].
      intros p Hp%Hm. apply elem_of_app. by left.
Qed.

(** X2. Within one run of [PullCommand], no directory has its subdirectories
    listed twice, whatever links the tree holds: an inner directory is
    entered only while its path is not in the seen-set, and is put there
    before any of its subdirectories is entered. *)
Theorem directory_listed_at_most_once fuel cfg w r :
  PullCommand E fuel cfg w = Some r → NoDup (listings (res_trace r)).
Proof.
  intros H. apply pull_listings in H as [Hnd _]; [done|apply NoDup_nil_2| |done].
  intros p. unfold map_get. rewrite lookup_empty. simpl. split; [done|by intros ?%elem_of_nil].
Qed.

(** X3. The seen-set of a run holds only directories whose subdirectories the
    run has listed; after a run that returned 0 it holds all of them. *)
Theorem seen_is_what_was_listed fuel cfg w r :
  PullCommand E fuel cfg w = Some r →
  (∀ p, map_get (res_seen r) p = true → p ∈ listings (res_trace r))
  ∧ (res_outcome r = Ret 0 →
     ∀ p, p ∈ listings (res_trace r) → map_get (res_seen r) p = true).
Proof.
  intros H. apply pull_listings in H as (_ & Hj & Hi); [|apply NoDup_nil_2| |done].
  - split; [done|]. intros Ho. apply Hi. by rewrite Ho.
  - intros p. unfold map_get. rewrite lookup_empty. simpl. split; [done|by intros ?%elem_of_nil].
Qed.

End Listings.

(** ** Failures that end the run *)

Section Aborts.
Context (E : Env).

(** X4. A directory whose subdirectories cannot be listed, inside any number
    of enclosing calls: the call prints the error and returns 1 having
    changed nothing, and so does the outermost call; the directory is not
    put in the seen-set. *)
Theorem listing_error_aborts n top fuel cfg seen w tr err :
  encloses E n top (S fuel) (Call cfg seen w tr) →
  IsLeaf E w (Dir cfg) = false →
  Subdirs E w (Dir cfg) = inr err →
  run_call E n top =
    Some (Result (Ret 1) seen w
            (tr ++ [CallSubdirs (Dir cfg); PrintUnableList (Dir cfg) err])).
Proof.
  intros Hencl Hleaf Hsub. eapply encloses_stops; [done| |done].
  unfold run_call, pull_node, emit. simpl. rewrite Hleaf. unfold pull_node, emit.
  rewrite Hsub. by rewrite <- app_assoc.
Qed.

(** X5. A leaf whose temporary schema cannot be populated: the call prints
    the error and returns 1, and so does the outermost call.  No diff is
    computed, no file operation is made and nothing is cleaned up: the
    world is what it was. *)
Theorem populate_error_aborts n top fuel cfg seen w tr t ts name names to err :
  encloses E n top (S fuel) (Call cfg seen w tr) →
  IsLeaf E w (Dir cfg) = true →
  Targets E w cfg = t :: ts →
  SchemaNames t = name :: names →
  Target_Schema E w t name = Some to →
  populate_error E w cfg = Some err →
  run_call E n top =
    Some (Result (Ret 1) seen w
            (tr ++ [PrintUpdating (Path (Dir cfg)); CallPopulateTemporarySchema (Dir cfg);
                    PrintUnablePopulate err])).
Proof.
  intros Hencl Hleaf Ht Hn Hs Hp. eapply encloses_stops; [done| |done].
  unfold run_call. simpl. rewrite Hleaf.
  unfold pull_leaf, PopulateTemporarySchema, emit. rewrite Ht, Hn, Hs, Hp.
  by rewrite <- !app_assoc.
Qed.

(** X6. A leaf whose configuration resolves to no target, or whose first
    target names no schema: indexing the empty list panics right after
    the first line is printed, before anything is read or changed, and
    the panic ends every enclosing call; the status of the process is 2. *)
Theorem leaf_without_target_panics n top fuel cfg seen w tr :
  encloses E n top (S fuel) (Call cfg seen w tr) →
  IsLeaf E w (Dir cfg) = true →
  Targets E w cfg = [] ∨ (∃ t ts, Targets E w cfg = t :: ts ∧ SchemaNames t = []) →
  run_call E n top =
    Some (Result (Panic IndexOutOfRange) seen w (tr ++ [PrintUpdating (Path (Dir cfg))]))
  ∧ exit_status (Panic IndexOutOfRange) = 2.
Proof.
  intros Hencl Hleaf Hnone. split; [|done]. eapply encloses_stops; [done| |done].
  unfold run_call. simpl. rewrite Hleaf. unfold pull_leaf, emit.
  destruct Hnone as [->|(t & ts & -> & ->)]; done.
Qed.

(** X7. An instance directory whose configuration resolves to no target:
    indexing the empty list panics after the listing, before any schema
    directory is made and before any subdirectory is entered. *)
Theorem instance_without_target_panics n top fuel cfg seen w tr subdirs :
  encloses E n top (S fuel) (Call cfg seen w tr) →
  IsLeaf E w (Dir cfg) = false →
  Subdirs E w (Dir cfg) = inl subdirs →
  IsInstanceWithLeafSubdirs E w (Dir cfg) = true →
  Targets E w cfg = [] →
  run_call E n top =
    Some (Result (Panic IndexOutOfRange) seen w (tr ++ [CallSubdirs (Dir cfg)])).
Proof.
  intros Hencl Hleaf Hsub Hinst Ht. eapply encloses_stops; [done| |done].
  unfold run_call. simpl. rewrite Hleaf. unfold pull_node, discovery, emit.
  by rewrite Hsub, Hinst, Ht.
Qed.

(** X8. A diff entry of a type the switch does not know, with the entries
    before it gone through: the leaf call panics with the message that
    names the type, in the state those entries left; the entries after it
    are not looked at, the temporary schema is not dropped, and the panic
    ends every enclosing call. *)
Theorem unsupported_diff_is_fatal n top fuel cfg seen w tr t to pre type_name post w1 tr1 :
  encloses E n top (S fuel) (Call cfg seen w tr) →
  IsLeaf E w (Dir cfg) = true →
  diff_phase E cfg w = Some (t, to, pre ++ OtherDiff type_name :: post) →
  applyTableDiffs E cfg t to pre (set_temp_schema (Some (Path (Dir cfg))) w)
    (diff_phase_trace cfg to tr) = (w1, tr1, None) →
  run_call E n top =
    Some (Result (Panic (PanicError (Error ("Unsupported diff type " +:+ type_name +:+ "
")))) seen w1 tr1)
  ∧ temp_schema w1 = Some (Path (Dir cfg)).
Proof.
  intros Hencl Hleaf Hphase Hloop. split.
  - eapply encloses_stops; [done| |done].
    eapply pull_leaf_stopped; [done..|]. by rewrite applyTableDiffs_app, Hloop.
  - by apply applyTableDiffs_frame in Hloop as (_ & -> & _).
Qed.

(** An entry that ends the loop with 1 has changed nothing. *)
Lemma applyTableDiff_failed cfg t to td w tr w' tr' :
  applyTableDiff E cfg t to td w tr = (w', tr', Some (Ret 1)) →
  w' = w
  ∧ ∃ sf err,
      SQLFile_Dir sf = Dir cfg
      ∧ (tr' = tr ++ [CallDelete sf; PrintUnableDelete (SQLFile_Path sf) err]
         ∨ ∃ to' table,
             tr' = tr ++ [CallShowCreateTable to' table; CallWrite sf;
                          PrintUnableWrite (SQLFile_Path sf) err]).
Proof.
  unfold applyTableDiff, emit. intros H.
  destruct td as [table|table|table|table|type_name]; [| | |done|done].
  - destruct (ShowCreateTable E w _ to table) as [text|err]; [|done].
    destruct (SQLFile_Write E _ w) as [w1 [len|err]] eqn:Hw; [done|].
    apply SQLFile_Write_spec in Hw as (_ & _ & -> & _). injection H as <- <-.
    split; [done|]. eexists _, err. split; [|right; eexists _, _; by rewrite <- !app_assoc]. done.
  - destruct (SQLFile_Delete E _ w) as [w1 [err|]] eqn:Hd; [|done].
    apply SQLFile_Delete_spec in Hd as (_ & _ & ->). injection H as <- <-.
    split; [done|]. eexists _, err. split; [|left; by rewrite <- !app_assoc]. done.
  - destruct (ShowCreateTable E w _ to table) as [text|err]; [|done].
    destruct (SQLFile_Write E _ w) as [w1 [len|err]] eqn:Hw; [done|].
    apply SQLFile_Write_spec in Hw as (_ & _ & -> & _). injection H as <- <-.
    split; [done|]. eexists _, err. split; [|right; eexists _, _; by rewrite <- !app_assoc]. done.
Qed.


End Aborts.

(** ** What a leaf does with the other entries *)

Section LeafEntries.
Context (E : Env).

(** X10. A Drop entry the loop of a leaf gets to, for a table whose file
    is there and can be deleted: [pull] deletes the file [<table>.sql] of
    the directory and prints that it did, without asking the instance for
    a definition; the entry leaves the store without that file and every
    directory as it was.  The call returns with these two events in its
    trace, right after those of the earlier entries, and the file is still
    gone at the end of the call unless a later entry is about a table of
    that name. *)
Theorem drop_deletes_file fuel cfg seen w tr t to pre table post w1 tr1 text :
  let sf := {| SQLFile_Dir := Dir cfg;
               FileName := Table_Name table +:+ ".sql";
               Contents := "" |} in
  let evs := [CallDelete sf; PrintDeletedFile (SQLFile_Path sf)] in
  IsLeaf E w (Dir cfg) = true →
  diff_phase E cfg w = Some (t, to, pre ++ DropTable table :: post) →
  applyTableDiffs E cfg t to pre (set_temp_schema (Some (Path (Dir cfg))) w)
    (diff_phase_trace cfg to tr) = (w1, tr1, None) →
  files w1 !! (Path (Dir cfg), Table_Name table +:+ ".sql") = Some text →
  delete_error E w1 sf = None →
  applyTableDiff E cfg t to (DropTable table) w1 tr1 =
    (set_files (delete (Path (Dir cfg), Table_Name table +:+ ".sql") (files w1)) w1,
     tr1 ++ evs, None)
  ∧ (∃ r rest,
       pull E (S fuel) cfg seen w tr = Some r
       ∧ res_trace r = tr1 ++ evs ++ rest
       ∧ ((∀ td table', td ∈ post → diff_table td = Some table' →
                        Table_Name table' ≠ Table_Name table) →
          files (res_world r) !! (Path (Dir cfg), Table_Name table +:+ ".sql") = None))
  ∧ SQLFile_Path sf = Path (Dir cfg) +:+ "/" +:+ Table_Name table +:+ ".sql".
Proof.
  intros sf evs Hleaf Hphase Hpre Hfile Hdel.
  assert (Htd : applyTableDiff E cfg t to (DropTable table) w1 tr1 =
    (set_files (delete (Path (Dir cfg), Table_Name table +:+ ".sql") (files w1)) w1,
     tr1 ++ evs, None)).
  { simpl. unfold emit, SQLFile_Delete. fold sf. unfold SQLFile_key at 1. simpl.
    rewrite Hfile, Hdel. by rewrite <- !app_assoc. }
  split_and!; [done| |done].
  destruct (pull_leaf_after_entry E fuel cfg seen w tr t to pre _ post w1 tr1 _ _
              Hleaf Hphase Hpre Htd) as (r & rest & Hrun & _ & Htr & _ & Hf).
  exists r, rest. split_and!; [done|by rewrite Htr, <- app_assoc|].
  intros Hpost. rewrite Hf; [apply lookup_delete_eq|].
  intros td table' Hin Htab [= Heq]. apply string_app_inj_r in Heq. by eapply Hpost.
Qed.

(** X11. An Alter entry the loop of a leaf gets to, for a table whose
    definition the instance renders and whose file can be written: [pull]
    overwrites the file [<table>.sql] of the directory with exactly the
    rendered text, whatever it held, and prints the length of that text.
    The call returns with these three events in its trace, right after
    those of the earlier entries, and the file holds the rendered text at
    the end of the call unless a later entry is about a table of that
    name. *)
Theorem alter_overwrites_file fuel cfg seen w tr t to pre table post w1 tr1 createStmt :
  let sf := {| SQLFile_Dir := Dir cfg;
               FileName := Table_Name table +:+ ".sql";
               Contents := createStmt |} in
  let evs := [CallShowCreateTable to table; CallWrite sf;
              PrintWroteAltered (SQLFile_Path sf) (Z.of_nat (String.length createStmt))] in
  IsLeaf E w (Dir cfg) = true →
  diff_phase E cfg w = Some (t, to, pre ++ AlterTable table :: post) →
  applyTableDiffs E cfg t to pre (set_temp_schema (Some (Path (Dir cfg))) w)
    (diff_phase_trace cfg to tr) = (w1, tr1, None) →
  ShowCreateTable E w1 (Target_Instance t) to table = inl createStmt →
  write_error E w1 sf = None →
  applyTableDiff E cfg t to (AlterTable table) w1 tr1 =
    (set_files (<[(Path (Dir cfg), Table_Name table +:+ ".sql") := createStmt]> (files w1)) w1,
     tr1 ++ evs, None)
  ∧ ∃ r rest,
      pull E (S fuel) cfg seen w tr = Some r
      ∧ res_trace r = tr1 ++ evs ++ rest
      ∧ ((∀ td table', td ∈ post → diff_table td = Some table' →
                       Table_Name table' ≠ Table_Name table) →
         files (res_world r) !! (Path (Dir cfg), Table_Name table +:+ ".sql")
           = Some createStmt).
Proof.
  intros sf evs Hleaf Hphase Hpre Hshow Hwrite.
  assert (Htd : applyTableDiff E cfg t to (AlterTable table) w1 tr1 =
    (set_files (<[(Path (Dir cfg), Table_Name table +:+ ".sql") := createStmt]> (files w1)) w1,
     tr1 ++ evs, None)).
  { simpl. unfold emit, SQLFile_Write. rewrite Hshow. fold sf. rewrite Hwrite.
    by rewrite <- !app_assoc. }
  split; [done|].
  destruct (pull_leaf_after_entry E fuel cfg seen w tr t to pre _ post w1 tr1 _ _
              Hleaf Hphase Hpre Htd) as (r & rest & Hrun & _ & Htr & _ & Hf).
  exists r, rest. split_and!; [done|by rewrite Htr, <- app_assoc|].
  intros Hpost. rewrite Hf; [apply lookup_insert_eq|].
  intros td table' Hin Htab [= Heq]. apply string_app_inj_r in Heq. by eapply Hpost.
Qed.

(** X12. A leaf whose loop over the diff entries runs to its end: the temporary
    schema is dropped then, once and after the last file operation, and
    [pull] returns 0.  When dropping it fails, [pull] prints the error and
    returns 1, and what the entries wrote and deleted stays. *)
Theorem finished_loop_drops_temporary_schema fuel cfg seen w tr t to diffs w1 tr1 :
  IsLeaf E w (Dir cfg) = true →
  diff_phase E cfg w = Some (t, to, diffs) →
  applyTableDiffs E cfg t to diffs (set_temp_schema (Some (Path (Dir cfg))) w)
    (diff_phase_trace cfg to tr) = (w1, tr1, None) →
  match drop_error E w1 cfg with
  | None =>
      pull E (S fuel) cfg seen w tr =
        Some (Result (Ret 0) seen (set_temp_schema None w1)
                (tr1 ++ [CallDropTemporarySchema (Dir cfg)]))
  | Some err =>
      pull E (S fuel) cfg seen w tr =
        Some (Result (Ret 1) seen w1
                (tr1 ++ [CallDropTemporarySchema (Dir cfg); PrintUnableCleanup err]))
  end
  ∧ temp_schema w1 = Some (Path (Dir cfg))
  ∧ ∃ evs, tr1 = tr ++ evs ∧ CallDropTemporarySchema (Dir cfg) ∉ evs.
Proof.
  intros Hleaf Hphase Hloop. split_and!.
  - simpl. rewrite Hleaf, (pull_leaf_diff_phase E _ _ _ _ _ _ Hphase), Hloop.
    unfold DropTemporarySchema, emit. destruct (drop_error E w1 cfg); [|done].
    by rewrite <- app_assoc.
  - by apply applyTableDiffs_frame in Hloop as (_ & -> & _).
  - apply applyTableDiffs_frame in Hloop as (_ & _ & evs & -> & _ & Hn & _).
    unfold diff_phase_trace. rewrite <- app_assoc. eexists. split; [done|].
    intros [He|He]%elem_of_app.
    + repeat (apply elem_of_cons in He as [?|He]; [done|]). by apply elem_of_nil in He.
    + by apply Hn in He.
Qed.

Lemma under_refl p : under p p = true.
Proof. unfold under. by rewrite bool_decide_eq_true_2. Qed.

(** X13. A call for a leaf stays in its directory: outside the directory and
    what lies below it, every file and every directory is afterwards what
    it was; the seen-set is what it was, and no directory is listed, so the
    call descends nowhere.  When the schema of the leaf is live, no
    directory changes at all, and of the files only those right in the
    directory can. *)
Theorem leaf_call_stays_in_its_directory fuel cfg seen w tr r :
  IsLeaf E w (Dir cfg) = true →
  pull E fuel cfg seen w tr = Some r →
  (∀ q f, under (Path (Dir cfg)) q = false →
          files (res_world r) !! (q, f) = files w !! (q, f))
  ∧ (∀ q, under (Path (Dir cfg)) q = false → dirs (res_world r) !! q = dirs w !! q)
  ∧ res_seen r = seen
  ∧ listings (res_trace r) = listings tr
  ∧ (is_Some (leaf_schema E w cfg) →
     dirs (res_world r) = dirs w
     ∧ ∀ q f, q ≠ Path (Dir cfg) → files (res_world r) !! (q, f) = files w !! (q, f)).
Proof.
  intros Hleaf. destruct fuel as [|fuel]; [done|]. simpl. rewrite Hleaf.
  destruct (pull_leaf E cfg w tr) as [[o w'] tr'] eqn:Hrun. intros [= <-]. simpl.
  pose proof (pull_leaf_listings E _ _ _ _ _ _ Hrun) as Hl.
  assert (Hlive : is_Some (leaf_schema E w cfg) →
    dirs w' = dirs w ∧ ∀ q f, q ≠ Path (Dir cfg) → files w' !! (q, f) = files w !! (q, f)).
  { unfold leaf_schema. intros [to Hto]. unfold pull_leaf, emit in Hrun.
    destruct (Targets E w cfg) as [|t ts]; [done|].
    destruct (SchemaNames t) as [|name names]; [done|]. rewrite Hto in Hrun.
    unfold PopulateTemporarySchema in Hrun.
    destruct (populate_error E w cfg); [by injection Hrun as _ <- _|].
    destruct (applyTableDiffs E cfg t to _ _ _) as [[w1 tr1] o1] eqn:Hloop.
    assert (dirs w' = dirs w1 ∧ files w' = files w1) as [-> ->].
    { destruct o1; [by injection Hrun as _ <- _|]. unfold DropTemporarySchema in Hrun.
      by destruct (drop_error E w1 cfg); injection Hrun as _ <- _. }
    split.
    - by apply applyTableDiffs_frame in Hloop as (-> & _).
    - intros q f Hq. by rewrite (applyTableDiffs_elsewhere E _ _ _ _ _ _ _ _ _ q f Hloop Hq). }
  destruct (leaf_schema E w cfg) as [to|] eqn:Hschema.
  - destruct Hlive as [Hd Hf]; [done|]. split_and!; [|by intros; rewrite Hd|done..|done].
    intros q f Hq. apply Hf. intros ->. by rewrite under_refl in Hq.
  - split_and!; [| |done|done|by intros [? ?]].
    all: unfold leaf_schema in Hschema; unfold pull_leaf, emit in Hrun;
      destruct (Targets E w cfg) as [|t ts]; [by injection Hrun as _ <- _|];
      destruct (SchemaNames t) as [|name names]; [by injection Hrun as _ <- _|];
      rewrite Hschema in Hrun; unfold Dir_Delete in Hrun;
      destruct (dir_delete_error E w (Dir cfg)); injection Hrun as _ <- _; [done|]; simpl.
    + intros q f Hq. destruct (files w !! (q, f)) as [x|] eqn:Hx.
      * by apply map_lookup_filter_Some.
      * apply map_lookup_filter_None. by left.
    + intros q Hq. destruct (dirs w !! q) as [x|] eqn:Hx.
      * by apply map_lookup_filter_Some.
      * apply map_lookup_filter_None. by left.
Qed.

End LeafEntries.

(** ** What discovery asks for *)

Section DiscoveryCalls.
Context (E : Env).

Lemma discover_trace cfg t seenSchema schemas w tr w' tr' :
  discover E cfg t seenSchema schemas w tr = (w', tr', None) →
  tr' = tr ++ ((λ s, CallPopulateSchemaDir s (Dir cfg)) <$>
                 filter (λ s, map_get seenSchema (Schema_Name s) = false) schemas).
Proof.
  revert w tr. induction schemas as [|s schemas IH]; intros w tr; simpl.
  - intros [= _ <-]. by rewrite app_nil_r.
  - rewrite filter_cons. destruct (map_get seenSchema (Schema_Name s)) eqn:Hs; simpl.
    + destruct (decide (true = false)); [done|]. apply IH.
    + destruct (decide (false = false)); [|done].
      destruct (PopulateSchemaDir E s _ _ true w) as [w1 ret].
      case_bool_decide as Hret; [done|]. intros H. apply IH in H. rewrite H.
      unfold emit. by rewrite <- app_assoc.
Qed.

(** X14. Discovery at an instance directory, when it goes through: it asks for
    a directory for every schema of the first target whose name the first
    loop has not seen, once for each place the schema has in the list and
    in the order of the list, and it asks for nothing else.  The names seen
    are fixed before the first directory is made. *)
Theorem discovery_asks_for_each_unseen_schema cfg subdirs w tr w' tr' t ts :
  IsInstanceWithLeafSubdirs E w (Dir cfg) = true →
  Targets E w cfg = t :: ts →
  discovery E cfg subdirs w tr = (w', tr', None) →
  tr' = tr ++ ((λ s, CallPopulateSchemaDir s (Dir cfg)) <$>
                 filter (λ s, map_get (seenSchema_of w subdirs) (Schema_Name s) = false)
                        (Target_Schemas E w t)).
Proof.
  intros Hinst Ht. unfold discovery. rewrite Hinst, Ht. apply discover_trace.
Qed.


End DiscoveryCalls.

(** ** How a leaf call ends *)

Section LeafEnds.
Context (E : Env).

Lemma applyTableDiffs_outcome cfg t to diffs w tr w' tr' o :
  applyTableDiffs E cfg t to diffs w tr = (w', tr', Some o) →
  o = Ret 1 ∨ ∃ p, o = Panic p.
Proof.
  revert w tr. induction diffs as [|td diffs IH]; intros w tr; simpl; [done|].
  destruct (applyTableDiff E cfg t to td w tr) as [[w1 tr1] [o1|]] eqn:H1; [|by apply IH].
  intros [= <- <- <-]. unfold applyTableDiff in H1.
  repeat match type of H1 with
         | match ?x with _ => _ end = _ => destruct x
         | (let (_, _) := ?x in _) = _ => destruct x
         end; simplify_eq; eauto.
Qed.

(** X16. A call for a leaf returns 0 or 1, or it panics.  It returns 0 for a
    live schema only through the clean-up: the temporary schema is gone
    then, and dropping it was the last thing the call did. *)
Theorem leaf_returns_0_only_after_cleanup fuel cfg seen w tr r :
  IsLeaf E w (Dir cfg) = true →
  pull E fuel cfg seen w tr = Some r →
  (res_outcome r = Ret 0 ∨ res_outcome r = Ret 1 ∨ ∃ p, res_outcome r = Panic p)
  ∧ (res_outcome r = Ret 0 → is_Some (leaf_schema E w cfg) →
     temp_schema (res_world r) = None
     ∧ ∃ tr1, res_trace r = tr1 ++ [CallDropTemporarySchema (Dir cfg)]).
Proof.
  intros Hleaf. destruct fuel as [|fuel]; [done|]. simpl. rewrite Hleaf.
  destruct (pull_leaf E cfg w tr) as [[o w'] tr'] eqn:Hrun. intros [= <-]. simpl.
  unfold leaf_schema. unfold pull_leaf, emit in Hrun.
  destruct (Targets E w cfg) as [|t ts].
  { injection Hrun as <- _ _. split; [eauto|]. by intros _ [? ?]. }
  destruct (SchemaNames t) as [|name names].
  { injection Hrun as <- _ _. split; [eauto|]. by intros _ [? ?]. }
  destruct (Target_Schema E w t name) as [to|].
  - unfold PopulateTemporarySchema in Hrun.
    destruct (populate_error E w cfg); [injection Hrun as <- _ _; split; [eauto|by intros [=]]|].
    destruct (applyTableDiffs E cfg t to _ _ _) as [[w1 tr1] [o1|]] eqn:Hloop.
    + injection Hrun as <- _ _.
      destruct (applyTableDiffs_outcome _ _ _ _ _ _ _ _ _ Hloop) as [->|[p ->]];
        (split; [eauto|by intros [=]]).
    + unfold DropTemporarySchema in Hrun.
      destruct (drop_error E w1 cfg); injection Hrun as <- <- <-; [split; [eauto|by intros [=]]|].
      split; [eauto|]. intros _ _. split; [done|]. by eexists.
  - split; [|by intros _ [? ?]].
    destruct (Dir_Delete E (Dir cfg) w) as [w1 [err|]]; injection Hrun as <- _ _; eauto.
Qed.

End LeafEnds.

(** * The sample runs *)

Module Runs.
Import Sample Cases.

(** C1. The code at a failing input: the file system refuses the write of
    the first diff entry.  [pull] returns 1 with the temporary schema still
    on the instance; it was populated and never dropped. *)
Theorem failed_write_keeps_temporary_schema :
  ∃ r, PullCommand readonly 2 {| Dir := root |} disk = Some r
       ∧ res_outcome r = Ret 1
       ∧ temp_schema (res_world r) = Some "/r/shop"
       ∧ CallPopulateTemporarySchema shop ∈ res_trace r
       ∧ CallDropTemporarySchema shop ∉ res_trace r.
Proof.
  eexists. split; [vm_compute; reflexivity|]. simpl.
  split_and!; [done|done| |].
  - by apply (bool_decide_unpack _).
  - by apply (bool_decide_unpack _).
Qed.

(** C2. The code at a failing input: two entries of a directory resolve
    to the same leaf.  [pull] returns 0 having entered the leaf twice; the
    seen-set holds the inner directory only. *)
Theorem linked_leaf_is_visited_twice :
  ∃ r, PullCommand mirrored 2 {| Dir := root |} disk = Some r
       ∧ res_outcome r = Ret 0
       ∧ leaf_visits "/r/shop" (res_trace r) = 2%nat
       ∧ map_get (res_seen r) "/r/shop" = false
       ∧ map_get (res_seen r) "/r" = true.
Proof.
  eexists. split; [vm_compute; reflexivity|]. simpl. split_and!; done.
Qed.

Lemma gone_schema_deletes_directory_witness :
  ∃ w', pull gone 1 {| Dir := shop |} ∅ disk [] =
          Some (Result (Ret 0) ∅ w'
                  [PrintUpdating "/r/shop"; CallDirDelete shop; PrintDeletedDir shop])
        ∧ dirs w' !! "/r/shop" = None
        ∧ files w' !! ("/r/shop", "users.sql") = None
        ∧ dirs w' !! "/r" = Some None.
Proof.
  destruct (gone_schema_deletes_directory gone 0 {| Dir := shop |} ∅ disk [] target [] "shop" []
              eq_refl eq_refl eq_refl eq_refl) as (w' & Hrun & Hd & Hf & Hd' & _).
  exists w'. split_and!.
  - exact Hrun.
  - by apply Hd.
  - by apply Hf.
  - by rewrite (Hd' "/r").
Defined.

Lemma create_writes_definition_witness :
  ∃ r rest,
    pull fresh 1 {| Dir := shop |} ∅ disk [] = Some r
    ∧ res_trace r =
        [PrintUpdating "/r/shop"; CallPopulateTemporarySchema shop; CallNewSchemaDiff live;
         CallShowCreateTable live orders;
         CallWrite {| SQLFile_Dir := shop; FileName := "orders.sql";
                      Contents := "CREATE TABLE orders (id int)" |};
         PrintWroteNew "/r/shop/orders.sql" 28] ++ rest
    ∧ files (res_world r) !! ("/r/shop", "orders.sql") = Some "CREATE TABLE orders (id int)".
Proof.
  destruct (create_writes_definition fresh 0 {| Dir := shop |} ∅ disk [] target live [] orders
              [DropTable legacy] (set_temp_schema (Some "/r/shop") disk)
              (diff_phase_trace {| Dir := shop |} live []) "CREATE TABLE orders (id int)"
              eq_refl eq_refl eq_refl eq_refl eq_refl)
    as (_ & (r & rest & Hrun & Htr & Hfile) & _).
  exists r, rest. split_and!; [exact Hrun|exact Htr|].
  apply Hfile. intros td table' ->%list_elem_of_singleton [= <-]. done.
Defined.

Lemma entry_touches_its_file_only_witness :
  files (applyTableDiff fresh {| Dir := shop |} target live (DropTable legacy) disk []).1.1
    !! ("/r/shop", "users.sql") = Some "CREATE TABLE users (id int)".
Proof.
  destruct (applyTableDiff fresh {| Dir := shop |} target live (DropTable legacy) disk [])
    as [[w' tr'] o] eqn:Happly.
  destruct (entry_touches_its_file_only fresh {| Dir := shop |} target live
              (DropTable legacy) legacy disk [] w' tr' o
              (or_intror (or_introl eq_refl)) Happly) as (Hframe & _).
  simpl. by rewrite Hframe.
Defined.

Lemma root_encloses_shop (diffs : list TableDiff) (ddl' : Table → string + error) :
  encloses (env [shop] diffs [live] ddl' (λ _, None) None (λ _, None))
    2 (Call {| Dir := root |} ∅ disk []) 1 shop_call.
Proof.
  eapply encloses_below; [|apply encloses_self].
  eapply (subcall_intro _ 1 {| Dir := root |} ∅ disk [] [shop] disk [CallSubdirs root]).
  - reflexivity.
  - reflexivity.
  - reflexivity.
  - apply (invoked_now _ {| Dir := root |} shop []). reflexivity.
Defined.

(** C3 as it is worded, at a diff that drops the table [users] before it
    renames it: the run ends in the panic of the Rename, but the file of
    the renamed table has been deleted on the way. *)
Lemma renamed_table_file_is_deleted :
  ∃ r,
    diff_phase redone {| Dir := shop |} disk =
      Some (target, live, [DropTable users; RenameTable users])
    ∧ PullCommand redone 2 {| Dir := root |} disk = Some r
    ∧ res_outcome r = Panic (PanicError (Error "Table renames not yet supported!"))
    ∧ files disk !! ("/r/shop", "users.sql") = Some "CREATE TABLE users (id int)"
    ∧ files (res_world r) !! ("/r/shop", "users.sql") = None
    ∧ CallDelete {| SQLFile_Dir := shop; FileName := "users.sql"; Contents := "" |}
        ∈ res_trace r.
Proof.
  eexists. split_and!; [reflexivity|vm_compute; reflexivity|reflexivity..|].
  simpl. by apply (bool_decide_unpack _).
Qed.

Lemma rename_is_fatal_witness :
  ∃ o w' tr',
    PullCommand renamed 2 {| Dir := root |} disk = Some (Result o {[ "/r" := true ]} w' tr')
    ∧ exit_status o ≠ 0
    ∧ files w' !! ("/r/shop", "users.sql") = Some "CREATE TABLE users (id int)".
Proof.
  destruct (rename_is_fatal renamed 2 (Call {| Dir := root |} ∅ disk []) 0
              {| Dir := shop |} {[ "/r" := true ]} disk [CallSubdirs root] target live
              [CreateTable orders] users [DropTable legacy]
              (root_encloses_shop _ _) eq_refl eq_refl)
    as (o & w' & tr' & o1 & Hrun & Hexit & _ & _ & Hfile).
  destruct Hfile as [Hfile _].
  { intros td table' ->%list_elem_of_singleton [= <-]. done. }
  exists o, w', tr'. split_and!; [exact Hrun|exact Hexit|].
  exact (eq_trans Hfile eq_refl).
Defined.

Lemma definition_error_aborts_witness :
  ∃ w1 tr1,
    PullCommand lost 2 {| Dir := root |} disk =
      Some (Result (Panic (PanicError (Error "connection lost"))) {[ "/r" := true ]} w1 tr1)
    ∧ files w1 !! ("/r/shop", "legacy.sql") = None.
Proof.
  destruct (applyTableDiffs lost {| Dir := shop |} target live [DropTable legacy]
              (set_temp_schema (Some "/r/shop") disk)
              (diff_phase_trace {| Dir := shop |} live [CallSubdirs root]))
    as [[w1 tr1] o] eqn:Hpre.
  assert (o = None ∧ files w1 !! ("/r/shop", "legacy.sql") = None) as [-> Hfile].
  { vm_compute in Hpre. injection Hpre as <- _ <-. split; reflexivity. }
  destruct (definition_error_aborts lost 2 (Call {| Dir := root |} ∅ disk []) 0
              {| Dir := shop |} {[ "/r" := true ]} disk [CallSubdirs root] target live
              [DropTable legacy] (CreateTable orders) orders [] w1 tr1
              (Error "connection lost")
              (root_encloses_shop _ _) eq_refl eq_refl (or_introl eq_refl) Hpre)
    as (_ & Hrun & _).
  { vm_compute in Hpre. injection Hpre as <- _. reflexivity. }
  eexists w1, _. split; [exact Hrun|exact Hfile].
Defined.

Lemma inner_node_fails_fast_witness :
  ∃ w2,
    pull crowded 1 {| Dir := root |} ∅ disk [] =
      Some (Result (Ret 1) ∅ w2
              [CallSubdirs root; CallPopulateSchemaDir inventory root;
               CallPopulateSchemaDir billing root])
    ∧ dirs w2 !! "/r/inventory" = Some (Some {[ "schema" := "inventory" ]}).
Proof.
  destruct (discover crowded {| Dir := root |} target (seenSchema_of disk [shop])
              [live; inventory] disk [CallSubdirs root]) as [[w1 tr1] o] eqn:Hpre.
  destruct (PopulateSchemaDir crowded billing db root true w1) as [w2 ret] eqn:Hpop.
  assert (o = None ∧ tr1 = [CallSubdirs root; CallPopulateSchemaDir inventory root]
          ∧ ret = 1) as (-> & -> & ->).
  { vm_compute in Hpre. injection Hpre as <- <- <-.
    vm_compute in Hpop. injection Hpop as _ <-. done. }
  destruct (proj1 (inner_node_fails_fast crowded 0 {| Dir := root |} ∅ disk [] [shop]
                     eq_refl eq_refl)
              target [] [live; inventory] billing [] w1 _ w2 1
              eq_refl eq_refl eq_refl Hpre eq_refl Hpop) as [Hrun Hdirs]; [done|].
  exists w2. split; [exact Hrun|].
  apply (Hdirs "inventory"). vm_compute. by left.
Defined.

Lemma leaf_uses_first_target_and_name_witness :
  IsLeaf plural disk shop = true
  ∧ pull plural 1 {| Dir := shop |} ∅ disk []
    = pull (with_Targets (λ _ _, [target]) plural) 1 {| Dir := shop |} ∅ disk [].
Proof.
  split; [reflexivity|].
  exact (proj1 (leaf_uses_first_target_and_name plural 0 {| Dir := shop |} ∅ disk [] eq_refl)
           two_names [replica] eq_refl eq_refl eq_refl).
Defined.

End Runs.

(** ** The tree that obeys the laws *)

Module TwiceRuns.
Import Twice.

Lemma append_cons c (s t : string) : String c s +:+ t = String c (s +:+ t).
Proof. reflexivity. Qed.

Lemma append_nil (t : string) : "" +:+ t = t.
Proof. reflexivity. Qed.

Lemma append_assoc (a b c : string) : (a +:+ b) +:+ c = a +:+ (b +:+ c).
Proof. induction a as [|x a IH]; [done|]. by rewrite !append_cons, IH. Qed.

Lemma prefix_nil s : String.prefix "" s = true.
Proof. by destruct s. Qed.

Lemma prefix_cons c a b : String.prefix (String c a) (String c b) = String.prefix a b.
Proof. simpl. by destruct (Ascii.ascii_dec c c). Qed.

Lemma prefix_app_inv a b : String.prefix a b = true → ∃ rest, b = a +:+ rest.
Proof.
  revert b. induction a as [|c a IH]; intros b H.
  - by exists b.
  - destruct b as [|c' b]; [done|]. simpl in H.
    destruct (Ascii.ascii_dec c c') as [->|]; [|done].
    destruct (IH b H) as [rest ->]. by exists rest.
Qed.

Lemma no_slash_app a rest : no_slash (a +:+ "/" +:+ rest) = false.
Proof.
  induction a as [|c a IH]; [done|]. rewrite append_cons. simpl. rewrite IH.
  apply andb_false_r.
Qed.

Lemma below_root_inv p : below_root p = true → ∃ x, p = "/r/" +:+ x.
Proof. apply prefix_app_inv. Qed.

(** Nothing below [/r] lies above [/r]. *)
Lemma under_root p : below_root p = true → under p "/r" = false.
Proof.
  intros [x ->]%below_root_inv. unfold under.
  rewrite bool_decide_eq_false_2 by done. done.
Qed.

(** A directory named without a slash lies below no other leaf. *)
Lemma under_child p x :
  below_root p = true → no_slash x = true → under p ("/r/" +:+ x) = true → p = "/r/" +:+ x.
Proof.
  intros [y ->]%below_root_inv Hx. unfold under.
  intros [Heq%bool_decide_eq_true|Hpre]%orb_true_iff; [done|].
  rewrite append_assoc, !append_cons, !append_nil, !prefix_cons in Hpre.
  apply prefix_app_inv in Hpre as [rest ->].
  rewrite append_assoc, no_slash_app in Hx. done.
Qed.

Lemma strip_sql_spec f name : strip_sql f = Some name ↔ f = name +:+ ".sql".
Proof.
  split.
  - revert name. induction f as [|c f IH]; intros name; simpl.
    + by destruct (decide ("" = ".sql")).
    + destruct (decide (String c f = ".sql")) as [->|Hne]; [by intros [= <-]|].
      destruct (strip_sql f) as [n|]; [|done]. intros [= <-].
      rewrite append_cons. f_equal. by apply IH.
  - intros ->. induction name as [|c name IH]; [done|].
    rewrite append_cons. simpl.
    destruct (decide (String c (name +:+ ".sql") = ".sql")) as [Heq|_].
    + apply (f_equal String.length) in Heq. simpl in Heq.
      rewrite string_length_app in Heq. simpl in Heq. lia.
    + by rewrite IH.
Qed.

(** The staged tables are the tables that have a file. *)
Lemma staged_tables_spec w p table :
  table ∈ staged_tables w p ↔ is_Some (files w !! (p, table_file table)).
Proof.
  unfold staged_tables. rewrite list_elem_of_omap. split.
  - intros ([[d f] text] & Hin & Hf). simpl in Hf.
    destruct (decide (d = p)) as [->|]; [|done].
    destruct (strip_sql f) as [n|] eqn:Hn; [|done]. injection Hf as <-.
    apply strip_sql_spec in Hn as ->. apply elem_of_map_to_list in Hin.
    by exists text.
  - intros [text Hf]. exists (p, table_file table, text). split.
    + by apply elem_of_map_to_list.
    + simpl. destruct (decide (p = p)); [|done].
      destruct table as [n]. unfold table_file. simpl.
      by rewrite (proj2 (strip_sql_spec _ n) eq_refl).
Qed.

Lemma diff_tables_spec from to td :
  td ∈ diff_tables from to ↔
  (∃ table, td = CreateTable table ∧ table ∈ to ∧ table ∉ from)
  ∨ (∃ table, td = DropTable table ∧ table ∈ from ∧ table ∉ to).
Proof.
  unfold diff_tables. rewrite elem_of_app, !list_elem_of_fmap.
  split; (intros [(table & ? & H)|(table & ? & H)]; [left|right]; exists table).
  - apply list_elem_of_filter in H as [? ?]. done.
  - apply list_elem_of_filter in H as [? ?]. done.
  - destruct H. split; [done|]. by apply list_elem_of_filter.
  - destruct H. split; [done|]. by apply list_elem_of_filter.
Qed.

Lemma diff_env w t to p :
  temp_schema w = Some p →
  NewSchemaDiff env (TemporarySchema env w t) to
    = diff_tables (staged_tables w p) (Schema_Tables to).
Proof. simpl. by intros ->. Qed.

Lemma Subdirs_spec w d l sd :
  Subdirs env w d = inl l →
  sd ∈ l ↔ below_root (Path sd) = true ∧ is_Some (dirs w !! Path sd).
Proof.
  simpl. case_bool_decide; [|done]. intros [= <-].
  rewrite list_elem_of_fmap. split.
  - intros (p & -> & [Hp Hin%elem_of_elements%elem_of_dom]%list_elem_of_filter). done.
  - intros [Hp Hx]. exists (Path sd). split; [by destruct sd|].
    apply list_elem_of_filter. split; [done|]. by apply elem_of_elements, elem_of_dom.
Qed.

Lemma lawful : Lawful env differs.
Proof.
  split.
  - done.
  - done.
  - done.
  - done.
  - done.
  - by intros w i to table text _ ?.
  - intros w t to p td Htemp. rewrite (diff_env _ _ _ _ Htemp), diff_tables_spec.
    intros [(table & -> & Hin & Hout)|(table & -> & Hin & Hout)]; simpl.
    + split; [done|]. rewrite staged_tables_spec in Hout.
      destruct (files w !! (p, table_file table)); [|done]. by destruct Hout.
    + split; [done|]. by apply staged_tables_spec.
  - intros w t to p table Htemp. rewrite (diff_env _ _ _ _ Htemp). split_and!.
    + intros Hin Hf. apply diff_tables_spec. left. exists table. split_and!; [done..|].
      rewrite staged_tables_spec, Hf. by intros [? ?].
    + intros Hout Hf. apply diff_tables_spec. right. exists table. split_and!; [done| |done].
      by apply staged_tables_spec.
    + by intros.
  - intros w d l sd Hl Hin. by apply (Subdirs_spec _ _ _ _ Hl) in Hin as [_ ?].
  - intros w w' d l' sd Hl' Hin Hx. apply (Subdirs_spec _ _ _ _ Hl') in Hin as [Hp _].
    simpl in *. case_bool_decide; [|done]. eexists. split; [done|].
    apply (Subdirs_spec w d); [simpl; by rewrite bool_decide_eq_true_2|done].
  - intros w d. simpl. by destruct (dirs w !! Path d).
  - intros w sf. simpl. by destruct (dirs w !! Path (SQLFile_Dir sf)).
  - intros w [p] t ts schema Hinst _ Hin. simpl in Hinst.
    apply bool_decide_eq_true in Hinst as ->. simpl in Hin.
    assert (schema = shop ∨ schema = inventory) as [-> | ->].
    { apply elem_of_cons in Hin as [->|Hin]; [by left|].
      apply elem_of_cons in Hin as [->|Hin]; [by right|]. by apply elem_of_nil in Hin. }
    + split_and!; [done|done|by eexists _, _, _|].
      intros q Hq Hu. apply (under_child q "shop"); done.
    + split_and!; [done|done|by eexists _, _, _|].
      intros q Hq Hu. apply (under_child q "inventory"); done.
  - intros w d t ts l sd t' ts' names schema _ _ _ _ _ _ Hin. simpl in *.
    assert (schema = shop ∨ schema = inventory) as [-> | ->].
    { apply elem_of_cons in Hin as [->|Hin]; [by left|].
      apply elem_of_cons in Hin as [->|Hin]; [by right|]. by apply elem_of_nil in Hin. }
    + by eexists.
    + by eexists.
Qed.

Lemma before_dirs q x :
  dirs before !! q = Some x →
  (q = "/r" ∧ x = None)
  ∨ (q = "/r/shop" ∧ x = Some {[ "schema" := "shop" ]})
  ∨ (q = "/r/old" ∧ x = Some {[ "schema" := "old" ]}).
Proof.
  unfold before. simpl. intros H.
  apply lookup_insert_Some in H as [[<- <-]|[_ H]]; [by left|].
  apply lookup_insert_Some in H as [[<- <-]|[_ H]]; [right; by left|].
  apply lookup_singleton_Some in H as [<- <-]. right. by right.
Qed.

Lemma before_files p f text :
  files before !! (p, f) = Some text → p = "/r/shop" ∨ p = "/r/old".
Proof.
  unfold before. simpl. intros H.
  apply lookup_insert_Some in H as [[[= <- <-] _]|[_ H]]; [by left|].
  apply lookup_insert_Some in H as [[[= <- <-] _]|[_ H]]; [by left|].
  apply lookup_singleton_Some in H as [[= <- <-] _]. by right.
Qed.

Lemma before_well_formed : well_formed env before.
Proof.
  split_and!.
  - intros p f text [-> | ->]%before_files; by eexists.
  - intros p q Hp [x Hx] Hu. unfold leaf in Hp. simpl in Hp.
    apply before_dirs in Hx as [[-> _]|[[-> _]|[-> _]]].
    + by rewrite under_root in Hu.
    + symmetry. by apply (under_child p "shop").
    + symmetry. by apply (under_child p "old").
  - intros q skf name Hq Hname.
    apply before_dirs in Hq as [[_ ?]|[[-> [= ->]]|[-> [= ->]]]]; [done| |].
    + apply lookup_singleton_Some in Hname as [_ <-]. by eexists _, _, _.
    + apply lookup_singleton_Some in Hname as [_ <-]. by eexists _, _, _.
Qed.

Lemma first_run : PullCommand env 3 root before = Some after.
Proof. vm_compute. reflexivity. Qed.

Lemma first_run_returns_0 : res_outcome after = Ret 0.
Proof. vm_compute. reflexivity. Qed.

Lemma second_run : PullCommand env 3 root (res_world after) = Some again.
Proof. vm_compute. reflexivity. Qed.

Lemma halted_lawful : Lawful Halted.env differs.
Proof.
  pose proof lawful as HL. constructor.
  - exact (law_IsLeaf _ _ HL).
  - exact (law_IsInstance _ _ HL).
  - exact (law_Targets _ _ HL).
  - exact (law_Target_Schema _ _ HL).
  - exact (law_Target_Schemas _ _ HL).
  - exact (law_definition _ _ HL).
  - exact (law_diff_sound _ _ HL).
  - exact (law_diff_complete _ _ HL).
  - exact (law_listed _ _ HL).
  - exact (law_listing _ _ HL).
  - exact (law_mkdir _ _ HL).
  - intros w sf. simpl. case_bool_decide; [done|]. exact (law_write _ _ HL w sf).
  - exact (law_schema_dir _ _ HL).
  - exact (law_same_instance _ _ HL).
Qed.



End TwiceRuns.

(** ** Runs on the tree with inner directories *)

Module EdgeRuns.
Import Sample Edge.

Lemma linked_listed w d l sd : Subdirs linked w d = inl l → sd ∈ l → Path sd ∈ linked_paths.
Proof.
  unfold linked, tree, linked_paths. simpl.
  destruct (decide ("/r" = Path d)) as [Hr|Hr]; simpl.
  - intros [= <-] Hin. repeat (apply elem_of_cons in Hin as [->|Hin]; [set_solver|]).
    by apply elem_of_nil in Hin.
  - destruct (decide ("/r/sub" = Path d)) as [Hs|Hs]; simpl; [|done].
    intros [= <-] Hin. repeat (apply elem_of_cons in Hin as [->|Hin]; [set_solver|]).
    by apply elem_of_nil in Hin.
Qed.

Lemma pull_terminates_witness : ∃ r, pull linked 5 {| Dir := root |} ∅ disk [] = Some r.
Proof.
  apply (pull_terminates linked linked_paths linked_listed 5 {| Dir := root |} ∅ disk []).
  vm_compute. lia.
Defined.

Lemma directory_listed_at_most_once_witness :
  ∃ r, PullCommand linked 3 {| Dir := root |} disk = Some r
       ∧ NoDup (listings (res_trace r))
       ∧ listings (res_trace r) = ["/r"; "/r/sub"].
Proof.
  destruct (PullCommand linked 3 {| Dir := root |} disk) as [r|] eqn:Hrun;
    [|vm_compute in Hrun; discriminate].
  exists r. split_and!; [reflexivity| |].
  - exact (directory_listed_at_most_once linked 3 {| Dir := root |} disk r Hrun).
  - vm_compute in Hrun. injection Hrun as <-. reflexivity.
Defined.

Lemma seen_is_what_was_listed_witness :
  ∃ r, PullCommand linked 3 {| Dir := root |} disk = Some r
       ∧ map_get (res_seen r) "/r/sub" = true
       ∧ "/r/sub" ∈ listings (res_trace r).
Proof.
  destruct (PullCommand linked 3 {| Dir := root |} disk) as [r|] eqn:Hrun;
    [|vm_compute in Hrun; discriminate].
  assert (Hseen : map_get (res_seen r) "/r/sub" = true).
  { vm_compute in Hrun. injection Hrun as <-. reflexivity. }
  exists r. split_and!; [reflexivity|exact Hseen|].
  exact (proj1 (seen_is_what_was_listed linked 3 {| Dir := root |} disk r Hrun) _ Hseen).
Defined.

Lemma root_encloses_sub : encloses locked 2 (Call {| Dir := root |} ∅ disk []) 1 sub_call.
Proof.
  eapply encloses_below; [|apply encloses_self].
  eapply (subcall_intro _ 1 {| Dir := root |} ∅ disk [] [sub] disk [CallSubdirs root]);
    [reflexivity..|].
  apply (invoked_now _ {| Dir := root |} sub []). reflexivity.
Qed.

Lemma root_encloses_leaf targets diffs populate_err drop_err :
  encloses (plain targets diffs populate_err drop_err) 2 (Call {| Dir := root |} ∅ disk [])
    1 leaf_call.
Proof.
  eapply encloses_below; [|apply encloses_self].
  eapply (subcall_intro _ 1 {| Dir := root |} ∅ disk [] [shop] disk [CallSubdirs root]);
    [reflexivity..|].
  apply (invoked_now _ {| Dir := root |} shop []). reflexivity.
Qed.

Lemma listing_error_aborts_witness :
  PullCommand locked 2 {| Dir := root |} disk =
    Some (Result (Ret 1) {[ "/r" := true ]} disk
            [CallSubdirs root; CallSubdirs sub; PrintUnableList sub (Error "permission denied")]).
Proof.
  exact (listing_error_aborts locked 2 (Call {| Dir := root |} ∅ disk []) 0 {| Dir := sub |}
           {[ "/r" := true ]} disk [CallSubdirs root] (Error "permission denied")
           root_encloses_sub eq_refl eq_refl).
Defined.

Lemma populate_error_aborts_witness :
  PullCommand refused 2 {| Dir := root |} disk =
    Some (Result (Ret 1) {[ "/r" := true ]} disk
            [CallSubdirs root; PrintUpdating "/r/shop"; CallPopulateTemporarySchema shop;
             PrintUnablePopulate (Error "access denied")]).
Proof.
  exact (populate_error_aborts refused 2 (Call {| Dir := root |} ∅ disk []) 0 {| Dir := shop |}
           {[ "/r" := true ]} disk [CallSubdirs root] target [] "shop" [] live
           (Error "access denied") (root_encloses_leaf _ _ _ _)
           eq_refl eq_refl eq_refl eq_refl eq_refl).
Defined.

Lemma leaf_without_target_panics_witness :
  PullCommand untargeted 2 {| Dir := root |} disk =
    Some (Result (Panic IndexOutOfRange) {[ "/r" := true ]} disk
            [CallSubdirs root; PrintUpdating "/r/shop"])
  ∧ PullCommand unnamed 2 {| Dir := root |} disk =
    Some (Result (Panic IndexOutOfRange) {[ "/r" := true ]} disk
            [CallSubdirs root; PrintUpdating "/r/shop"]).
Proof.
  split.
  - exact (proj1 (leaf_without_target_panics untargeted 2 (Call {| Dir := root |} ∅ disk []) 0
                    {| Dir := shop |} {[ "/r" := true ]} disk [CallSubdirs root]
                    (root_encloses_leaf _ _ _ _) eq_refl (or_introl eq_refl))).
  - exact (proj1 (leaf_without_target_panics unnamed 2 (Call {| Dir := root |} ∅ disk []) 0
                    {| Dir := shop |} {[ "/r" := true ]} disk [CallSubdirs root]
                    (root_encloses_leaf _ _ _ _) eq_refl
                    (or_intror (ex_intro _ _ (ex_intro _ [] (conj eq_refl eq_refl)))))).
Defined.

Lemma instance_without_target_panics_witness :
  PullCommand headless 1 {| Dir := root |} disk =
    Some (Result (Panic IndexOutOfRange) ∅ disk [CallSubdirs root]).
Proof.
  exact (instance_without_target_panics headless 1 (Call {| Dir := root |} ∅ disk []) 0
           {| Dir := root |} ∅ disk [] [shop] (encloses_self _ _ _)
           eq_refl eq_refl eq_refl eq_refl).
Defined.

Lemma unsupported_diff_is_fatal_witness :
  ∃ w1 tr1,
    PullCommand novel 2 {| Dir := root |} disk =
      Some (Result (Panic (PanicError (Error "Unsupported diff type tengo.ModifyView
"))) {[ "/r" := true ]} w1 tr1)
    ∧ temp_schema w1 = Some "/r/shop"
    ∧ files w1 !! ("/r/shop", "orders.sql") = Some "CREATE TABLE orders (id int)"
    ∧ files w1 !! ("/r/shop", "legacy.sql") = Some "CREATE TABLE legacy (id int)".
Proof.
  pose (pre := applyTableDiffs novel {| Dir := shop |} target live [CreateTable orders]
                 (set_temp_schema (Some "/r/shop") disk)
                 (diff_phase_trace {| Dir := shop |} live [CallSubdirs root])).
  destruct (unsupported_diff_is_fatal novel 2 (Call {| Dir := root |} ∅ disk []) 0
              {| Dir := shop |} {[ "/r" := true ]} disk [CallSubdirs root] target live
              [CreateTable orders] "tengo.ModifyView" [DropTable legacy] pre.1.1 pre.1.2
              (root_encloses_leaf _ _ _ _) eq_refl eq_refl) as [Hrun Htemp].
  { vm_compute. reflexivity. }
  exists pre.1.1, pre.1.2. split_and!; [exact Hrun|exact Htemp| |]; vm_compute; reflexivity.
Defined.


Lemma drop_deletes_file_witness :
  ∃ r rest,
    pull altered 1 {| Dir := shop |} ∅ disk [] = Some r
    ∧ res_trace r =
        [PrintUpdating "/r/shop"; CallPopulateTemporarySchema shop; CallNewSchemaDiff live;
         CallDelete {| SQLFile_Dir := shop; FileName := "legacy.sql"; Contents := "" |};
         PrintDeletedFile "/r/shop/legacy.sql"] ++ rest
    ∧ files disk !! ("/r/shop", "legacy.sql") = Some "CREATE TABLE legacy (id int)"
    ∧ files (res_world r) !! ("/r/shop", "legacy.sql") = None.
Proof.
  destruct (drop_deletes_file altered 0 {| Dir := shop |} ∅ disk [] target live [] legacy
              [AlterTable users] (set_temp_schema (Some "/r/shop") disk)
              (diff_phase_trace {| Dir := shop |} live []) "CREATE TABLE legacy (id int)"
              eq_refl eq_refl eq_refl eq_refl eq_refl)
    as (_ & (r & rest & Hrun & Htr & Hfile) & _).
  exists r, rest. split_and!; [exact Hrun|exact Htr|reflexivity|].
  apply Hfile. intros td table' ->%list_elem_of_singleton [= <-]. done.
Defined.

Lemma alter_overwrites_file_witness :
  ∃ r rest,
    pull rewritten 1 {| Dir := shop |} ∅ dated [] = Some r
    ∧ res_trace r =
        [PrintUpdating "/r/shop"; CallPopulateTemporarySchema shop; CallNewSchemaDiff live;
         CallShowCreateTable live users;
         CallWrite {| SQLFile_Dir := shop; FileName := "users.sql";
                      Contents := "CREATE TABLE users (id int)" |};
         PrintWroteAltered "/r/shop/users.sql" 27] ++ rest
    ∧ files dated !! ("/r/shop", "users.sql") = Some "CREATE TABLE users (id tinyint)"
    ∧ files (res_world r) !! ("/r/shop", "users.sql") = Some "CREATE TABLE users (id int)".
Proof.
  destruct (alter_overwrites_file rewritten 0 {| Dir := shop |} ∅ dated [] target live []
              users [DropTable legacy] (set_temp_schema (Some "/r/shop") dated)
              (diff_phase_trace {| Dir := shop |} live []) "CREATE TABLE users (id int)"
              eq_refl eq_refl eq_refl eq_refl eq_refl)
    as (_ & r & rest & Hrun & Htr & Hfile).
  exists r, rest. split_and!; [exact Hrun|exact Htr|reflexivity|].
  apply Hfile. intros td table' ->%list_elem_of_singleton [= <-]. done.
Defined.

Lemma finished_loop_drops_temporary_schema_witness :
  ∃ w1 tr1,
    pull stuck 1 {| Dir := shop |} ∅ disk [] =
      Some (Result (Ret 1) ∅ w1
              (tr1 ++ [CallDropTemporarySchema shop;
                       PrintUnableCleanup (Error "lock wait timeout")]))
    ∧ files w1 !! ("/r/shop", "orders.sql") = Some "CREATE TABLE orders (id int)"
    ∧ files w1 !! ("/r/shop", "legacy.sql") = None.
Proof.
  pose (loop := applyTableDiffs stuck {| Dir := shop |} target live
                  [CreateTable orders; DropTable legacy]
                  (set_temp_schema (Some "/r/shop") disk)
                  (diff_phase_trace {| Dir := shop |} live [])).
  destruct (finished_loop_drops_temporary_schema stuck 0 {| Dir := shop |} ∅ disk [] target live
              [CreateTable orders; DropTable legacy] loop.1.1 loop.1.2
              eq_refl eq_refl) as (Hrun & _).
  { vm_compute. reflexivity. }
  exists loop.1.1, loop.1.2. split_and!; [exact Hrun| |]; vm_compute; reflexivity.
Defined.

Lemma leaf_call_stays_in_its_directory_witness :
  ∃ r, pull Cases.gone 1 {| Dir := shop |} ∅ disk [] = Some r
       ∧ dirs (res_world r) !! "/r" = Some None
       ∧ res_seen r = ∅.
Proof.
  destruct (pull Cases.gone 1 {| Dir := shop |} ∅ disk []) as [r|] eqn:Hrun;
    [|vm_compute in Hrun; discriminate].
  destruct (leaf_call_stays_in_its_directory Cases.gone 1 {| Dir := shop |} ∅ disk [] r
              eq_refl Hrun) as (_ & Hdirs & Hseen & _).
  exists r. split_and!; [reflexivity| |exact Hseen].
  by rewrite (Hdirs "/r").
Defined.

Lemma discovery_asks_for_each_unseen_schema_witness :
  ∃ w', discovery grown {| Dir := root |} [shop] disk [CallSubdirs root] =
          (w', [CallSubdirs root; CallPopulateSchemaDir inventory root], None).
Proof.
  destruct (discovery grown {| Dir := root |} [shop] disk [CallSubdirs root])
    as [[w' tr'] o] eqn:Hrun.
  assert (o = None) as -> by (vm_compute in Hrun; by injection Hrun as _ _ <-).
  exists w'. f_equal. f_equal.
  exact (discovery_asks_for_each_unseen_schema grown {| Dir := root |} [shop] disk
           [CallSubdirs root] w' tr' target [] eq_refl eq_refl Hrun).
Defined.


Lemma leaf_returns_0_only_after_cleanup_witness :
  ∃ r, pull Cases.fresh 1 {| Dir := shop |} ∅ disk [] = Some r
       ∧ res_outcome r = Ret 0
       ∧ temp_schema (res_world r) = None.
Proof.
  destruct (pull Cases.fresh 1 {| Dir := shop |} ∅ disk []) as [r|] eqn:Hrun;
    [|vm_compute in Hrun; discriminate].
  assert (Hret : res_outcome r = Ret 0).
  { vm_compute in Hrun. injection Hrun as <-. reflexivity. }
  destruct (leaf_returns_0_only_after_cleanup Cases.fresh 1 {| Dir := shop |} ∅ disk [] r
              eq_refl Hrun) as [_ Hclean].
  exists r. split_and!; [reflexivity|exact Hret|].
  apply Hclean; [exact Hret|]. by exists live.
Defined.

End EdgeRuns.
